(** * knex-modeling: schema differ, alteration classifier, aggregator,
      migration text generator, call extractor, column parser and model
      names

    A shallow embedding of [src/types.ts], [src/MigrationGenerator.ts],
    [src/MigrationParser.ts] and the naming functions of
    [src/SchemaGenerator.ts], with the properties of the specification
    stated over it, and further properties read off the code.

    Conventions of the embedding.
    - An optional property of a TypeScript interface is an [option]:
      [None] is an absent (or [undefined]) property.
    - A JavaScript number is a [Z]: the embedding holds the integers.
      Printing and reading one are exact here, as they are in the source
      below 2^53; the properties about printed or parsed numbers carry that
      bound.
    - A plain object used as a dictionary (a [SchemaDefinition]) is the list
      of its own entries in insertion order, which is what [Object.entries]
      and [Object.keys] enumerate (keys that are array indices, which
      JavaScript enumerates first, are left out); its keys are pairwise
      distinct ([NoDup]).
    - A plain object inherits the members of [Object.prototype].  An
      assignment to the key [__proto__] of an object without an entry of
      that name reaches the accessor inherited under it and stores no entry
      ([obj_set]).  A lookup [obj[key]] finds an inherited member when the
      object has no entry of that name: where the source throws on it the
      embedding says so, and the properties of the schema differ that depend
      on these lookups are stated for schemas whose column names are none of
      these members ([ordinary_names]).
    - A column definition is a record in declaration order of its
      interface: two definitions that differ only in the order in which
      their properties were written are the same value here.  The source
      compares the JSON texts of two definitions, which also tells such
      orders apart: [hasColumnChanged] is that comparison for definitions
      written in one order. *)

From Stdlib Require Import ZArith List Bool Lia.
From Stdlib Require Import Strings.String Strings.Ascii.
From Stdlib Require Import Numbers.DecimalString.
From Stdlib Require Import Sorting.Permutation Sorting.Sorted.
From Stdlib Require OrderedTypeEx.
From Stdlib Require DecimalPos.
Import ListNotations.

Local Open Scope string_scope.
Local Open Scope Z_scope.

(** ** Data model ([src/types.ts]) *)

Inductive ColumnType : Set :=
| Tincrements | TbigIncrements | Tinteger | TbigInteger | Tstring | Ttext
| Tboolean | Tdate | Tdatetime | Ttimestamp | Ttime | Tfloat | Tdouble
| Tdecimal | Tbinary | Tjson | Tjsonb | Tuuid | Tenum.

(** The values a [defaultTo] or [onUpdate] property holds: a string (the
    sentinel ['now'] included), a number or a boolean.  The numbers of the
    embedding are the integers; a fractional number is not a value here. *)
Inductive JsPrim : Set :=
| PStr (s : string)
| PNum (n : Z)
| PBool (b : bool).

Record ColumnDefinition : Set := mkColumn {
  type      : ColumnType;
  primary   : option bool;
  unique    : option bool;
  nullable  : option bool;
  required  : option bool;
  defaultTo : option JsPrim;
  onUpdate  : option JsPrim;
  index     : option bool;
  comment   : option string;
  maxLength : option Z;
  precision : option Z;
  scale     : option Z;
  values    : option (list string)
}.

(** A column of type [t] with no optional property. *)
Definition column (t : ColumnType) : ColumnDefinition :=
  mkColumn t None None None None None None None None None None None None.

Definition with_unique (u : option bool) (d : ColumnDefinition) :=
  mkColumn (type d) (primary d) u (nullable d) (required d) (defaultTo d)
           (onUpdate d) (index d) (comment d) (maxLength d) (precision d)
           (scale d) (values d).

Definition with_nullable (n : option bool) (d : ColumnDefinition) :=
  mkColumn (type d) (primary d) (unique d) n (required d) (defaultTo d)
           (onUpdate d) (index d) (comment d) (maxLength d) (precision d)
           (scale d) (values d).

Definition with_comment (c : option string) (d : ColumnDefinition) :=
  mkColumn (type d) (primary d) (unique d) (nullable d) (required d)
           (defaultTo d) (onUpdate d) (index d) c (maxLength d) (precision d)
           (scale d) (values d).

Definition with_maxLength (m : option Z) (d : ColumnDefinition) :=
  mkColumn (type d) (primary d) (unique d) (nullable d) (required d)
           (defaultTo d) (onUpdate d) (index d) (comment d) m (precision d)
           (scale d) (values d).

Definition with_precision_scale (p s : option Z) (d : ColumnDefinition) :=
  mkColumn (type d) (primary d) (unique d) (nullable d) (required d)
           (defaultTo d) (onUpdate d) (index d) (comment d) (maxLength d) p s
           (values d).

Definition SchemaDefinition : Set := list (string * ColumnDefinition).

Inductive AlterationType : Set := alter | raw | recreate.

Inductive MigrationOperation : Set :=
| createTable (tableName : string) (schema : SchemaDefinition)
| dropTable (tableName : string)
| addColumn (tableName columnName : string) (definition : ColumnDefinition)
| dropColumn (tableName columnName : string)
             (oldDefinition : option ColumnDefinition)
| alterColumn (tableName columnName : string) (definition : ColumnDefinition)
              (oldDefinition : option ColumnDefinition)
              (alterationType : option AlterationType).

(** ** Decidable equality of the data *)

Definition ColumnType_eq_dec (a b : ColumnType) : {a = b} + {a <> b}.
Proof. decide equality. Defined.

Definition JsPrim_eq_dec (a b : JsPrim) : {a = b} + {a <> b}.
Proof.
  decide equality; auto using string_dec, Z.eq_dec, bool_dec.
Defined.

Definition option_eq_dec {A : Type} (dec : forall x y : A, {x = y} + {x <> y})
  (a b : option A) : {a = b} + {a <> b}.
Proof. decide equality. Defined.

Definition ColumnDefinition_eq_dec (a b : ColumnDefinition) :
  {a = b} + {a <> b}.
Proof.
  decide equality;
    auto using option_eq_dec, list_eq_dec, string_dec, Z.eq_dec, bool_dec,
               JsPrim_eq_dec, ColumnType_eq_dec.
Defined.

(** [a !== b] on the values above. *)
Definition strict_ne {A : Type} (dec : forall x y : A, {x = y} + {x <> y})
  (a b : A) : bool :=
  if dec a b then false else true.

(** A line feed, as template literals and source text hold them. *)
Definition nl : string := String "010"%char "".

(** ** JavaScript objects as insertion-ordered dictionaries *)

Section Dict.
Context {V : Type}.

(** The own property [key] of [obj], [None] when it has none. *)
Fixpoint dict_get (o : list (string * V)) (key : string) : option V :=
  match o with
  | [] => None
  | (k, v) :: rest => if String.eqb k key then Some v else dict_get rest key
  end.

(** An entry is stored: an existing key keeps its place, a new one goes
    last.  This is [Map.prototype.set], and [obj[key] = v] for every key
    that an assignment stores. *)
Fixpoint dict_set (o : list (string * V)) (key : string) (v : V)
  : list (string * V) :=
  match o with
  | [] => [(key, v)]
  | (k, w) :: rest =>
      if String.eqb k key then (k, v) :: rest
      else (k, w) :: dict_set rest key v
  end.

(** [obj[key] = v] on a plain object.  The key [__proto__] names the
    accessor a plain object inherits from [Object.prototype]: assigning it
    replaces the prototype of the object and stores no entry, unless the
    object has an entry of its own under that name, which is then
    updated. *)
Definition obj_set (o : list (string * V)) (key : string) (v : V)
  : list (string * V) :=
  if String.eqb key "__proto__"
  then match dict_get o key with
       | Some _ => dict_set o key v
       | None => o
       end
  else dict_set o key v.

(** [delete obj[key]]. *)
Fixpoint dict_delete (o : list (string * V)) (key : string)
  : list (string * V) :=
  match o with
  | [] => []
  | (k, w) :: rest =>
      if String.eqb k key then dict_delete rest key
      else (k, w) :: dict_delete rest key
  end.

(** [Object.assign(target, source)]: one assignment per entry of the
    source. *)
Definition dict_assign (target source : list (string * V))
  : list (string * V) :=
  fold_left (fun acc kv => obj_set acc (fst kv) (snd kv)) source target.

Definition dict_keys (o : list (string * V)) : list string := map fst o.

(** Own keys are pairwise distinct. *)
Definition dict_wf (o : list (string * V)) : Prop := NoDup (dict_keys o).

(** Two dictionaries with the same bindings, whatever their key order. *)
Definition dict_equiv (a b : list (string * V)) : Prop :=
  forall key, dict_get a key = dict_get b key.
End Dict.

(** The names a plain object inherits from [Object.prototype].  A lookup
    [obj[key]] under one of them finds the inherited member, a function (or,
    under [__proto__], the prototype itself), when the object has no entry
    of that name. *)
Definition inherited_members : list string :=
  [ "constructor"; "hasOwnProperty"; "isPrototypeOf"; "propertyIsEnumerable";
    "toLocaleString"; "toString"; "valueOf"; "__proto__";
    "__defineGetter__"; "__defineSetter__"; "__lookupGetter__";
    "__lookupSetter__" ].

Definition inherited (key : string) : bool :=
  existsb (String.eqb key) inherited_members.

(** No key of the object is the name of an inherited member: on such an
    object every lookup [obj[key]] under a key of its own or of another such
    object is a lookup among the entries. *)
Definition ordinary_names {V : Type} (o : list (string * V)) : bool :=
  forallb (fun entry => negb (inherited (fst entry))) o.

(** ** Alteration classifier ([src/MigrationGenerator.ts]) *)

Module MigrationGenerator.

(** [v || d] for an optional number: [undefined] and [0] are falsy. *)
Definition or_default (v : option Z) (d : Z) : Z :=
  match v with
  | Some n => if n =? 0 then d else n
  | None => d
  end.

(** The copy of a definition with its [comment] deleted. *)
Definition normalized (d : ColumnDefinition) : ColumnDefinition :=
  with_comment None d.

(** [hasColumnChanged]: the JSON texts of the two normalized copies are
    compared.  The text of an object lists its properties in the order in
    which they were written.  For two definitions written in the same order
    the texts differ exactly when the records do, which is the comparison
    below.  For two definitions written in different orders the source
    reports a change, also when the records are equal; it never reports
    equal texts for different records. *)
Definition hasColumnChanged (oldDef newDef : ColumnDefinition) : bool :=
  if ColumnDefinition_eq_dec (normalized oldDef) (normalized newDef)
  then false else true.

Definition canUseAlterMethod (oldDef newDef : ColumnDefinition) : bool :=
  if strict_ne ColumnType_eq_dec (type oldDef) (type newDef) then false
  else
    match type oldDef, type newDef with
    | Tstring, Tstring =>
        let oldLength := or_default (maxLength oldDef) 255 in
        let newLength := or_default (maxLength newDef) 255 in
        oldLength <=? newLength
    | Tdecimal, Tdecimal =>
        let oldPrecision := or_default (precision oldDef) 8 in
        let newPrecision := or_default (precision newDef) 8 in
        let oldScale := or_default (scale oldDef) 2 in
        let newScale := or_default (scale newDef) 2 in
        (oldPrecision <=? newPrecision) && (oldScale <=? newScale)
    | _, _ =>
        match nullable oldDef, nullable newDef with
        | Some false, Some true => true
        | _, _ =>
            strict_ne (option_eq_dec JsPrim_eq_dec)
                      (defaultTo oldDef) (defaultTo newDef)
            && (if ColumnType_eq_dec (type oldDef) (type newDef)
                then true else false)
        end
    end.

Definition needsRawQuery (oldDef newDef : ColumnDefinition) : bool :=
  let constraintChanges :=
    [ strict_ne (option_eq_dec bool_dec) (unique oldDef) (unique newDef);
      strict_ne (option_eq_dec bool_dec) (primary oldDef) (primary newDef);
      strict_ne (option_eq_dec (list_eq_dec string_dec))
                (values oldDef) (values newDef);
      match nullable oldDef, nullable newDef with
      | Some true, Some false => true
      | _, _ => false
      end ] in
  existsb (fun changed => changed) constraintChanges.

Definition determineAlterationType (oldDef newDef : ColumnDefinition)
  : AlterationType :=
  if canUseAlterMethod oldDef newDef then alter
  else if needsRawQuery oldDef newDef then raw
  else recreate.

(** A size of a string or decimal column goes down, absent and zero sizes
    read with the defaults of [canUseAlterMethod]. *)
Definition size_shrinks (oldDef newDef : ColumnDefinition) : bool :=
  match type oldDef with
  | Tstring =>
      or_default (maxLength newDef) 255 <? or_default (maxLength oldDef) 255
  | Tdecimal =>
      (or_default (precision newDef) 8 <? or_default (precision oldDef) 8)
      || (or_default (scale newDef) 2 <? or_default (scale oldDef) 2)
  | _ => false
  end.

(** *** Schema differ *)

(** The three loops of [generateSchemaDiff], in the order in which they
    push onto [operations].  Their tests [oldSchema[columnName]] and
    [newSchema[columnName]] are lookups among the entries, which is what the
    source evaluates for a column name that is no member inherited from
    [Object.prototype].  (Under the name of such a member a schema without a
    column of that name yields the member: the source then pushes no
    [addColumn] and no [dropColumn], and pushes an [alterColumn] whose
    [oldDefinition] is the member, a value outside [MigrationOperation].)
    The properties that depend on what such a lookup finds are stated for
    schemas with [ordinary_names]. *)

(* Find new columns *)
Definition newColumns (tableName : string)
  (oldSchema newSchema : SchemaDefinition) : list MigrationOperation :=
  flat_map (fun entry : string * ColumnDefinition =>
              let (columnName, definition) := entry in
              match dict_get oldSchema columnName with
              | None => [addColumn tableName columnName definition]
              | Some _ => []
              end) newSchema.

(* Find removed columns *)
Definition removedColumns (tableName : string)
  (oldSchema newSchema : SchemaDefinition) : list MigrationOperation :=
  flat_map (fun columnName =>
              match dict_get newSchema columnName with
              | None => [dropColumn tableName columnName
                                    (dict_get oldSchema columnName)]
              | Some _ => []
              end) (dict_keys oldSchema).

(* Find altered columns with detailed comparison *)
Definition alteredColumns (tableName : string)
  (oldSchema newSchema : SchemaDefinition) : list MigrationOperation :=
  flat_map (fun entry : string * ColumnDefinition =>
              let (columnName, newDefinition) := entry in
              match dict_get oldSchema columnName with
              | Some oldDefinition =>
                  if hasColumnChanged oldDefinition newDefinition
                  then [alterColumn tableName columnName newDefinition
                          (Some oldDefinition)
                          (Some (determineAlterationType oldDefinition
                                                         newDefinition))]
                  else []
              | None => []
              end) newSchema.

Definition generateSchemaDiff (tableName : string)
  (oldSchema newSchema : SchemaDefinition) : list MigrationOperation :=
  newColumns tableName oldSchema newSchema
  ++ removedColumns tableName oldSchema newSchema
  ++ alteredColumns tableName oldSchema newSchema.

(** *** Replaying a diff (the reading of the round-trip law)

    These two functions are not in the source: they spell out the replay the
    specification describes, so that the round-trip law can be stated. *)

Definition replay_forward_op (s : SchemaDefinition) (op : MigrationOperation)
  : SchemaDefinition :=
  match op with
  | addColumn _ c d => dict_set s c d
  | dropColumn _ c _ => dict_delete s c
  | alterColumn _ c d _ _ => dict_set s c d
  | _ => s
  end.

Definition replay_forward (ops : list MigrationOperation)
  (s : SchemaDefinition) : SchemaDefinition :=
  fold_left replay_forward_op ops s.

Definition replay_reverse_op (s : SchemaDefinition) (op : MigrationOperation)
  : SchemaDefinition :=
  match op with
  | addColumn _ c _ => dict_delete s c
  | dropColumn _ c (Some od) => dict_set s c od
  | alterColumn _ c _ (Some od) _ => dict_set s c od
  | _ => s
  end.

Definition replay_reverse (ops : list MigrationOperation)
  (s : SchemaDefinition) : SchemaDefinition :=
  fold_left replay_reverse_op (rev ops) s.

(** Two optional definitions that agree up to their [comment]. *)
Definition same_modulo_comment (a b : option ColumnDefinition) : Prop :=
  match a, b with
  | Some x, Some y => normalized x = normalized y
  | None, None => True
  | _, _ => False
  end.

(** *** Migration text generator *)

Inductive Direction : Set := up | down.

(** [`${n}`] for an integer: its decimal digits, which is what the source
    prints for an integer of magnitude below 2^53 (above, it prints the
    digits of the nearest number it can hold, and from 10^21 on an
    exponent). *)
Definition Z_to_string (n : Z) : string :=
  NilEmpty.string_of_int (Z.to_int n).

(** Truthiness of an optional flag and of an optional number. *)
Definition truthy (b : option bool) : bool :=
  match b with
  | Some true => true
  | _ => false
  end.

Definition truthy_number (v : option Z) : option Z :=
  match v with
  | Some n => if n =? 0 then None else Some n
  | None => None
  end.

(** [hay.includes(needle)]. *)
Fixpoint includes (needle hay : string) : bool :=
  if String.prefix needle hay then true
  else match hay with
       | EmptyString => false
       | String _ rest => includes needle rest
       end.

(** [parts.join(sep)]. *)
Definition join (sep : string) (parts : list string) : string :=
  String.concat sep parts.

Definition hex_digit (n : nat) : ascii :=
  match n with
  | 0%nat => "0" | 1%nat => "1" | 2%nat => "2" | 3%nat => "3"
  | 4%nat => "4" | 5%nat => "5" | 6%nat => "6" | 7%nat => "7"
  | 8%nat => "8" | 9%nat => "9" | 10%nat => "a" | 11%nat => "b"
  | 12%nat => "c" | 13%nat => "d" | 14%nat => "e" | _ => "f"
  end%char.

(** [JSON.stringify] of a string: quoted, with the escapes of the standard. *)
Fixpoint json_escape (s : string) : string :=
  match s with
  | EmptyString => EmptyString
  | String c rest =>
      let n := nat_of_ascii c in
      let escaped :=
        if Nat.eqb n 34 then String "\"%char (String "034"%char "")
        else if Nat.eqb n 92 then String "\"%char (String "\"%char "")
        else if Nat.eqb n 8 then String "\"%char "b"
        else if Nat.eqb n 9 then String "\"%char "t"
        else if Nat.eqb n 10 then String "\"%char "n"
        else if Nat.eqb n 12 then String "\"%char "f"
        else if Nat.eqb n 13 then String "\"%char "r"
        else if Nat.ltb n 32
             then String "\"%char
                    ("u00" ++ String (hex_digit (Nat.div n 16))
                                (String (hex_digit (Nat.modulo n 16)) ""))
             else String c "" in
      escaped ++ json_escape rest
  end.

Definition json_string (s : string) : string :=
  String "034"%char (json_escape s ++ String "034"%char "").

(** [JSON.stringify(v || '')] for an optional default value. *)
Definition json_default_or_empty (v : option JsPrim) : string :=
  match v with
  | Some (PStr s) => json_string s
  | Some (PNum n) => if n =? 0 then json_string "" else Z_to_string n
  | Some (PBool true) => "true"
  | Some (PBool false) | None => json_string ""
  end.

Definition generateColumnBuilder (columnName : string)
  (definition : ColumnDefinition) (indent : string) (isAlter : bool)
  : string :=
  let simple (method : string) :=
    "table." ++ method ++ "('" ++ columnName ++ "')" in
  (* Generate base column type *)
  let builder :=
    match type definition with
    | Tincrements => simple "increments"
    | TbigIncrements => simple "bigIncrements"
    | Tinteger => simple "integer"
    | TbigInteger => simple "bigInteger"
    | Tstring =>
        match truthy_number (maxLength definition) with
        | Some maxLength =>
            "table.string('" ++ columnName ++ "', "
              ++ Z_to_string maxLength ++ ")"
        | None => simple "string"
        end
    | Ttext => simple "text"
    | Tboolean => simple "boolean"
    | Tdate => simple "date"
    | Tdatetime => simple "datetime"
    | Ttimestamp => simple "timestamp"
    | Ttime => simple "time"
    | Tfloat => simple "float"
    | Tdouble => simple "double"
    | Tdecimal =>
        match truthy_number (precision definition),
              truthy_number (scale definition) with
        | Some precision, Some scale =>
            "table.decimal('" ++ columnName ++ "', "
              ++ Z_to_string precision ++ ", " ++ Z_to_string scale ++ ")"
        | _, _ => simple "decimal"
        end
    | Tbinary => simple "binary"
    | Tjson => simple "json"
    | Tjsonb => simple "jsonb"
    | Tuuid => simple "uuid"
    | Tenum =>
        match values definition with
        | Some values =>
            let valuesStr :=
              join ", " (map (fun v => "'" ++ v ++ "'") values) in
            "table.enum('" ++ columnName ++ "', [" ++ valuesStr ++ "])"
        | None => simple "string" ++ " // TODO: Define enum values"
        end
    end in
  (* Add modifiers *)
  let builder :=
    if truthy (primary definition)
       && negb (match type definition with
                | Tincrements | TbigIncrements => true
                | _ => false
                end)
    then builder ++ ".primary()" else builder in
  let builder :=
    if truthy (unique definition) then builder ++ ".unique()" else builder in
  let builder :=
    if truthy (nullable definition) then builder ++ ".nullable()"
    else if truthy (required definition)
            || match nullable definition with
               | Some false => true
               | _ => false
               end
         then builder ++ ".notNullable()"
         else builder in
  let builder :=
    match defaultTo definition with
    | Some (PStr s) =>
        if String.eqb s "now" then builder ++ ".defaultTo(knex.fn.now())"
        else builder ++ ".defaultTo('" ++ s ++ "')"
    | Some (PNum n) => builder ++ ".defaultTo(" ++ Z_to_string n ++ ")"
    | Some (PBool b) =>
        builder ++ ".defaultTo(" ++ (if b then "true" else "false") ++ ")"
    | None => builder
    end in
  let builder :=
    if truthy (index definition) then builder ++ ".index()" else builder in
  (* Add .alter() for column alterations *)
  let builder := if isAlter then builder ++ ".alter()" else builder in
  indent ++ builder.

(** [await knex.schema.alterTable('t', (table) => { body })]. *)
Definition alterTableBlock (tableName body : string) : string :=
  "await knex.schema.alterTable('" ++ tableName ++ "', (table) => {" ++ nl
    ++ "    " ++ body ++ nl ++ "  })".

Definition generateRawAlterOperation (tableName columnName : string)
  (oldDef newDef : ColumnDefinition) : string :=
  (* Handle unique constraint changes *)
  let uniqueOps :=
    if strict_ne (option_eq_dec bool_dec) (unique oldDef) (unique newDef)
    then if truthy (unique newDef)
         then [ alterTableBlock tableName
                  ("table.unique(['" ++ columnName ++ "'])") ]
         else [ "await knex.raw('ALTER TABLE " ++ tableName
                  ++ " DROP CONSTRAINT IF EXISTS " ++ tableName ++ "_"
                  ++ columnName ++ "_unique')" ]
    else [] in
  (* Handle NOT NULL constraint changes *)
  let nullOps :=
    match nullable oldDef, nullable newDef with
    | Some true, Some false =>
        [ "// WARNING: Adding NOT NULL constraint - ensure no NULL values exist"
            ++ nl ++ "  await knex.raw('UPDATE " ++ tableName ++ " SET "
            ++ columnName ++ " = ? WHERE " ++ columnName ++ " IS NULL', ["
            ++ json_default_or_empty (defaultTo newDef) ++ "])";
          "await knex.raw('ALTER TABLE " ++ tableName ++ " ALTER COLUMN "
            ++ columnName ++ " SET NOT NULL')" ]
    | Some false, Some true =>
        [ "await knex.raw('ALTER TABLE " ++ tableName ++ " ALTER COLUMN "
            ++ columnName ++ " DROP NOT NULL')" ]
    | _, _ => []
    end in
  (* Handle enum value changes *)
  let enumOps :=
    match values oldDef, values newDef with
    | Some oldValues, Some newValues =>
        if strict_ne (list_eq_dec string_dec) oldValues newValues
        then [ "// WARNING: Changing enum values - ensure data compatibility"
                 ++ nl ++ "  await knex.raw('ALTER TABLE " ++ tableName
                 ++ " ALTER COLUMN " ++ columnName ++ " TYPE varchar(255)')";
               "await knex.raw('ALTER TABLE " ++ tableName ++ " ALTER COLUMN "
                 ++ columnName ++ " TYPE " ++ tableName ++ "_" ++ columnName
                 ++ "_enum USING " ++ columnName ++ "::" ++ tableName ++ "_"
                 ++ columnName ++ "_enum')" ]
        else []
    | _, _ => []
    end in
  let operations := (uniqueOps ++ nullOps ++ enumOps)%list in
  let operations :=
    match operations with
    | [] => [ "// No RAW operations needed for this change" ]
    | _ => operations
    end in
  join (nl ++ "  ") operations.

(** The [type] tag of an operation, and its [tableName]. *)
Definition operationType (op : MigrationOperation) : string :=
  match op with
  | createTable _ _ => "createTable"
  | dropTable _ => "dropTable"
  | addColumn _ _ _ => "addColumn"
  | dropColumn _ _ _ => "dropColumn"
  | alterColumn _ _ _ _ _ => "alterColumn"
  end.

Definition tableName_of (op : MigrationOperation) : string :=
  match op with
  | createTable t _ | dropTable t | addColumn t _ _ | dropColumn t _ _
  | alterColumn t _ _ _ _ => t
  end.

(** [generateMigrationOperation]; [None] is the [TypeError] thrown when a
    [raw] alteration without [oldDefinition] is rendered upwards
    ([oldDef!.unique] on [undefined]). *)
Definition generateMigrationOperation (operation : MigrationOperation)
  (direction : Direction) : option string :=
  match operation with
  | addColumn tableName columnName definition =>
      match direction with
      | up => Some (alterTableBlock tableName
                      (generateColumnBuilder columnName definition "    " false))
      | down => Some (alterTableBlock tableName
                        ("table.dropColumn('" ++ columnName ++ "')"))
      end
  | dropColumn tableName columnName oldDefinition =>
      match direction with
      | up => Some (alterTableBlock tableName
                      ("table.dropColumn('" ++ columnName ++ "')"))
      | down =>
          match oldDefinition with
          | Some oldDef =>
              Some (alterTableBlock tableName
                      (generateColumnBuilder columnName oldDef "    " false))
          | None =>
              Some ("// TODO: Add back column '" ++ columnName
                      ++ "' with proper definition")
          end
      end
  | alterColumn tableName columnName definition oldDefinition alterationType =>
      let alterType :=
        match alterationType with
        | Some a => a
        | None => alter
        end in
      match direction with
      | up =>
          match alterType with
          | alter =>
              Some (alterTableBlock tableName
                      (generateColumnBuilder columnName definition "    " true))
          | raw =>
              match oldDefinition with
              | Some oldDef =>
                  Some (generateRawAlterOperation tableName columnName
                                                  oldDef definition)
              | None => None
              end
          | recreate =>
              Some ("// WARNING: This operation may cause data loss - consider manual migration"
                      ++ nl ++ "  "
                      ++ alterTableBlock tableName
                           ("table.dropColumn('" ++ columnName ++ "')")
                      ++ nl ++ "  "
                      ++ alterTableBlock tableName
                           (generateColumnBuilder columnName definition
                                                  "    " false))
          end
      | down =>
          match oldDefinition with
          | Some oldDef =>
              match alterType with
              | alter =>
                  Some (alterTableBlock tableName
                          (generateColumnBuilder columnName oldDef "    " true))
              | raw =>
                  Some (generateRawAlterOperation tableName columnName
                                                  definition oldDef)
              | recreate =>
                  Some (alterTableBlock tableName
                          (generateColumnBuilder columnName oldDef "    " true))
              end
          | None =>
              Some ("// TODO: Reverse alteration for column '" ++ columnName
                      ++ "'")
          end
      end
  | _ => Some ("// Unknown operation: " ++ operationType operation)
  end.

(** The test [canGroupOperations] applies to every operation. *)
Definition groupable (op : MigrationOperation) : bool :=
  match op with
  | addColumn _ _ _ | dropColumn _ _ _ => true
  | alterColumn _ _ _ _ alterationType =>
      match alterationType with
      | Some alter | None => true
      | Some _ => false
      end
  | _ => false
  end.

Definition canGroupOperations (operations : list MigrationOperation) : bool :=
  forallb groupable operations.

Record TableGroup : Set := mkTableGroup {
  group_tableName  : string;
  group_operations : list MigrationOperation;
  canGroup         : bool
}.

(** The body of the loop that fills the [Map] from table name to
    operations. *)
Definition pushOperation
  (tableGroups : list (string * list MigrationOperation))
  (operation : MigrationOperation)
  : list (string * list MigrationOperation) :=
  let tableName := tableName_of operation in
  let tableGroups :=
    match dict_get tableGroups tableName with
    | Some _ => tableGroups
    | None => dict_set tableGroups tableName []
    end in
  match dict_get tableGroups tableName with
  | Some ops => dict_set tableGroups tableName (ops ++ [operation])%list
  | None => tableGroups
  end.

(** The [Map], in order of first appearance of each table. *)
Definition tableGroups_of (operations : list MigrationOperation)
  : list (string * list MigrationOperation) :=
  fold_left pushOperation operations [].

(** The operations of a list that are about table [t]. *)
Definition on_table (t : string) (operations : list MigrationOperation)
  : list MigrationOperation :=
  filter (fun op => String.eqb (tableName_of op) t) operations.

Definition groupOperationsByTable (operations : list MigrationOperation)
  : list TableGroup :=
  map (fun entry : string * list MigrationOperation =>
         let (tableName, ops) := entry in
         mkTableGroup tableName ops (canGroupOperations ops))
      (tableGroups_of operations).

(** The line a grouped [alterTable] holds for one operation. *)
Definition groupedColumnOperation (direction : Direction)
  (op : MigrationOperation) : string :=
  match op with
  | addColumn _ columnName definition =>
      match direction with
      | up => generateColumnBuilder columnName definition "    " false
      | down => "table.dropColumn('" ++ columnName ++ "')"
      end
  | dropColumn _ columnName oldDefinition =>
      match direction with
      | up => "table.dropColumn('" ++ columnName ++ "')"
      | down =>
          match oldDefinition with
          | Some oldDef => generateColumnBuilder columnName oldDef "    " false
          | None => "// TODO: Add back column '" ++ columnName
                      ++ "' with proper definition"
          end
      end
  | alterColumn _ columnName definition oldDefinition _ =>
      match direction with
      | up => generateColumnBuilder columnName definition "    " true
      | down =>
          match oldDefinition with
          | Some oldDef => generateColumnBuilder columnName oldDef "    " true
          | None => "// TODO: Reverse alteration for column '" ++ columnName
                      ++ "'"
          end
      end
  | _ => "// Unknown operation: " ++ operationType op
  end.

(** [columnOperations] of [generateGroupedAlterTable]: the lines, with the
    incomplete ones filtered out. *)
Definition columnOperations (operations : list MigrationOperation)
  (direction : Direction) : list string :=
  filter (fun op => negb (includes "// TODO:" op))
         (map (groupedColumnOperation direction) operations).

Definition generateGroupedAlterTable (tableName : string)
  (operations : list MigrationOperation) (direction : Direction) : string :=
  match columnOperations operations direction with
  | [] => "// No valid operations for table '" ++ tableName ++ "'"
  | lines => alterTableBlock tableName (join (nl ++ "    ") lines)
  end.

(** [xs.map(f)] where [f] may throw. *)
Fixpoint traverse {A B : Type} (f : A -> option B) (l : list A)
  : option (list B) :=
  match l with
  | [] => Some []
  | x :: rest =>
      match f x with
      | Some y =>
          match traverse f rest with
          | Some ys => Some (y :: ys)
          | None => None
          end
      | None => None
      end
  end.

(** A group is emitted as one batch under this test of
    [generateAlterTableMigration]. *)
Definition batched (group : TableGroup) : bool :=
  canGroup group && (1 <? Z.of_nat (List.length (group_operations group))).

(** What one table group pushes onto [upOperations] / [downOperations]. *)
Definition emitGroup (direction : Direction) (group : TableGroup)
  : option (list string) :=
  let ops :=
    match direction with
    | up => group_operations group
    | down => rev (group_operations group)
    end in
  if batched group
  then Some [ generateGroupedAlterTable (group_tableName group) ops direction ]
  else traverse (fun op => generateMigrationOperation op direction) ops.

Definition emitGroups (direction : Direction) (groups : list TableGroup)
  : option (list string) :=
  option_map (@List.concat string) (traverse (emitGroup direction) groups).

Definition upOperations (operations : list MigrationOperation)
  : option (list string) :=
  emitGroups up (groupOperationsByTable operations).

Definition downOperations (operations : list MigrationOperation)
  : option (list string) :=
  emitGroups down (rev (groupOperationsByTable operations)).

Definition migrationFileText (upBody downBody : string) : string :=
  "import { Knex } from 'knex'" ++ nl ++ nl
    ++ "export async function up(knex: Knex): Promise<void> {" ++ nl
    ++ "  " ++ upBody ++ nl ++ "}" ++ nl ++ nl
    ++ "export async function down(knex: Knex): Promise<void> {" ++ nl
    ++ "  " ++ downBody ++ nl ++ "}" ++ nl.

Definition generateAlterTableMigration (operations : list MigrationOperation)
  (migrationName : string) : option string :=
  match operations with
  | [] => Some (migrationFileText "// No operations to perform"
                                  "// No operations to reverse")
  | _ =>
      match upOperations operations with
      | Some ups =>
          match downOperations operations with
          | Some downs =>
              Some (migrationFileText (join (nl ++ nl ++ "  ") ups)
                                      (join (nl ++ nl ++ "  ") downs))
          | None => None
          end
      | None => None
      end
  end.

(** The column an operation is about. *)
Definition columnName_of (op : MigrationOperation) : option string :=
  match op with
  | addColumn _ c _ | dropColumn _ c _ | alterColumn _ c _ _ _ => Some c
  | _ => None
  end.

(** A later snapshot of the same table: [id] kept, [name] widened,
    [status] dropped, [email] added. *)
Definition accounts_schema : SchemaDefinition :=
  [ ("id", with_unique None (column Tincrements));
    ("name", with_maxLength (Some 500) (column Tstring));
    ("email", with_unique (Some true) (column Tstring)) ].

(** The operations one composite [alterTable] may hold, and the ones that
    need an instruction of their own. *)
Definition batchable (op : MigrationOperation) : Prop :=
  match op with
  | addColumn _ _ _ | dropColumn _ _ _ => True
  | alterColumn _ _ _ _ (Some alter) | alterColumn _ _ _ _ None => True
  | _ => False
  end.

Definition raw_or_recreate (op : MigrationOperation) : Prop :=
  match op with
  | alterColumn _ _ _ _ (Some raw) | alterColumn _ _ _ _ (Some recreate) => True
  | _ => False
  end.

(** A drop or an alteration that did not retain the old definition. *)
Definition lacks_oldDefinition (op : MigrationOperation) : Prop :=
  match op with
  | dropColumn _ _ None | alterColumn _ _ _ None _ => True
  | _ => False
  end.

(** An operation that can be reversed: it retained the old definition. *)
Definition carries_old (op : MigrationOperation) : Prop :=
  match op with
  | dropColumn _ _ None | alterColumn _ _ _ None _ => False
  | _ => True
  end.

(** Operations used to exercise the statements below. *)
Definition mixed_operations : list MigrationOperation :=
  [ addColumn "users" "phone" (with_maxLength (Some 20) (column Tstring));
    addColumn "users" "bio" (column Ttext);
    alterColumn "users" "email"
      (with_unique (Some true) (column Ttext))
      (Some (column Ttext)) (Some raw) ].

Definition unretained_operations : list MigrationOperation :=
  [ addColumn "users" "phone" (with_maxLength (Some 20) (column Tstring));
    dropColumn "users" "legacy" None ].

(** A schema used to exercise the statements below. *)
Definition users_schema : SchemaDefinition :=
  [ ("id", with_unique None (column Tincrements));
    ("name", with_maxLength (Some 255) (column Tstring));
    ("status", mkColumn Tenum None None None None None None None
                 (Some "lifecycle") None None None
                 (Some ["pending"; "active"])) ].

End MigrationGenerator.

(** ** Migration aggregator ([src/MigrationParser.ts]) *)

Module MigrationParser.

Inductive AlterOperationType : Set := addColumn | dropColumn | modifyColumn.

Record AlterOperation : Set := mkAlterOperation {
  type       : AlterOperationType;
  columnName : string;
  definition : option ColumnDefinition
}.

Inductive Operation : Set := create | alter | drop.

Record ParsedMigration : Set := mkParsedMigration {
  tableName       : string;
  columns         : list (string * ColumnDefinition);
  operation       : Operation;
  migrationFile   : string;
  alterOperations : option (list AlterOperation)
}.

Section Merge.
(** [String.prototype.localeCompare]: negative, zero or positive.  The
    collation is the host's; it is a parameter here. *)
Variable localeCompare : string -> string -> Z.

(** [migrations.sort((a, b) => a.migrationFile.localeCompare(b.migrationFile))].
    [Array.prototype.sort] is stable; for a consistent comparator its result
    is the stable insertion sort below. *)
Fixpoint sort_insert (m : ParsedMigration) (sorted : list ParsedMigration)
  : list ParsedMigration :=
  match sorted with
  | [] => [m]
  | x :: rest =>
      if localeCompare (migrationFile m) (migrationFile x) <=? 0
      then m :: x :: rest
      else x :: sort_insert m rest
  end.

Definition sort (migrations : list ParsedMigration) : list ParsedMigration :=
  fold_right sort_insert [] migrations.

(** Ascending order of file names under the comparator. *)
Definition file_le (a b : ParsedMigration) : Prop :=
  localeCompare (migrationFile a) (migrationFile b) <= 0.

(** The body of the loop over [migration.alterOperations]. *)
Definition applyAlterOperation (mergedColumns : list (string * ColumnDefinition))
  (operation : AlterOperation) : list (string * ColumnDefinition) :=
  match type operation with
  | addColumn =>
      match definition operation with
      | Some d => obj_set mergedColumns (columnName operation) d
      | None => mergedColumns
      end
  | dropColumn => dict_delete mergedColumns (columnName operation)
  | modifyColumn =>
      match definition operation with
      | Some d => obj_set mergedColumns (columnName operation) d
      | None => mergedColumns
      end
  end.

(** The body of the loop over [sortedMigrations]. *)
Definition replayMigration (mergedColumns : list (string * ColumnDefinition))
  (migration : ParsedMigration) : list (string * ColumnDefinition) :=
  match operation migration with
  | create => dict_assign mergedColumns (columns migration)
  | alter =>
      match alterOperations migration with
      | Some operations => fold_left applyAlterOperation operations mergedColumns
      | None => mergedColumns
      end
  | drop => mergedColumns
  end.

Definition mergeTableMigrations (migrations : list ParsedMigration)
  : list (string * ColumnDefinition) :=
  let sortedMigrations := sort migrations in
  fold_left replayMigration sortedMigrations [].
End Merge.

(** Comparison by code units, one consistent comparator; file names that
    start with a timestamp are ordered by it as by any collation. *)
Definition codeUnitCompare (a b : string) : Z :=
  match String.compare a b with
  | Lt => -1
  | Eq => 0
  | Gt => 1
  end.

Definition create_users : ParsedMigration :=
  mkParsedMigration "users"
    [ ("id", column Tincrements);
      ("name", with_maxLength (Some 255) (column Tstring)) ]
    create "20240101_create_users.js" None.

Definition alter_users : ParsedMigration :=
  mkParsedMigration "users" [] alter "20240301_alter_users.js"
    (Some [ mkAlterOperation addColumn "name"
              (Some (with_maxLength (Some 500) (column Tstring)));
            mkAlterOperation dropColumn "legacy" None;
            mkAlterOperation addColumn "email" (Some (column Tstring)) ]).

End MigrationParser.

(** ** Call extractor ([src/MigrationParser.ts])

    The extractor is three regular expressions run by the host's
    backtracking matcher.  The expressions are kept as syntax and run by a
    matcher with the same search order: leftmost start, alternatives left
    to right, greedy repetitions longest first, lazy ones shortest first.
    Source text is a string of code units below 256. *)

Module Regex.

Inductive regex : Type :=
| Lit (text : string)                    (* literal characters *)
| Chr (class : ascii -> bool)            (* one character of a class *)
| Star (greedy : bool) (class : ascii -> bool)   (* [c*] and [c*?] *)
| Plus (class : ascii -> bool)           (* [c+] *)
| Alt (r1 r2 : regex)                    (* [r1|r2] *)
| Seq (r1 r2 : regex)
| Group (n : nat) (r : regex)            (* the n-th capturing group *)
| Lookahead (r : regex)                  (* [(?=r)] *)
| EndOfLine.                             (* [$] under the [m] flag *)

Definition captures : Set := list (nat * string).

Fixpoint capture (n : nat) (caps : captures) : option string :=
  match caps with
  | [] => None
  | (m, text) :: rest => if Nat.eqb m n then Some text else capture n rest
  end.

(** [s] without its prefix [p], when it has it. *)
Fixpoint strip_prefix (p s : string) : option string :=
  match p, s with
  | EmptyString, _ => Some s
  | String a p', String b s' =>
      if Ascii.eqb a b then strip_prefix p' s' else None
  | String _ _, EmptyString => None
  end.

(** The text matched between the position [from] and the later position
    [to], both given by what remains of the input. *)
Definition consumed (from to : string) : string :=
  substring 0 (String.length from - String.length to) from.

Section Matcher.
Context {R : Type}.

Fixpoint star_greedy (class : ascii -> bool) (s : string)
  (k : string -> option R) : option R :=
  match s with
  | String c rest =>
      if class c
      then match star_greedy class rest k with
           | Some res => Some res
           | None => k s
           end
      else k s
  | EmptyString => k s
  end.

Fixpoint star_lazy (class : ascii -> bool) (s : string)
  (k : string -> option R) : option R :=
  match k s with
  | Some res => Some res
  | None =>
      match s with
      | String c rest => if class c then star_lazy class rest k else None
      | EmptyString => None
      end
  end.
End Matcher.

(** [$] under the [m] flag: at the end of the input or before a line
    terminator. *)
Definition at_line_end (s : string) : bool :=
  match s with
  | EmptyString => true
  | String c _ => Nat.eqb (nat_of_ascii c) 10 || Nat.eqb (nat_of_ascii c) 13
  end.

(** The matcher, in continuation-passing style: [k] is what is left of the
    pattern, and a failing [k] makes the matcher try its next choice. *)
Fixpoint rmatch (r : regex) (s : string) (caps : captures)
  (k : string -> captures -> option (string * captures))
  : option (string * captures) :=
  match r with
  | Lit text =>
      match strip_prefix text s with
      | Some rest => k rest caps
      | None => None
      end
  | Chr class =>
      match s with
      | String c rest => if class c then k rest caps else None
      | EmptyString => None
      end
  | Star true class => star_greedy class s (fun rest => k rest caps)
  | Star false class => star_lazy class s (fun rest => k rest caps)
  | Plus class =>
      match s with
      | String c rest =>
          if class c then star_greedy class rest (fun rest' => k rest' caps)
          else None
      | EmptyString => None
      end
  | Alt r1 r2 =>
      match rmatch r1 s caps k with
      | Some res => Some res
      | None => rmatch r2 s caps k
      end
  | Seq r1 r2 => rmatch r1 s caps (fun s' caps' => rmatch r2 s' caps' k)
  | Group n r' =>
      rmatch r' s caps (fun s' caps' => k s' ((n, consumed s s') :: caps'))
  | Lookahead r' =>
      match rmatch r' s caps (fun s' caps' => Some (s', caps')) with
      | Some _ => k s caps
      | None => None
      end
  | EndOfLine => if at_line_end s then k s caps else None
  end.

(** The continuation of a whole pattern: the match is complete. *)
Definition finish (rest : string) (caps : captures)
  : option (string * captures) := Some (rest, caps).

(** A match that starts at [s]: what remains after it, and its groups. *)
Definition match_here (r : regex) (s : string) : option (string * captures) :=
  rmatch r s [] finish.

(** [text.match(r)] without the [g] flag: the leftmost match. *)
Fixpoint match_first (r : regex) (s : string) : option captures :=
  match match_here r s with
  | Some (_, caps) => Some caps
  | None =>
      match s with
      | String _ rest => match_first r rest
      | EmptyString => None
      end
  end.

(** The loop [while ((match = r.exec(text)) !== null)] under the [g] flag:
    every match, each search resuming where the previous match ended.
    [skip] counts the positions still inside the previous match.  (After
    an empty match the source loop would not move on; the expressions
    below have no empty match.) *)
Fixpoint exec_all (r : regex) (s : string) (skip : nat) : list captures :=
  match skip with
  | S skip' =>
      match s with
      | String _ rest => exec_all r rest skip'
      | EmptyString => []
      end
  | O =>
      match match_here r s with
      | Some (rest, caps) =>
          caps :: match s with
                  | String _ s' =>
                      exec_all r s'
                        (String.length s - String.length rest - 1)
                  | EmptyString => []
                  end
      | None =>
          match s with
          | String _ s' => exec_all r s' 0
          | EmptyString => []
          end
      end
  end.

(** *** Character classes *)

Definition code (c : ascii) : nat := nat_of_ascii c.

Definition between (lo hi : nat) (c : ascii) : bool :=
  Nat.leb lo (code c) && Nat.leb (code c) hi.

(** [\s] *)
Definition space (c : ascii) : bool :=
  between 9 13 c || Nat.eqb (code c) 32 || Nat.eqb (code c) 160.

(** [[\s\S]] *)
Definition any (c : ascii) : bool := true.

(** [[a-zA-Z_$]] and [[a-zA-Z0-9_$]] *)
Definition ident_start (c : ascii) : bool :=
  between 97 122 c || between 65 90 c
  || Nat.eqb (code c) 95 || Nat.eqb (code c) 36.

Definition ident_part (c : ascii) : bool :=
  ident_start c || between 48 57 c.

(** The class of the three quote characters (single, double, backquote)
    and its complement. *)
Definition quote (c : ascii) : bool :=
  Nat.eqb (code c) 39 || Nat.eqb (code c) 34 || Nat.eqb (code c) 96.

Definition not_quote (c : ascii) : bool := negb (quote c).

(** [[^{]] *)
Definition not_open_brace (c : ascii) : bool := negb (Nat.eqb (code c) 123).

End Regex.

Module CallExtractor.
Import Regex.

Declare Scope regex_scope.
Delimit Scope regex_scope with re.
Infix ";;" := Seq (at level 61, right associativity) : regex_scope.
Local Open Scope regex_scope.

(** [\s*] *)
Definition ws : regex := Star true space.

(** [/exports\.up\s*=\s*function[^{]*\{([\s\S]*?)\}\s*(?=exports\.down|$)/m] *)
Definition upFunctionRegex : regex :=
  Lit "exports.up" ;; ws ;; Lit "=" ;; ws ;; Lit "function"
  ;; Star true not_open_brace ;; Lit "{"
  ;; Group 1 (Star false any)
  ;; Lit "}" ;; ws ;; Lookahead (Alt (Lit "exports.down") EndOfLine).

(** How the expression ends: [\}\s*\)]. *)
Definition closer : regex := Lit "}" ;; ws ;; Lit ")".

(** What follows the callback's opening brace:
    [([\s\S]*?)\}\s*\)]. *)
Definition callbackBody : regex := Group 2 (Star false any) ;; closer.

(** The expression of the three extractors,
    [/(?:knex|IDENT)\.schema\.METHOD\s*\(\s*Q([^Q]+)Q\s*,\s*function\s*\(\s*IDENT\s*\)\s*\{([\s\S]*?)\}\s*\)/g],
    where METHOD is [createTable], [alterTable] or [createView], IDENT is
    [[a-zA-Z_$][a-zA-Z0-9_$]*] and Q is the class of the three quote
    characters.  [callHead] is its part before the opening brace. *)
Definition callHead (method : string) : regex :=
  Alt (Lit "knex") (Chr ident_start ;; Star true ident_part)
  ;; Lit ".schema." ;; Lit method ;; ws ;; Lit "(" ;; ws
  ;; Chr quote ;; Group 1 (Plus not_quote) ;; Chr quote
  ;; ws ;; Lit "," ;; ws ;; Lit "function" ;; ws ;; Lit "(" ;; ws
  ;; Chr ident_start ;; Star true ident_part ;; ws ;; Lit ")" ;; ws.

Definition builderCallRegex (method : string) : regex :=
  callHead method ;; Lit "{" ;; callbackBody.

(** [upFunctionMatch[1]], when [content.match] found the function. *)
Definition upContent (content : string) : option string :=
  match match_first upFunctionRegex content with
  | Some caps =>
      match capture 1 caps with
      | Some text => Some text
      | None => None
      end
  | None => None
  end.

Record TableMatch : Set := mkTableMatch {
  tableName  : string;
  definition : string
}.

Record ParsedView : Set := mkParsedView {
  viewName      : string;
  migrationFile : string;
  query         : option string
}.

Definition group_text (n : nat) (caps : captures) : string :=
  match capture n caps with
  | Some text => text
  | None => EmptyString
  end.

(** The invocations of one builder method inside the [exports.up] body. *)
Definition builderCalls (method content : string) : list captures :=
  match upContent content with
  | Some body => exec_all (builderCallRegex method) body 0
  | None => []
  end.

Definition extractCreateTableOperations (content : string) : list TableMatch :=
  map (fun caps => mkTableMatch (group_text 1 caps) (group_text 2 caps))
      (builderCalls "createTable" content).

Definition extractAlterTableOperations (content : string) : list TableMatch :=
  map (fun caps => mkTableMatch (group_text 1 caps) (group_text 2 caps))
      (builderCalls "alterTable" content).

Definition extractViewOperations (content migrationFile : string)
  : list ParsedView :=
  map (fun caps => mkParsedView (group_text 1 caps) migrationFile
                                (capture 2 caps))
      (builderCalls "createView" content).

(** Every character of [s] is in the class. *)
Fixpoint all_chars (class : ascii -> bool) (s : string) : bool :=
  match s with
  | EmptyString => true
  | String c rest => class c && all_chars class rest
  end.

(** The text starts with a closing brace, optional blanks and a closing
    parenthesis: where the expression lets a callback body end. *)
Definition closes_call (s : string) : Prop :=
  exists blanks rest,
    s = "}" ++ blanks ++ ")" ++ rest /\ all_chars space blanks = true.

(** Balanced-brace counting, as the specification describes it: the text
    up to the closing brace that matches an opening brace already read,
    [depth] braces being open inside it. *)
Fixpoint matching_brace (depth : nat) (s : string) : option string :=
  match s with
  | EmptyString => None
  | String c rest =>
      if Ascii.eqb c "{"
      then option_map (String c) (matching_brace (S depth) rest)
      else if Ascii.eqb c "}"
           then match depth with
                | O => Some EmptyString
                | S depth' => option_map (String c) (matching_brace depth' rest)
                end
           else option_map (String c) (matching_brace depth rest)
  end.

(** An identifier, [[a-zA-Z_$][a-zA-Z0-9_$]*]. *)
Definition is_ident (s : string) : bool :=
  match s with
  | String c rest => ident_start c && all_chars ident_part rest
  | EmptyString => false
  end.

(** [head] is an invocation of the builder method [method] on the table
    (or view) [name], up to the opening brace of its callback: an
    identifier, [.schema.], the method, the quoted name, a comma and
    [function (param)], with optional blanks where the expression has
    [\s*]. *)
Definition call_head (method name head : string) : Prop :=
  exists caller param q1 q2 b1 b2 b3 b4 b5 b6 b7 b8,
    head = caller ++ ".schema." ++ method ++ b1 ++ "(" ++ b2
           ++ String q1 "" ++ name ++ String q2 "" ++ b3 ++ "," ++ b4
           ++ "function" ++ b5 ++ "(" ++ b6 ++ param ++ b7 ++ ")" ++ b8
    /\ is_ident caller = true /\ is_ident param = true
    /\ quote q1 = true /\ quote q2 = true
    /\ name <> "" /\ all_chars not_quote name = true
    /\ Forall (fun blanks => all_chars space blanks = true)
              [b1; b2; b3; b4; b5; b6; b7; b8].

(** [after] is the first place behind the start of [body] where a call
    can close. *)
Definition first_close (body after : string) : Prop :=
  closes_call after
  /\ forall p1 p2, body = p1 ++ p2 -> p2 <> "" -> ~ closes_call (p2 ++ after).

(** The text [upText] holds an invocation of [method] on [name] whose
    callback opens with a brace directly followed by [body], and [body]
    stops at the first place where a call can close. *)
Definition found_call (method upText name body : string) : Prop :=
  exists before head after,
    upText = before ++ head ++ "{" ++ body ++ after
    /\ call_head method name head
    /\ first_close body after.

(** An invocation of [method] with a callback that closes somewhere
    starts at the first character of [s]. *)
Definition starts_call (method s : string) : Prop :=
  exists head name body after,
    s = head ++ "{" ++ body ++ after
    /\ call_head method name head /\ closes_call after.

(** The leftmost invocation of [method] in [text] is on [name], its
    callback body is [body], and [rest] is the text behind its closing
    parenthesis. *)
Definition first_call (method text name body rest : string) : Prop :=
  exists before head blanks,
    text = before ++ head ++ "{" ++ body ++ "}" ++ blanks ++ ")" ++ rest
    /\ call_head method name head
    /\ all_chars space blanks = true
    /\ first_close body ("}" ++ blanks ++ ")" ++ rest)
    /\ forall p1 p2, before = p1 ++ p2 -> p2 <> "" ->
         ~ starts_call method
             (p2 ++ head ++ "{" ++ body ++ "}" ++ blanks ++ ")" ++ rest).

(** The invocations of [method] in [text], from left to right, each one
    searched behind the closing parenthesis of the one before: their names
    and callback bodies. *)
Inductive calls_of (method : string)
  : string -> list (string * string) -> Prop :=
| no_call text :
    (forall p1 p2, text = p1 ++ p2 -> ~ starts_call method p2) ->
    calls_of method text []
| next_call text name body rest calls :
    first_call method text name body rest ->
    calls_of method rest calls ->
    calls_of method text ((name, body) :: calls).

(** [match[1]] and [match[2]]. *)
Definition call_of (caps : captures) : string * string :=
  (group_text 1 caps, group_text 2 caps).

(** A migration whose callback holds a nested pair of braces. *)
Definition nested_braces_source : string :=
  "exports.up = function(knex) {" ++ nl
  ++ "  return knex.schema.createTable('users', function(table) {" ++ nl
  ++ "    table.increments('id')" ++ nl
  ++ "    table.json('settings').defaultTo({})" ++ nl
  ++ "    table.string('name')" ++ nl
  ++ "  })" ++ nl
  ++ "}" ++ nl
  ++ "exports.down = function(knex) {" ++ nl
  ++ "  return knex.schema.dropTable('users')" ++ nl
  ++ "}" ++ nl.

(** Its [exports.up] text. *)
Definition nested_braces_up : string :=
  nl ++ "  return knex.schema.createTable('users', function(table) {" ++ nl
  ++ "    table.increments('id')" ++ nl
  ++ "    table.json('settings').defaultTo({})" ++ nl
  ++ "    table.string('name')" ++ nl
  ++ "  })" ++ nl.

End CallExtractor.

(** ** Column parser and normalizer ([src/MigrationParser.ts]) *)

Definition with_primary (p : option bool) (d : ColumnDefinition) :=
  mkColumn (type d) p (unique d) (nullable d) (required d) (defaultTo d)
           (onUpdate d) (index d) (comment d) (maxLength d) (precision d)
           (scale d) (values d).

Definition with_required (r : option bool) (d : ColumnDefinition) :=
  mkColumn (type d) (primary d) (unique d) (nullable d) r (defaultTo d)
           (onUpdate d) (index d) (comment d) (maxLength d) (precision d)
           (scale d) (values d).

Definition with_index (i : option bool) (d : ColumnDefinition) :=
  mkColumn (type d) (primary d) (unique d) (nullable d) (required d)
           (defaultTo d) (onUpdate d) i (comment d) (maxLength d)
           (precision d) (scale d) (values d).

Definition with_defaultTo (v : option JsPrim) (d : ColumnDefinition) :=
  mkColumn (type d) (primary d) (unique d) (nullable d) (required d) v
           (onUpdate d) (index d) (comment d) (maxLength d) (precision d)
           (scale d) (values d).

Definition with_onUpdate (v : option JsPrim) (d : ColumnDefinition) :=
  mkColumn (type d) (primary d) (unique d) (nullable d) (required d)
           (defaultTo d) v (index d) (comment d) (maxLength d) (precision d)
           (scale d) (values d).

Definition with_values (v : option (list string)) (d : ColumnDefinition) :=
  mkColumn (type d) (primary d) (unique d) (nullable d) (required d)
           (defaultTo d) (onUpdate d) (index d) (comment d) (maxLength d)
           (precision d) (scale d) v.

Definition with_type (t : ColumnType) (d : ColumnDefinition) :=
  mkColumn t (primary d) (unique d) (nullable d) (required d)
           (defaultTo d) (onUpdate d) (index d) (comment d) (maxLength d)
           (precision d) (scale d) (values d).

(** String methods of the host the parser relies on. *)
Module JsString.
Import Regex.

(** [s.split(c)] for a one-character separator. *)
Fixpoint split (sep : ascii) (s : string) : list string :=
  match s with
  | EmptyString => [EmptyString]
  | String c rest =>
      if Ascii.eqb c sep then EmptyString :: split sep rest
      else match split sep rest with
           | first :: others => String c first :: others
           | [] => [String c EmptyString]
           end
  end.

Fixpoint trim_start (s : string) : string :=
  match s with
  | String c rest => if space c then trim_start rest else s
  | EmptyString => EmptyString
  end.

Fixpoint trim_end (s : string) : string :=
  match s with
  | EmptyString => EmptyString
  | String c rest =>
      match trim_end rest with
      | EmptyString => if space c then EmptyString else String c EmptyString
      | kept => String c kept
      end
  end.

(** [s.trim()] *)
Definition trim (s : string) : string := trim_end (trim_start s).

(** [s.endsWith(c)] for one character. *)
Fixpoint ends_with (c : ascii) (s : string) : bool :=
  match s with
  | EmptyString => false
  | String a EmptyString => Ascii.eqb a c
  | String _ rest => ends_with c rest
  end.

(** [s.startsWith(p)] *)
Definition starts_with (p s : string) : bool := String.prefix p s.

Fixpoint drop_last (s : string) : string :=
  match s with
  | EmptyString => EmptyString
  | String _ EmptyString => EmptyString
  | String c rest => String c (drop_last rest)
  end.

(** [s.slice(1, -1)] *)
Definition slice_1_m1 (s : string) : string :=
  match s with
  | EmptyString => EmptyString
  | String _ rest => drop_last rest
  end.

(** The continuation of an expression that ends in [$] without the [m]
    flag: nothing may remain. *)
Definition at_end (rest : string) (caps : captures)
  : option (string * captures) :=
  match rest with
  | EmptyString => Some (rest, caps)
  | String _ _ => None
  end.

(** A match of the whole text: the expression between [^] and [$]. *)
Definition full_match (r : regex) (s : string) : bool :=
  match rmatch r s [] at_end with
  | Some _ => true
  | None => false
  end.

(** [\d], [\w], [.] and the complement of the closing parenthesis. *)
Definition digit (c : ascii) : bool := between 48 57 c.

Definition word (c : ascii) : bool :=
  between 97 122 c || between 65 90 c || between 48 57 c
  || Nat.eqb (code c) 95.

Definition dot (c : ascii) : bool :=
  negb (Nat.eqb (code c) 10 || Nat.eqb (code c) 13).

Definition not_close_paren (c : ascii) : bool := negb (Nat.eqb (code c) 41).

(** [/^\d+$/] *)
Definition is_digits (s : string) : bool := full_match (Plus digit) s.

(** The quoted literal: an opening quote, characters that are no quotes, a
    closing quote, and nothing else. *)
Definition is_quoted (s : string) : bool :=
  full_match (Seq (Chr quote) (Seq (Star true not_quote) (Chr quote))) s.

(** [parseInt(s, 10)] on a text of digits: each digit extends the value
    read so far.  This is the integer the text denotes, which is what the
    source returns below 2^53 (above, it returns the nearest number it can
    hold). *)
Definition digitValue (acc : Z) (c : ascii) : Z :=
  10 * acc + Z.of_nat (code c - 48).

Definition parseInt (s : string) : Z :=
  fold_left digitValue (list_ascii_of_string s) 0.

End JsString.

Module ParsedColumn.
Record t : Set := make {
  name       : string;
  type       : string;
  modifiers  : list string;
  parameters : list (string + Z)
}.
End ParsedColumn.

Module ColumnParser.
Import Regex JsString.

Local Infix ";;" := Seq (at level 61, right associativity).

(** A parameter is a string or a number. *)
Definition Param : Set := (string + Z)%type.
Definition ParamString (s : string) : Param := inl s.
Definition ParamNumber (n : Z) : Param := inr n.

(** One element of a comma-separated parameter list: a number, a quoted
    text without its quotes, or the text as it is. *)
Definition classifyPart (part : string) : Param :=
  if is_digits part then ParamNumber (parseInt part)
  else if is_quoted part then ParamString (slice_1_m1 part)
  else ParamString part.

(** One element of a bracketed list. *)
Definition arrayItem (item : string) : string :=
  let trimmed := trim item in
  if is_quoted trimmed then slice_1_m1 trimmed else trimmed.

Definition parseParameters (paramString : string) : list Param :=
  let cleanParam := trim paramString in
  match cleanParam with
  | EmptyString => []
  | _ =>
      (* Handle array parameters *)
      if starts_with "[" cleanParam && ends_with "]" cleanParam
      then
        let arrayContent := slice_1_m1 cleanParam in
        let items := map arrayItem (split "," arrayContent) in
        map ParamString
            (filter (fun item => negb (String.eqb item EmptyString)) items)
      else if is_digits cleanParam then [ParamNumber (parseInt cleanParam)]
      else if is_quoted cleanParam then [ParamString (slice_1_m1 cleanParam)]
      else if MigrationGenerator.includes "," cleanParam
           then map (fun p => classifyPart (trim p)) (split "," cleanParam)
           else [ParamString cleanParam]
  end.

(** The expression of [parseModifiers], under the [g] flag: a dot, a group
    of word characters, an opening parenthesis, a group of characters that
    are no closing parenthesis, and a closing parenthesis, with optional
    blanks around the parentheses. *)
Definition modifierRegex : regex :=
  Lit "." ;; Group 1 (Plus word) ;; Star true space ;; Lit "("
  ;; Star true space ;; Group 2 (Star true not_close_paren)
  ;; Star true space ;; Lit ")".

Definition group_or_empty (n : nat) (caps : captures) : string :=
  match capture n caps with
  | Some text => text
  | None => EmptyString
  end.

Definition modifierToken (caps : captures) : string :=
  let modifier := group_or_empty 1 caps in
  let args := trim (group_or_empty 2 caps) in
  match args with
  | EmptyString => modifier
  | _ => modifier ++ "(" ++ args ++ ")"
  end.

Definition parseModifiers (modifierChain : string) : list string :=
  map modifierToken (exec_all modifierRegex modifierChain 0).

(** The expression of a column line: [table.], a group of word characters
    (the type token), an opening parenthesis, a quoted name (group 2),
    optionally a comma and a group of characters that are no closing
    parenthesis (the parameters, group 3), a closing parenthesis, and the
    rest of the line (the modifier chain, group 4). *)
Definition columnRegex : regex :=
  Lit "table." ;; Group 1 (Plus word) ;; Star true space ;; Lit "("
  ;; Star true space ;; Chr quote ;; Group 2 (Plus not_quote) ;; Chr quote
  ;; Alt (Star true space ;; Lit "," ;; Star true space
          ;; Group 3 (Star true not_close_paren))
         (Lit "")
  ;; Star true space ;; Lit ")" ;; Group 4 (Star true dot).

(** The column a line declares, when the line matches. *)
Definition parseColumnLine (line : string) : option ParsedColumn.t :=
  match match_first columnRegex line with
  | Some caps =>
      let parameters :=
        match capture 3 caps with
        | Some EmptyString | None => []
        | Some text => parseParameters text
        end in
      Some (ParsedColumn.make (group_or_empty 2 caps) (group_or_empty 1 caps)
              (parseModifiers (group_or_empty 4 caps)) parameters)
  | None => None
  end.

(** The trimmed, non-empty lines of a callback body. *)
Definition bodyLines (definition : string) : list string :=
  filter (fun line => negb (String.eqb line EmptyString))
         (map trim (split "010" definition)).

(** Lines that hold no column: index, foreign key, composite primary key
    and drop-column calls. *)
Definition skipped (line : string) : bool :=
  MigrationGenerator.includes "table.index(" line
  || MigrationGenerator.includes "table.foreign(" line
  || MigrationGenerator.includes "table.primary(" line
  || MigrationGenerator.includes "table.dropColumn(" line.

Definition parseTableDefinition (definition : string)
  : list ParsedColumn.t :=
  flat_map (fun line =>
              if skipped line then []
              else match parseColumnLine line with
                   | Some column => [column]
                   | None => []
                   end)
           (bodyLines definition).

(** The mapping from builder method to column type.  (Under a token that
    names a member inherited from [Object.prototype] the source finds that
    member in the mapping and goes on with it as the type, a value outside
    [ColumnType]: the embedding covers the other tokens.) *)
Definition typeMapping : list (string * ColumnType) :=
  [ ("increments", Tincrements); ("bigIncrements", TbigIncrements);
    ("integer", Tinteger); ("bigInteger", TbigInteger);
    ("string", Tstring); ("text", Ttext); ("boolean", Tboolean);
    ("date", Tdate); ("datetime", Tdatetime); ("timestamp", Ttimestamp);
    ("time", Ttime); ("float", Tfloat); ("double", Tdouble);
    ("decimal", Tdecimal); ("binary", Tbinary); ("json", Tjson);
    ("jsonb", Tjsonb); ("uuid", Tuuid); ("enu", Tenum); ("enum", Tenum) ].

(** [/defaultTo\((.+)\)/] and the comment expression, [comment(] followed by
    a quoted text without quotes inside and a closing parenthesis. *)
Definition defaultToRegex : regex :=
  Lit "defaultTo(" ;; Group 1 (Plus dot) ;; Lit ")".

Definition commentRegex : regex :=
  Lit "comment(" ;; Chr quote ;; Group 1 (Star true not_quote) ;; Chr quote
  ;; Lit ")".

(** The value of a default, from its trimmed text. *)
Definition parseDefaultValue (defaultValue : string) : JsPrim :=
  if String.eqb defaultValue "knex.raw('CURRENT_TIMESTAMP')"
     || String.eqb defaultValue "'CURRENT_TIMESTAMP'"
     || MigrationGenerator.includes "CURRENT_TIMESTAMP" defaultValue
  then PStr "now"
  else if is_quoted defaultValue then PStr (slice_1_m1 defaultValue)
  else if String.eqb defaultValue "true" then PBool true
  else if String.eqb defaultValue "false" then PBool false
  else if is_digits defaultValue then PNum (parseInt defaultValue)
  else PStr defaultValue.

Definition applyModifierToDefinition (definition : ColumnDefinition)
  (modifier : string) : ColumnDefinition :=
  if String.eqb modifier "primary" then with_primary (Some true) definition
  else if String.eqb modifier "unique" then with_unique (Some true) definition
  else if String.eqb modifier "notNullable"
       then with_required (Some true) definition
  else if String.eqb modifier "nullable"
       then with_nullable (Some true) definition
  else if String.eqb modifier "index" then with_index (Some true) definition
  else if starts_with "defaultTo(" modifier
       then match match_first defaultToRegex modifier with
            | Some caps =>
                with_defaultTo
                  (Some (parseDefaultValue (trim (group_or_empty 1 caps))))
                  definition
            | None => definition
            end
  else if starts_with "comment(" modifier
       then match match_first commentRegex modifier with
            | Some caps =>
                with_comment (Some (group_or_empty 1 caps)) definition
            | None => definition
            end
  else definition.

(** The string-typed parameters, in order. *)
Definition stringParameters (parameters : list Param) : list string :=
  flat_map (fun param : Param =>
              match param with
              | inl text => [text]
              | inr _ => []
              end) parameters.

(** Handle type-specific parameters. *)
Definition applyParameters (token : string) (parameters : list Param)
  (definition : ColumnDefinition) : ColumnDefinition :=
  match String.eqb token "string", parameters with
  | true, inr n :: _ => with_maxLength (Some n) definition
  | _, _ =>
      if String.eqb token "decimal" && (2 <=? Z.of_nat (List.length parameters))
      then match parameters with
           | inr p :: inr s :: _ =>
               with_precision_scale (Some p) (Some s) definition
           | _ => definition
           end
      else if (String.eqb token "enu" || String.eqb token "enum")
              && (0 <? Z.of_nat (List.length parameters))
           then with_values (Some (stringParameters parameters)) definition
           else definition
  end.

(** [None] is the [null] returned, after a warning, for a type token the
    mapping does not know. *)
Definition convertColumnToDefinition (parsed : ParsedColumn.t)
  : option ColumnDefinition :=
  let token := ParsedColumn.type parsed in
  match dict_get typeMapping token with
  | None => None
  | Some mappedType =>
      let definition := column mappedType in
      let definition :=
        applyParameters token (ParsedColumn.parameters parsed) definition in
      (* Parse modifiers *)
      let definition :=
        fold_left applyModifierToDefinition (ParsedColumn.modifiers parsed)
                  definition in
      (* Handle special cases for auto-increment *)
      if String.eqb token "increments" || String.eqb token "bigIncrements"
      then Some (with_primary (Some true) definition)
      else Some definition
  end.

(** The body of the loop of [convertColumnsToSchema]. *)
Definition schemaStep (schema : SchemaDefinition) (parsed : ParsedColumn.t)
  : SchemaDefinition :=
  match convertColumnToDefinition parsed with
  | Some definition => obj_set schema (ParsedColumn.name parsed) definition
  | None => schema
  end.

Definition convertColumnsToSchema (columns : list ParsedColumn.t)
  : SchemaDefinition :=
  fold_left schemaStep columns [].




(** The expression of a drop-column line:
    [table.dropColumn], an opening parenthesis, a quoted name and a closing
    parenthesis, with optional blanks between them. *)
Definition dropColumnRegex : regex :=
  Lit "table.dropColumn" ;; Star true space ;; Lit "(" ;; Star true space
  ;; Chr quote ;; Group 1 (Plus not_quote) ;; Chr quote
  ;; Star true space ;; Lit ")".

Definition parseAlterLine (line : string)
  : list MigrationParser.AlterOperation :=
  match match_first dropColumnRegex line with
  | Some caps =>
      [ MigrationParser.mkAlterOperation MigrationParser.dropColumn
          (group_or_empty 1 caps) None ]
  | None =>
      match parseColumnLine line with
      | Some column =>
          match convertColumnToDefinition column with
          | Some definition =>
              [ MigrationParser.mkAlterOperation MigrationParser.addColumn
                  (ParsedColumn.name column) (Some definition) ]
          | None => []
          end
      | None => []
      end
  end.

Definition parseAlterOperations (definition : string)
  : list MigrationParser.AlterOperation :=
  flat_map parseAlterLine (bodyLines definition).

(** [parseMigrationFile], from the base name of the file and its content
    (reading the file is left to the caller). *)
Definition parseMigrationFile (fileName content : string)
  : list MigrationParser.ParsedMigration :=
  map (fun m =>
         MigrationParser.mkParsedMigration (CallExtractor.tableName m)
           (convertColumnsToSchema
              (parseTableDefinition (CallExtractor.definition m)))
           MigrationParser.create fileName None)
      (CallExtractor.extractCreateTableOperations content)
  ++ map (fun m =>
            MigrationParser.mkParsedMigration (CallExtractor.tableName m)
              (convertColumnsToSchema
                 (parseTableDefinition (CallExtractor.definition m)))
              MigrationParser.alter fileName
              (Some (parseAlterOperations (CallExtractor.definition m))))
         (CallExtractor.extractAlterTableOperations content).

(** The body of the loop of [groupMigrationsByTable].  The test
    [!grouped[tableName]] is a lookup through the prototype: under a table
    name that is a member inherited from [Object.prototype] it finds that
    member, no list is stored, and [grouped[tableName].push] throws a
    [TypeError], the member having no [push].  [None] is that error. *)
Definition pushMigration
  (grouped : list (string * list MigrationParser.ParsedMigration))
  (migration : MigrationParser.ParsedMigration)
  : option (list (string * list MigrationParser.ParsedMigration)) :=
  let tableName := MigrationParser.tableName migration in
  let grouped :=
    match dict_get grouped tableName with
    | Some _ => grouped
    | None =>
        if inherited tableName then grouped
        else obj_set grouped tableName []
    end in
  match dict_get grouped tableName with
  | Some ms => Some (dict_set grouped tableName (ms ++ [migration])%list)
  | None => None
  end.

(** The loop of [groupMigrationsByTable] from the entries stored so far;
    [None] once it has thrown. *)
Definition groupFrom
  (grouped : option (list (string * list MigrationParser.ParsedMigration)))
  (migrations : list MigrationParser.ParsedMigration)
  : option (list (string * list MigrationParser.ParsedMigration)) :=
  fold_left (fun grouped migration =>
               match grouped with
               | Some entries => pushMigration entries migration
               | None => None
               end)
            migrations grouped.

Definition groupMigrationsByTable
  (migrations : list MigrationParser.ParsedMigration)
  : option (list (string * list MigrationParser.ParsedMigration)) :=
  groupFrom (Some []) migrations.

(** No entry of the object is under the name of an inherited member. *)
Definition no_inherited_entry {V : Type} (o : list (string * V)) : Prop :=
  forall key, inherited key = true -> dict_get o key = None.

(** A file that alters a table before it creates it. *)
Definition alter_before_create_source : string :=
  "exports.up = function(knex) {" ++ nl
  ++ "  knex.schema.alterTable('users', function(table) {" ++ nl
  ++ "    table.string('email')" ++ nl
  ++ "  })" ++ nl
  ++ "  return knex.schema.createTable('users', function(table) {" ++ nl
  ++ "    table.increments('id')" ++ nl
  ++ "  })" ++ nl
  ++ "}" ++ nl.

(** A migration written as an ES module, the way the generator of this
    project writes them: it assigns nothing to [exports.up]. *)
Definition es_module_source : string :=
  "export async function up(knex) {" ++ nl
  ++ "  return knex.schema.createTable('users', function(table) {" ++ nl
  ++ "    table.increments('id')" ++ nl
  ++ "  })" ++ nl
  ++ "}" ++ nl.

End ColumnParser.

(** Where a merged column can come from: the columns of a [create]
    migration, or an [addColumn] / [modifyColumn] operation of an [alter]
    migration that carries a definition. *)
Definition provided_by (migrations : list MigrationParser.ParsedMigration)
  (c : string) (d : ColumnDefinition) : Prop :=
  exists m, In m migrations
    /\ ((MigrationParser.operation m = MigrationParser.create
         /\ In (c, d) (MigrationParser.columns m))
        \/ (MigrationParser.operation m = MigrationParser.alter
            /\ exists ops op,
                 MigrationParser.alterOperations m = Some ops /\ In op ops
                 /\ MigrationParser.type op <> MigrationParser.dropColumn
                 /\ MigrationParser.columnName op = c
                 /\ MigrationParser.definition op = Some d)).

(** ** Naming of generated models ([src/SchemaGenerator.ts]) *)

Module SchemaGenerator.
Import Regex JsString.

(** [[a-zA-Z0-9]] *)
Definition alnum (c : ascii) : bool :=
  between 97 122 c || between 65 90 c || between 48 57 c.

(** [toUpperCase] and [toLowerCase], on the characters the words of a name
    hold: ASCII letters and digits. *)
Definition toUpperCase (c : ascii) : ascii :=
  if between 97 122 c then ascii_of_nat (code c - 32) else c.

Definition toLowerCase (c : ascii) : ascii :=
  if between 65 90 c then ascii_of_nat (code c + 32) else c.

Fixpoint map_chars (f : ascii -> ascii) (s : string) : string :=
  match s with
  | EmptyString => EmptyString
  | String c rest => String (f c) (map_chars f rest)
  end.

(** [word.charAt(0).toUpperCase() + word.slice(1).toLowerCase()] *)
Definition capitalize (word : string) : string :=
  match word with
  | EmptyString => EmptyString
  | String c rest => String (toUpperCase c) (map_chars toLowerCase rest)
  end.

Definition toPascalCase (str : string) : string :=
  let replaced :=
    map_chars (fun c => if alnum c then c else " "%char) str in
  MigrationGenerator.join ""
    (map capitalize
       (filter (fun word => negb (String.eqb word EmptyString))
               (split " " replaced))).

Definition toCamelCase (str : string) : string :=
  let pascalCase := toPascalCase str in
  match pascalCase with
  | EmptyString => EmptyString
  | String c rest => String (toLowerCase c) rest
  end.
End SchemaGenerator.

(** ** Table builder ([src/MigrationGenerator.ts]) *)

Module TableBuilder.
Import MigrationGenerator.

(** A call on the Knex table builder, or on the column builder such a call
    returns: the method and its arguments. *)
Inductive Argument : Type :=
| Text (s : string)
| Number (n : Z)
| Values (values : option (list string))
| Value (v : JsPrim).

Record Call : Type := mkCall {
  method    : string;
  arguments : list Argument
}.

(** Truthiness of an optional text and of an optional value. *)
Definition truthy_text (s : option string) : bool :=
  match s with
  | Some text => negb (String.eqb text "")
  | None => false
  end.

(** [addColumn]: the calls it makes, in order; the first one creates the
    column, the others are made on the column it returns.  [ColumnType]
    has no value besides the cases of the [switch], so its [default]
    branch, which throws, is not reached. *)
Definition addColumn (columnName : string) (definition : ColumnDefinition)
  : list Call :=
  let simple (method : string) := mkCall method [Text columnName] in
  (* Create column based on type *)
  let column :=
    match type definition with
    | Tincrements => simple "increments"
    | TbigIncrements => simple "bigIncrements"
    | Tinteger => simple "integer"
    | TbigInteger => simple "bigInteger"
    | Tstring =>
        match truthy_number (maxLength definition) with
        | Some maxLength => mkCall "string" [Text columnName; Number maxLength]
        | None => simple "string"
        end
    | Ttext => simple "text"
    | Tboolean => simple "boolean"
    | Tdate => simple "date"
    | Tdatetime => simple "datetime"
    | Ttimestamp => simple "timestamp"
    | Ttime => simple "time"
    | Tfloat => simple "float"
    | Tdouble => simple "double"
    | Tdecimal =>
        match truthy_number (precision definition),
              truthy_number (scale definition) with
        | Some precision, Some scale =>
            mkCall "decimal" [Text columnName; Number precision; Number scale]
        | _, _ => simple "decimal"
        end
    | Tbinary => simple "binary"
    | Tjson => simple "json"
    | Tjsonb => simple "jsonb"
    | Tuuid => simple "uuid"
    | Tenum => mkCall "enum" [Text columnName; Values (values definition)]
    end in
  (* Apply column modifiers *)
  [column]
  ++ (if truthy (primary definition) then [mkCall "primary" []] else [])
  ++ (if truthy (unique definition) then [mkCall "unique" []] else [])
  ++ (if truthy (nullable definition) then [mkCall "nullable" []]
      else if match required definition with
              | Some false => false
              | _ => true
              end && negb (truthy (primary definition))
           then [mkCall "notNullable" []]
           else [])
  ++ match defaultTo definition with
     | Some v => [mkCall "defaultTo" [Value v]]
     | None => []
     end
  ++ (if truthy (index definition) then [mkCall "index" []] else [])
  ++ (if truthy_text (comment definition)
      then [mkCall "comment"
              [Text match comment definition with
                    | Some text => text
                    | None => ""
                    end]]
      else [])
  (* Handle onUpdate for timestamps *)
  ++ match onUpdate definition with
     | Some (PStr s) =>
         if String.eqb s "now"
         then [mkCall "comment" [Text ("AUTO UPDATE: " ++ s)]]
         else []
     | _ => []
     end.

(** [buildTable]: the calls of every column, in the order of the schema. *)
Definition buildTable (schema : SchemaDefinition) (tableName : string)
  : list (list Call) :=
  map (fun entry => addColumn (fst entry) (snd entry)) schema.
End TableBuilder.

(** [generateTableBuilder]: one line per column, in the order of the
    schema. *)
Definition generateTableBuilder (schema : SchemaDefinition) (indent : string)
  : string :=
  MigrationGenerator.join nl
    (map (fun entry =>
            MigrationGenerator.generateColumnBuilder (fst entry) (snd entry)
              indent false)
         schema).

(** ** Definitions whose generated text the parser reads back *)

(** The text stops a repetition of the class: it is empty or starts with a
    character outside the class. *)
Definition stops (class : ascii -> bool) (rest : string) : bool :=
  match rest with
  | EmptyString => true
  | String x _ => negb (class x)
  end.

(** The definition without its flags and its default: what the call of the
    builder method depends on. *)
Definition bare (d : ColumnDefinition) : ColumnDefinition :=
  mkColumn (type d) None None None None None None None None
           (maxLength d) (precision d) (scale d) (values d).

Definition isAutoIncrement (t : ColumnType) : bool :=
  match t with
  | Tincrements | TbigIncrements => true
  | _ => false
  end.

(** A value between single quotes, as the generator writes it. *)
Definition quoted (v : string) : string := "'" ++ v ++ "'".

(** The characters a default text can hold for the parser to read it back:
    no line terminator, no quote, no closing parenthesis. *)
Definition default_char (c : ascii) : bool :=
  JsString.dot c && Regex.not_quote c && JsString.not_close_paren c.

Definition absent {A : Type} (o : option A) : bool :=
  match o with
  | None => true
  | Some _ => false
  end.

Definition absent_or_true (b : option bool) : bool :=
  match b with
  | Some false => false
  | _ => true
  end.

(** Defaults the parser reads back: booleans, integers that are not
    negative, and texts of the characters above other than [now] and
    without [CURRENT_TIMESTAMP]. *)
Definition readable_default (v : option JsPrim) : bool :=
  match v with
  | None => true
  | Some (PBool _) => true
  | Some (PNum n) => 0 <=? n
  | Some (PStr s) =>
      CallExtractor.all_chars default_char s
      && negb (MigrationGenerator.includes "CURRENT_TIMESTAMP" s)
      && negb (String.eqb s "now")
  end.

(** Enum values the parser reads back: not empty, without quote, comma or
    closing parenthesis. *)
Definition value_char (c : ascii) : bool :=
  Regex.not_quote c && JsString.not_close_paren c
  && negb (Ascii.eqb c ",").

Definition readable_value (v : string) : bool :=
  negb (String.eqb v "") && CallExtractor.all_chars value_char v.

(** The type-specific fields: a positive length on a string column only,
    positive precision and scale together on a decimal column only, a
    list of values, not empty, on an enum column only. *)
Definition readable_sizes (d : ColumnDefinition) : bool :=
  match type d with
  | Tenum =>
      absent (maxLength d) && absent (precision d) && absent (scale d)
      && match values d with
         | Some (v :: vs) => forallb readable_value (v :: vs)
         | _ => false
         end
  | Tstring =>
      match maxLength d with
      | Some n => 0 <? n
      | None => true
      end && absent (precision d) && absent (scale d) && absent (values d)
  | Tdecimal =>
      absent (maxLength d) && absent (values d)
      && match precision d, scale d with
         | Some p, Some s => (0 <? p) && (0 <? s)
         | None, None => true
         | _, _ => false
         end
  | _ =>
      absent (maxLength d) && absent (precision d) && absent (scale d)
      && absent (values d)
  end.

(** The flags: none is [false], [nullable] and [required] are not both
    set, an auto-increment column is primary, and there is neither
    [comment] nor [onUpdate]. *)
Definition readable_flags (d : ColumnDefinition) : bool :=
  absent (comment d) && absent (onUpdate d)
  && (if isAutoIncrement (type d) then MigrationGenerator.truthy (primary d)
      else absent_or_true (primary d))
  && absent_or_true (unique d) && absent_or_true (index d)
  && match nullable d, required d with
     | None, None | Some true, None | None, Some true => true
     | _, _ => false
     end.

(** The integers every one of which the source holds, prints as its
    digits and reads back from them: those of magnitude below 2^53. *)
Definition safe_integer (n : Z) : bool := Z.abs n <? 2 ^ 53.

(** The sizes and a numeric default are such integers. *)
Definition safe_numbers (d : ColumnDefinition) : bool :=
  let safe (size : option Z) :=
    match size with
    | Some n => safe_integer n
    | None => true
    end in
  safe (maxLength d) && safe (precision d) && safe (scale d)
  && match defaultTo d with
     | Some (PNum n) => safe_integer n
     | _ => true
     end.

(** The definitions whose generated line the parser reads back. *)
Definition readable (d : ColumnDefinition) : bool :=
  readable_sizes d && readable_flags d && readable_default (defaultTo d)
  && safe_numbers d.

(** * Properties *)

(** ** The alteration classifier *)

Module ClassifierFacts.
Import MigrationGenerator.

Lemma strict_ne_refl {A : Type} (dec : forall x y : A, {x = y} + {x <> y})
  (a : A) : strict_ne dec a a = false.
Proof. unfold strict_ne. destruct (dec a a); congruence. Qed.

Lemma strict_ne_true {A : Type} (dec : forall x y : A, {x = y} + {x <> y})
  (a b : A) : a <> b -> strict_ne dec a b = true.
Proof. unfold strict_ne. destruct (dec a b); congruence. Qed.

Lemma or_default_nonzero (n d : Z) : n <> 0 -> or_default (Some n) d = n.
Proof.
  intros Hn. unfold or_default.
  destruct (Z.eqb_spec n 0); congruence.
Qed.

(** On a string column the size comparison alone decides [canUseAlterMethod]. *)
Lemma canUseAlterMethod_string (o n : ColumnDefinition) :
  type o = Tstring -> type n = Tstring ->
  canUseAlterMethod o n
  = (or_default (maxLength o) 255 <=? or_default (maxLength n) 255).
Proof.
  intros Ho Hn. unfold canUseAlterMethod. rewrite Ho, Hn.
  rewrite strict_ne_refl. reflexivity.
Qed.

Lemma canUseAlterMethod_decimal (o n : ColumnDefinition) :
  type o = Tdecimal -> type n = Tdecimal ->
  canUseAlterMethod o n
  = ((or_default (precision o) 8 <=? or_default (precision n) 8)
     && (or_default (scale o) 2 <=? or_default (scale n) 2))%bool.
Proof.
  intros Ho Hn. unfold canUseAlterMethod. rewrite Ho, Hn.
  rewrite strict_ne_refl. reflexivity.
Qed.

(** On every other type, with equal types: nullability loosened, or a
    different default. *)
Lemma canUseAlterMethod_other (o n : ColumnDefinition) :
  type o = type n -> type o <> Tstring -> type o <> Tdecimal ->
  canUseAlterMethod o n
  = match nullable o, nullable n with
    | Some false, Some true => true
    | _, _ => strict_ne (option_eq_dec JsPrim_eq_dec) (defaultTo o) (defaultTo n)
    end.
Proof.
  intros Ht Hs Hd. unfold canUseAlterMethod. rewrite <- Ht.
  rewrite strict_ne_refl.
  destruct (ColumnType_eq_dec (type o) (type o)) as [_ | Hne];
    [ | congruence ].
  rewrite andb_true_r.
  destruct (type o); try congruence; reflexivity.
Qed.

(** Away from strings and decimals a [unique] flip to [true], all else
    equal, is classified [raw]. *)
Lemma unique_flip_raw_other_types (d : ColumnDefinition) (u : option bool) :
  type d <> Tstring -> type d <> Tdecimal ->
  u = None \/ u = Some false ->
  determineAlterationType (with_unique u d) (with_unique (Some true) d) = raw.
Proof.
  intros Hs Hd Hu. unfold determineAlterationType.
  rewrite canUseAlterMethod_other by (simpl; auto).
  simpl. rewrite strict_ne_refl.
  assert (Hne : u <> Some true) by (destruct Hu; subst; discriminate).
  assert (Hraw : needsRawQuery (with_unique u d) (with_unique (Some true) d)
                 = true).
  { unfold needsRawQuery. simpl. rewrite (strict_ne_true _ _ _ Hne).
    reflexivity. }
  rewrite Hraw.
  destruct (nullable d) as [[|]|]; reflexivity.
Qed.

(** C3: on a string or decimal column, a [unique] flag that flips from
    [false] or absent to [true], every other field equal, is reported as a
    changed column and classified [alter], not [raw]: the size comparison
    of [canUseAlterMethod] returns before the constraint is looked at. *)
Theorem unique_flip_string_decimal_is_alter
  (d : ColumnDefinition) (u : option bool) :
  type d = Tstring \/ type d = Tdecimal ->
  u = None \/ u = Some false ->
  hasColumnChanged (with_unique u d) (with_unique (Some true) d) = true
  /\ determineAlterationType (with_unique u d) (with_unique (Some true) d)
     = alter.
Proof.
  intros Ht Hu. split.
  - unfold hasColumnChanged.
    destruct (ColumnDefinition_eq_dec _ _) as [He | _]; [ | reflexivity ].
    apply (f_equal unique) in He. simpl in He.
    destruct Hu; subst; discriminate.
  - unfold determineAlterationType.
    destruct Ht as [Ht | Ht].
    + rewrite canUseAlterMethod_string by exact Ht.
      simpl. rewrite Z.leb_refl. reflexivity.
    + rewrite canUseAlterMethod_decimal by exact Ht.
      simpl. rewrite !Z.leb_refl. reflexivity.
Qed.

Lemma unique_flip_string_decimal_is_alter_witness :
  determineAlterationType (with_unique None (column Tstring))
                          (with_unique (Some true) (column Tstring)) = alter.
Proof.
  apply (unique_flip_string_decimal_is_alter (column Tstring) None).
  - left. reflexivity.
  - left. reflexivity.
Defined.

(** C4 as stated fails: a string column shortened from 500 to 255 while its
    nullability is loosened is classified [recreate]. *)
Lemma nullable_loosening_not_always_alter :
  ~ (forall o n : ColumnDefinition,
        type o = type n ->
        nullable o = Some false -> nullable n = Some true ->
        determineAlterationType o n = alter).
Proof.
  intros H.
  specialize (H (with_nullable (Some false)
                   (with_maxLength (Some 500) (column Tstring)))
                (with_nullable (Some true)
                   (with_maxLength (Some 255) (column Tstring)))
                eq_refl eq_refl eq_refl).
  vm_compute in H. discriminate.
Qed.

Lemma alter_iff_canUseAlterMethod (o n : ColumnDefinition) :
  determineAlterationType o n = alter <-> canUseAlterMethod o n = true.
Proof.
  unfold determineAlterationType.
  destruct (canUseAlterMethod o n); [ tauto | ].
  destruct (needsRawQuery o n); split; discriminate.
Qed.

(** C4, amended: with identical types and [nullable] going from [false] to
    [true], the change is classified [alter] exactly when no size shrinks:
    always on a column that is neither string nor decimal, on a string
    column when [maxLength] does not decrease, on a decimal column when
    neither [precision] nor [scale] decreases (absent or zero sizes read as
    255, 8 and 2). *)
Theorem nullable_loosening_alter (o n : ColumnDefinition) :
  type o = type n ->
  nullable o = Some false -> nullable n = Some true ->
  determineAlterationType o n = alter <-> size_shrinks o n = false.
Proof.
  intros Ht Ho Hn. rewrite alter_iff_canUseAlterMethod. unfold size_shrinks.
  destruct (ColumnType_eq_dec (type o) Tstring) as [Es | Es].
  - rewrite canUseAlterMethod_string by congruence. rewrite Es.
    rewrite Z.leb_antisym. apply negb_true_iff.
  - destruct (ColumnType_eq_dec (type o) Tdecimal) as [Ed | Ed].
    + rewrite canUseAlterMethod_decimal by congruence. rewrite Ed.
      rewrite !Z.leb_antisym, <- negb_orb. apply negb_true_iff.
    + rewrite canUseAlterMethod_other by assumption.
      rewrite Ho, Hn. destruct (type o); try congruence; tauto.
Qed.

Lemma nullable_loosening_alter_witness :
  determineAlterationType
    (with_nullable (Some false) (with_maxLength (Some 255) (column Tstring)))
    (with_nullable (Some true) (with_maxLength (Some 500) (column Tstring)))
  = alter.
Proof.
  apply nullable_loosening_alter; reflexivity.
Defined.

Lemma needsRawQuery_same_constraints (o n : ColumnDefinition) :
  unique o = unique n -> primary o = primary n -> values o = values n ->
  nullable o = nullable n ->
  needsRawQuery o n = false.
Proof.
  intros Hu Hp Hv Hn. unfold needsRawQuery. simpl.
  rewrite Hu, Hp, Hv, Hn, !strict_ne_refl.
  destruct (nullable n) as [[|]|]; reflexivity.
Qed.

(** C5 as stated fails at a zero length, which [|| 255] reads as 255: the
    decrease from 100 to 0 is classified [alter]. *)
Lemma string_length_rule_fails_at_zero :
  ~ (forall (d : ColumnDefinition) (a b : Z),
        type d = Tstring ->
        (a < b ->
         determineAlterationType (with_maxLength (Some a) d)
                                 (with_maxLength (Some b) d) = alter)
        /\ (b < a ->
            determineAlterationType (with_maxLength (Some a) d)
                                    (with_maxLength (Some b) d) = recreate)).
Proof.
  intros H.
  destruct (H (column Tstring) 100 0 eq_refl) as [_ Hdec].
  assert (Hlt : 0 < 100) by lia.
  specialize (Hdec Hlt). vm_compute in Hdec. discriminate.
Qed.

(** C5, amended: for two string definitions equal in every field but
    [maxLength], both lengths non-zero, an increase is classified [alter]
    and a decrease [recreate]. *)
Theorem string_length_change_classified (d : ColumnDefinition) (a b : Z) :
  type d = Tstring -> a <> 0 -> b <> 0 ->
  (a < b ->
   determineAlterationType (with_maxLength (Some a) d)
                           (with_maxLength (Some b) d) = alter)
  /\ (b < a ->
      determineAlterationType (with_maxLength (Some a) d)
                              (with_maxLength (Some b) d) = recreate).
Proof.
  intros Ht Ha Hb. unfold determineAlterationType.
  rewrite canUseAlterMethod_string by exact Ht.
  simpl maxLength. rewrite !or_default_nonzero by assumption.
  rewrite needsRawQuery_same_constraints by reflexivity.
  split; intros Hlt.
  - assert (Hle : (a <=? b) = true) by (apply Z.leb_le; lia).
    rewrite Hle. reflexivity.
  - assert (Hgt : (a <=? b) = false) by (apply Z.leb_gt; lia).
    rewrite Hgt. reflexivity.
Qed.

Lemma string_length_change_classified_witness :
  determineAlterationType (with_maxLength (Some 255) (column Tstring))
                          (with_maxLength (Some 500) (column Tstring)) = alter
  /\ determineAlterationType (with_maxLength (Some 500) (column Tstring))
                             (with_maxLength (Some 255) (column Tstring))
     = recreate.
Proof.
  split.
  - apply (string_length_change_classified (column Tstring) 255 500);
      [ reflexivity | lia | lia | lia ].
  - apply (string_length_change_classified (column Tstring) 500 255);
      [ reflexivity | lia | lia | lia ].
Defined.




End ClassifierFacts.

(** ** Dictionaries *)

Section DictFacts.
Context {V : Type}.
Implicit Types (o : list (string * V)) (k : string) (v : V).

Lemma dict_get_set_eq o k v : dict_get (dict_set o k v) k = Some v.
Proof.
  induction o as [ | [k' w] o IH ]; simpl.
  - rewrite String.eqb_refl. reflexivity.
  - destruct (String.eqb_spec k' k) as [-> | Hne]; simpl.
    + rewrite String.eqb_refl. reflexivity.
    + destruct (String.eqb_spec k' k); [ contradiction | exact IH ].
Qed.

Lemma dict_get_set_ne o k k' v :
  k <> k' -> dict_get (dict_set o k v) k' = dict_get o k'.
Proof.
  intros Hne. induction o as [ | [k0 w] o IH ]; simpl.
  - destruct (String.eqb_spec k k'); [ contradiction | reflexivity ].
  - destruct (String.eqb_spec k0 k) as [-> | Hk]; simpl.
    + destruct (String.eqb_spec k k'); [ contradiction | reflexivity ].
    + rewrite IH. reflexivity.
Qed.

Lemma dict_get_delete_eq o k : dict_get (dict_delete o k) k = None.
Proof.
  induction o as [ | [k0 w] o IH ]; simpl; [ reflexivity | ].
  destruct (String.eqb_spec k0 k) as [-> | Hk]; simpl; [ exact IH | ].
  destruct (String.eqb_spec k0 k); [ contradiction | exact IH ].
Qed.

Lemma dict_get_delete_ne o k k' :
  k <> k' -> dict_get (dict_delete o k) k' = dict_get o k'.
Proof.
  intros Hne. induction o as [ | [k0 w] o IH ]; simpl; [ reflexivity | ].
  destruct (String.eqb_spec k0 k) as [-> | Hk]; simpl.
  - destruct (String.eqb_spec k k'); [ contradiction | exact IH ].
  - rewrite IH. reflexivity.
Qed.

Lemma dict_get_Some_In o k v : dict_get o k = Some v -> In (k, v) o.
Proof.
  induction o as [ | [k0 w] o IH ]; simpl; [ discriminate | ].
  destruct (String.eqb_spec k0 k) as [-> | Hk]; intros H.
  - injection H as ->. left. reflexivity.
  - right. apply IH, H.
Qed.

Lemma dict_get_None_keys o k : dict_get o k = None <-> ~ In k (dict_keys o).
Proof.
  induction o as [ | [k0 w] o IH ]; simpl.
  - split; auto.
  - destruct (String.eqb_spec k0 k) as [-> | Hk].
    + split; [ discriminate | intros H; exfalso; apply H; left; reflexivity ].
    + rewrite IH. split; intros H; [ intros [E | I]; auto | auto ].
Qed.

Lemma dict_get_In o k v : dict_wf o -> In (k, v) o -> dict_get o k = Some v.
Proof.
  unfold dict_wf. induction o as [ | [k0 w] o IH ]; simpl;
    intros Hnd Hin; [ contradiction | ].
  inversion Hnd as [ | ? ? Hnotin Hnd' ]; subst.
  destruct Hin as [E | Hin].
  - injection E as -> ->. rewrite String.eqb_refl. reflexivity.
  - destruct (String.eqb_spec k0 k) as [-> | Hk].
    + exfalso. apply Hnotin. change (In (fst (k, v)) (map fst o)).
      apply in_map, Hin.
    + apply IH; assumption.
Qed.

Lemma dict_get_key_Some o k :
  In k (dict_keys o) -> exists v, dict_get o k = Some v.
Proof.
  intros Hin. destruct (dict_get o k) as [v | ] eqn:E; [ eauto | ].
  apply dict_get_None_keys in E. contradiction.
Qed.


(** An assignment stores the value under every key but [__proto__], where
    it stores nothing; it changes no other key. *)
Lemma obj_set_proto o v :
  dict_get o "__proto__" = None -> obj_set o "__proto__" v = o.
Proof. intros H. unfold obj_set. simpl. rewrite H. reflexivity. Qed.

Lemma obj_set_stored o k v : k <> "__proto__" -> obj_set o k v = dict_set o k v.
Proof.
  intros Hk. unfold obj_set.
  destruct (String.eqb_spec k "__proto__"); [ contradiction | reflexivity ].
Qed.

Lemma dict_get_obj_set_eq o k v :
  k <> "__proto__" -> dict_get (obj_set o k v) k = Some v.
Proof. intros Hk. rewrite obj_set_stored by exact Hk. apply dict_get_set_eq. Qed.

Lemma dict_get_obj_set_ne o k k' v :
  k <> k' -> dict_get (obj_set o k v) k' = dict_get o k'.
Proof.
  intros Hne. unfold obj_set. destruct (String.eqb k "__proto__");
    [ destruct (dict_get o k); [ apply dict_get_set_ne, Hne | reflexivity ]
    | apply dict_get_set_ne, Hne ].
Qed.



Lemma dict_keys_set_in o k k' v :
  In k' (dict_keys (dict_set o k v)) -> k' = k \/ In k' (dict_keys o).
Proof.
  induction o as [ | [k0 w] o IH ]; simpl.
  - intros [<- | []]. left. reflexivity.
  - destruct (String.eqb_spec k0 k) as [-> | Hk]; simpl.
    + intros [<- | Hin]; right; [ left; reflexivity | right; exact Hin ].
    + intros [<- | Hin]; [ right; left; reflexivity | ].
      destruct (IH Hin) as [-> | Hin']; [ left | right; right ]; auto.
Qed.

Lemma dict_set_wf o k v : dict_wf o -> dict_wf (dict_set o k v).
Proof.
  unfold dict_wf.
  induction o as [ | [k0 w] o IH ]; simpl; intros Hnd.
  - constructor; [ intros [] | constructor ].
  - inversion Hnd as [ | ? ? Hnotin Hnd' ]; subst.
    destruct (String.eqb_spec k0 k) as [-> | Hk]; simpl.
    + constructor; assumption.
    + constructor; [ | apply IH, Hnd' ].
      intros Hin. destruct (dict_keys_set_in _ _ _ _ Hin) as [-> | Hin'];
        [ apply Hk; reflexivity | apply Hnotin, Hin' ].
Qed.

Lemma obj_set_wf o k v : dict_wf o -> dict_wf (obj_set o k v).
Proof.
  intros H. unfold obj_set. destruct (String.eqb k "__proto__");
    [ destruct (dict_get o k); [ apply dict_set_wf, H | exact H ]
    | apply dict_set_wf, H ].
Qed.
End DictFacts.

(** ** The schema differ *)

Module DifferFacts.
Import MigrationGenerator.

Lemma hasColumnChanged_false_iff (a b : ColumnDefinition) :
  hasColumnChanged a b = false <-> normalized a = normalized b.
Proof.
  unfold hasColumnChanged.
  destruct (ColumnDefinition_eq_dec (normalized a) (normalized b));
    split; congruence.
Qed.

Lemma hasColumnChanged_same (d : ColumnDefinition) : hasColumnChanged d d = false.
Proof. apply hasColumnChanged_false_iff. reflexivity. Qed.

Lemma normalized_comment_eq (a b : ColumnDefinition) :
  normalized a = normalized b -> comment a = comment b -> a = b.
Proof.
  destruct a, b. unfold normalized, with_comment. simpl.
  intros H Hc. injection H as -> -> -> -> -> -> -> -> -> -> -> ->.
  rewrite Hc. reflexivity.
Qed.

Lemma flat_map_all_nil {A B : Type} (f : A -> list B) (l : list A) :
  (forall x, In x l -> f x = []) -> flat_map f l = [].
Proof.
  induction l as [ | x l IH ]; simpl; intros H; [ reflexivity | ].
  rewrite (H x) by (left; reflexivity). apply IH.
  intros y Hy. apply H. right. exact Hy.
Qed.

(** C2: the diff of a schema with itself has no operation. *)
Theorem generateSchemaDiff_same (tableName : string) (S : SchemaDefinition) :
  dict_wf S -> generateSchemaDiff tableName S S = [].
Proof.
  intros Hwf.
  unfold generateSchemaDiff, newColumns, removedColumns, alteredColumns.
  rewrite !flat_map_all_nil; [ reflexivity | | | ].
  - intros [c d] Hin. rewrite (dict_get_In _ _ _ Hwf Hin).
    rewrite hasColumnChanged_same. reflexivity.
  - intros c Hin. destruct (dict_get_key_Some _ _ Hin) as [v ->].
    reflexivity.
  - intros [c d] Hin. rewrite (dict_get_In _ _ _ Hwf Hin). reflexivity.
Qed.

Lemma users_schema_wf : dict_wf users_schema.
Proof.
  unfold dict_wf, users_schema. simpl.
  repeat constructor; simpl; intuition discriminate.
Defined.

Lemma accounts_schema_wf : dict_wf accounts_schema.
Proof.
  unfold dict_wf, accounts_schema. simpl.
  repeat constructor; simpl; intuition discriminate.
Defined.

Lemma generateSchemaDiff_same_witness :
  generateSchemaDiff "users" users_schema users_schema = [].
Proof. apply generateSchemaDiff_same. exact users_schema_wf. Defined.

(** *** Which operations a diff holds *)

Section Membership.
Variables (t : string) (S1 S2 : SchemaDefinition).
Hypotheses (wf1 : dict_wf S1) (wf2 : dict_wf S2).

Lemma in_newColumns (op : MigrationOperation) :
  In op (newColumns t S1 S2) <->
  exists c d, op = addColumn t c d
              /\ dict_get S1 c = None /\ dict_get S2 c = Some d.
Proof.
  unfold newColumns. rewrite in_flat_map. split.
  - intros [[c d] [Hin Hop]].
    pose proof (dict_get_In _ _ _ wf2 Hin) as H2.
    destruct (dict_get S1 c) eqn:E1; simpl in Hop; [ contradiction | ].
    destruct Hop as [<- | []]. eauto.
  - intros (c & d & -> & E1 & E2).
    exists (c, d). split; [ apply dict_get_Some_In, E2 | ].
    rewrite E1. left. reflexivity.
Qed.

Lemma in_removedColumns (op : MigrationOperation) :
  In op (removedColumns t S1 S2) <->
  exists c od, op = dropColumn t c (Some od)
               /\ dict_get S1 c = Some od /\ dict_get S2 c = None.
Proof.
  unfold removedColumns. rewrite in_flat_map. split.
  - intros [c [Hin Hop]].
    destruct (dict_get_key_Some _ _ Hin) as [od E1].
    destruct (dict_get S2 c) eqn:E2; simpl in Hop; [ contradiction | ].
    destruct Hop as [<- | []]. rewrite E1. eauto.
  - intros (c & od & -> & E1 & E2).
    exists c. split.
    + change c with (fst (c, od)). apply in_map, dict_get_Some_In, E1.
    + rewrite E2, E1. left. reflexivity.
Qed.

Lemma in_alteredColumns (op : MigrationOperation) :
  In op (alteredColumns t S1 S2) <->
  exists c od d,
    op = alterColumn t c d (Some od) (Some (determineAlterationType od d))
    /\ dict_get S1 c = Some od /\ dict_get S2 c = Some d
    /\ hasColumnChanged od d = true.
Proof.
  unfold alteredColumns. rewrite in_flat_map. split.
  - intros [[c d] [Hin Hop]].
    pose proof (dict_get_In _ _ _ wf2 Hin) as H2.
    destruct (dict_get S1 c) as [od | ] eqn:E1; simpl in Hop;
      [ | contradiction ].
    destruct (hasColumnChanged od d) eqn:Ech; simpl in Hop;
      [ | contradiction ].
    destruct Hop as [<- | []]. exists c, od, d. auto.
  - intros (c & od & d & -> & E1 & E2 & Ech).
    exists (c, d). split; [ apply dict_get_Some_In, E2 | ].
    rewrite E1, Ech. left. reflexivity.
Qed.

(** Every operation of a diff is about a column, and says which one it
    is from the two schemas. *)
Lemma in_diff_iff (op : MigrationOperation) :
  In op (generateSchemaDiff t S1 S2) <->
  (exists c d, op = addColumn t c d
               /\ dict_get S1 c = None /\ dict_get S2 c = Some d)
  \/ (exists c od, op = dropColumn t c (Some od)
                   /\ dict_get S1 c = Some od /\ dict_get S2 c = None)
  \/ (exists c od d,
         op = alterColumn t c d (Some od)
                          (Some (determineAlterationType od d))
         /\ dict_get S1 c = Some od /\ dict_get S2 c = Some d
         /\ hasColumnChanged od d = true).
Proof.
  unfold generateSchemaDiff.
  rewrite !in_app_iff, in_newColumns, in_removedColumns, in_alteredColumns.
  reflexivity.
Qed.

Lemma in_diff_add (c : string) (d : ColumnDefinition) :
  dict_get S1 c = None -> dict_get S2 c = Some d ->
  In (addColumn t c d) (generateSchemaDiff t S1 S2).
Proof. intros E1 E2. apply in_diff_iff. left. eauto. Qed.

Lemma in_diff_drop (c : string) (od : ColumnDefinition) :
  dict_get S1 c = Some od -> dict_get S2 c = None ->
  In (dropColumn t c (Some od)) (generateSchemaDiff t S1 S2).
Proof. intros E1 E2. apply in_diff_iff. right; left. eauto. Qed.

Lemma in_diff_alter (c : string) (od d : ColumnDefinition) :
  dict_get S1 c = Some od -> dict_get S2 c = Some d ->
  hasColumnChanged od d = true ->
  In (alterColumn t c d (Some od) (Some (determineAlterationType od d)))
     (generateSchemaDiff t S1 S2).
Proof.
  intros E1 E2 Ech. apply in_diff_iff. right; right.
  exists c, od, d. auto.
Qed.

Lemma NoDup_keyed_flat_map {A : Type} (key : A -> string)
  (g : A -> list MigrationOperation) (l : list A) :
  NoDup (map key l) ->
  (forall x op, In op (g x) -> g x = [op] /\ columnName_of op = Some (key x)) ->
  NoDup (map columnName_of (flat_map g l)).
Proof.
  intros Hnd Hg. induction l as [ | x l IH ]; simpl; [ constructor | ].
  inversion Hnd as [ | ? ? Hnotin Hnd' ]; subst.
  rewrite map_app. destruct (g x) as [ | op r ] eqn:Egx; simpl.
  - apply IH, Hnd'.
  - destruct (Hg x op) as [E Hc]; [ rewrite Egx; left; reflexivity | ].
    rewrite Egx in E. injection E as ->. simpl. constructor.
    + rewrite Hc. intros Hin. apply in_map_iff in Hin.
      destruct Hin as (op' & Hc' & Hin'). apply in_flat_map in Hin'.
      destruct Hin' as (y & Hy & Hop').
      destruct (Hg y op' Hop') as [_ Hcy]. rewrite Hcy in Hc'.
      injection Hc' as Hk. apply Hnotin. rewrite <- Hk. apply in_map, Hy.
    + apply IH, Hnd'.
Qed.

(** No two operations of a diff are about the same column. *)
Lemma diff_columns_NoDup :
  NoDup (map columnName_of (generateSchemaDiff t S1 S2)).
Proof.
  unfold generateSchemaDiff. rewrite !map_app.
  assert (Hnew : NoDup (map columnName_of (newColumns t S1 S2))).
  { apply (NoDup_keyed_flat_map fst); [ exact wf2 | ].
    intros [c d] op. simpl. destruct (dict_get S1 c); simpl;
      [ contradiction | intros [<- | []]; auto ]. }
  assert (Hrem : NoDup (map columnName_of (removedColumns t S1 S2))).
  { apply (NoDup_keyed_flat_map (fun c => c)).
    - rewrite map_id. exact wf1.
    - intros c op. destruct (dict_get S2 c); simpl;
        [ contradiction | intros [<- | []]; auto ]. }
  assert (Halt : NoDup (map columnName_of (alteredColumns t S1 S2))).
  { apply (NoDup_keyed_flat_map fst); [ exact wf2 | ].
    intros [c d] op. simpl. destruct (dict_get S1 c) as [od | ]; simpl;
      [ | contradiction ].
    destruct (hasColumnChanged od d); simpl;
      [ intros [<- | []]; auto | contradiction ]. }
  apply NoDup_app;
    [ exact Hnew | apply NoDup_app; [ exact Hrem | exact Halt | ] | ].
  - intros k Hr Ha. apply in_map_iff in Hr. apply in_map_iff in Ha.
    destruct Hr as (op & Hk & Hop). destruct Ha as (op' & Hk' & Hop').
    apply in_removedColumns in Hop. apply in_alteredColumns in Hop'.
    destruct Hop as (c & od & -> & E1 & E2).
    destruct Hop' as (c' & od' & d' & -> & E1' & E2' & _).
    simpl in Hk, Hk'. subst k. injection Hk' as ->. congruence.
  - intros k Hn Hra. rewrite <- map_app in Hra.
    apply in_map_iff in Hn. apply in_map_iff in Hra.
    destruct Hn as (op & Hk & Hop). destruct Hra as (op' & Hk' & Hop').
    apply in_newColumns in Hop. destruct Hop as (c & d & -> & E1 & E2).
    simpl in Hk. subst k. apply in_app_iff in Hop'.
    destruct Hop' as [Hop' | Hop'].
    + apply in_removedColumns in Hop'.
      destruct Hop' as (c' & od' & -> & E1' & E2').
      simpl in Hk'. injection Hk' as ->. congruence.
    + apply in_alteredColumns in Hop'.
      destruct Hop' as (c' & od' & d' & -> & E1' & E2' & _).
      simpl in Hk'. injection Hk' as ->. congruence.
Qed.
End Membership.

(** *** Replaying a list of operations about distinct columns *)

Section Replay.
Variable step : SchemaDefinition -> MigrationOperation -> SchemaDefinition.
Variable carries : MigrationOperation -> Prop.
Hypothesis step_other : forall s op c,
  columnName_of op <> Some c -> dict_get (step s op) c = dict_get s c.
Hypothesis step_own : forall s op c,
  carries op -> columnName_of op = Some c ->
  dict_get (step s op) c = dict_get (step [] op) c.

Lemma fold_step_lookup (ops : list MigrationOperation) (c : string) :
  NoDup (map columnName_of ops) ->
  (forall op, In op ops -> carries op) ->
  forall s,
    (forall op, In op ops -> columnName_of op = Some c ->
                dict_get (fold_left step ops s) c = dict_get (step [] op) c)
    /\ ((forall op, In op ops -> columnName_of op <> Some c) ->
        dict_get (fold_left step ops s) c = dict_get s c).
Proof.
  induction ops as [ | op0 ops IH ]; intros Hnd Hok s; simpl.
  - split; [ intros op [] | reflexivity ].
  - inversion Hnd as [ | ? ? Hnotin Hnd' ]; subst.
    assert (Hok' : forall op, In op ops -> carries op)
      by (intros op Hin; apply Hok; right; exact Hin).
    destruct (IH Hnd' Hok' (step s op0)) as [IHown IHother].
    split.
    + intros op [-> | Hin] Hc.
      * rewrite IHother.
        -- apply step_own; [ apply Hok; left; reflexivity | exact Hc ].
        -- intros op' Hin' Hc'. apply Hnotin. rewrite Hc, <- Hc'.
           apply in_map, Hin'.
      * apply IHown; assumption.
    + intros Hnone. rewrite IHother.
      * apply step_other, Hnone. left. reflexivity.
      * intros op Hin. apply Hnone. right. exact Hin.
Qed.
End Replay.

Lemma forward_other s op c :
  columnName_of op <> Some c ->
  dict_get (replay_forward_op s op) c = dict_get s c.
Proof.
  destruct op; simpl; intros Hne; try reflexivity;
    first [ apply dict_get_set_ne | apply dict_get_delete_ne ]; congruence.
Qed.

Lemma forward_own s op c :
  True -> columnName_of op = Some c ->
  dict_get (replay_forward_op s op) c = dict_get (replay_forward_op [] op) c.
Proof.
  destruct op; simpl; intros _ Hc; try discriminate; injection Hc as ->;
    rewrite ?dict_get_set_eq, ?dict_get_delete_eq, ?String.eqb_refl;
    reflexivity.
Qed.

Lemma reverse_other s op c :
  columnName_of op <> Some c ->
  dict_get (replay_reverse_op s op) c = dict_get s c.
Proof.
  destruct op as [ | | ? ? ? | ? ? [od | ] | ? ? ? [od | ] ? ]; simpl;
    intros Hne; try reflexivity;
    first [ apply dict_get_set_ne | apply dict_get_delete_ne ]; congruence.
Qed.

Lemma reverse_own s op c :
  carries_old op -> columnName_of op = Some c ->
  dict_get (replay_reverse_op s op) c = dict_get (replay_reverse_op [] op) c.
Proof.
  destruct op as [ | | ? ? ? | ? ? [od | ] | ? ? ? [od | ] ? ]; simpl;
    intros Hok Hc; try discriminate; try contradiction; injection Hc as ->;
    rewrite ?dict_get_set_eq, ?dict_get_delete_eq, ?String.eqb_refl;
    reflexivity.
Qed.

Section RoundTrip.
Variables (t : string) (S1 S2 : SchemaDefinition).
Hypotheses (wf1 : dict_wf S1) (wf2 : dict_wf S2).

Let ops := generateSchemaDiff t S1 S2.

Lemma diff_carries_old (op : MigrationOperation) : In op ops -> carries_old op.
Proof.
  intros Hin. apply (in_diff_iff t S1 S2 wf2) in Hin.
  destruct Hin as [ (c & d & -> & _) | [ (c & od & -> & _)
                  | (c & od & d & -> & _) ] ]; exact I.
Qed.

(** An operation of the diff about column [c] contradicts the lookups at
    hand. *)
Ltac no_operation_about c :=
  let op := fresh "op" in
  let Hin := fresh "Hin" in
  let Hc := fresh "Hc" in
  intros op Hin Hc; apply (in_diff_iff t S1 S2 wf2) in Hin;
  destruct Hin as [ (? & ? & -> & ? & ?) | [ (? & ? & -> & ? & ?)
                  | (? & ? & ? & -> & ? & ? & ?) ] ];
  simpl in Hc; injection Hc as ->; congruence.

(** What a column holds after the forward replay: the new definition when
    the diff has an operation for the column, the old one otherwise. *)
Lemma replay_forward_lookup (c : string) :
  dict_get (replay_forward ops S1) c
  = match dict_get S1 c, dict_get S2 c with
    | Some od, Some d => if hasColumnChanged od d then Some d else Some od
    | _, new => new
    end.
Proof.
  destruct (fold_step_lookup replay_forward_op (fun _ => True)
              forward_other forward_own ops c
              (diff_columns_NoDup t S1 S2 wf1 wf2) (fun _ _ => I) S1)
    as [Hown Hother].
  unfold replay_forward.
  destruct (dict_get S1 c) as [od | ] eqn:E1;
    destruct (dict_get S2 c) as [d | ] eqn:E2.
  - destruct (hasColumnChanged od d) eqn:Ech.
    + rewrite (Hown _ (in_diff_alter t S1 S2 wf2 c od d E1 E2 Ech) eq_refl).
      simpl. rewrite String.eqb_refl. reflexivity.
    + rewrite Hother; [ first [ reflexivity | exact E1 ] | no_operation_about c ].
  - rewrite (Hown _ (in_diff_drop t S1 S2 wf2 c od E1 E2) eq_refl). reflexivity.
  - rewrite (Hown _ (in_diff_add t S1 S2 wf2 c d E1 E2) eq_refl).
    simpl. rewrite String.eqb_refl. reflexivity.
  - rewrite Hother; [ first [ reflexivity | exact E1 ] | no_operation_about c ].
Qed.

(** What a column holds after the reverse replay. *)
Lemma replay_reverse_lookup (c : string) :
  dict_get (replay_reverse ops S2) c
  = match dict_get S1 c, dict_get S2 c with
    | Some od, Some d => if hasColumnChanged od d then Some od else Some d
    | old, _ => old
    end.
Proof.
  assert (Hnd : NoDup (map columnName_of (rev ops))).
  { rewrite map_rev. apply NoDup_rev, diff_columns_NoDup; assumption. }
  assert (Hok : forall op, In op (rev ops) -> carries_old op).
  { intros op Hin. apply diff_carries_old. apply in_rev. exact Hin. }
  destruct (fold_step_lookup replay_reverse_op carries_old
              reverse_other reverse_own (rev ops) c Hnd Hok S2)
    as [Hown Hother].
  unfold replay_reverse.
  assert (Hrev : forall op, In op ops -> In op (rev ops))
    by (intros op Hin; apply in_rev; rewrite rev_involutive; exact Hin).
  assert (Hnone : (forall op, In op ops -> columnName_of op <> Some c) ->
                  forall op, In op (rev ops) -> columnName_of op <> Some c)
    by (intros H op Hin; apply H, in_rev, Hin).
  destruct (dict_get S1 c) as [od | ] eqn:E1;
    destruct (dict_get S2 c) as [d | ] eqn:E2.
  - destruct (hasColumnChanged od d) eqn:Ech.
    + rewrite (Hown _ (Hrev _ (in_diff_alter t S1 S2 wf2 c od d E1 E2 Ech))
                 eq_refl).
      simpl. rewrite String.eqb_refl. reflexivity.
    + rewrite Hother; [ first [ reflexivity | exact E2 ] | apply Hnone; no_operation_about c ].
  - rewrite (Hown _ (Hrev _ (in_diff_drop t S1 S2 wf2 c od E1 E2)) eq_refl).
    simpl. rewrite String.eqb_refl. reflexivity.
  - rewrite (Hown _ (Hrev _ (in_diff_add t S1 S2 wf2 c d E1 E2)) eq_refl).
    reflexivity.
  - rewrite Hother; [ first [ reflexivity | exact E2 ] | apply Hnone; no_operation_about c ].
Qed.
End RoundTrip.

(** C1 as stated fails: a column whose only change is its [comment] gets
    no operation, so neither replay reconstructs the other schema. *)
Lemma round_trip_fails_on_comment :
  ~ (forall (t : string) (S1 S2 : SchemaDefinition),
        dict_wf S1 -> dict_wf S2 ->
        dict_equiv (replay_forward (generateSchemaDiff t S1 S2) S1) S2
        /\ dict_equiv (replay_reverse (generateSchemaDiff t S1 S2) S2) S1).
Proof.
  intros H.
  set (S1 := [("name", with_comment (Some "first name") (column Tstring))]).
  set (S2 := [("name", with_comment (Some "full name") (column Tstring))]).
  assert (wf1 : dict_wf S1)
    by (repeat constructor; simpl; intuition discriminate).
  assert (wf2 : dict_wf S2)
    by (repeat constructor; simpl; intuition discriminate).
  destruct (H "users" S1 S2 wf1 wf2) as [Hfwd _].
  specialize (Hfwd "name"). vm_compute in Hfwd. discriminate.
Qed.

(** C1, amended: for two schemas none of whose column names is a member
    inherited from [Object.prototype], replaying the forward operations of
    the diff over [S1] gives the columns of [S2], each with a definition
    equal to the one of [S2] up to its [comment]; replaying the reverse
    operations over [S2] gives the columns of [S1] in the same sense; and
    both replays reconstruct the other schema exactly when the columns the
    two schemas share carry the same comments. *)
Theorem diff_round_trip (t : string) (S1 S2 : SchemaDefinition) :
  dict_wf S1 -> dict_wf S2 ->
  ordinary_names S1 = true -> ordinary_names S2 = true ->
  let ops := generateSchemaDiff t S1 S2 in
  (forall c, same_modulo_comment (dict_get (replay_forward ops S1) c)
                                 (dict_get S2 c))
  /\ (forall c, same_modulo_comment (dict_get (replay_reverse ops S2) c)
                                    (dict_get S1 c))
  /\ ((forall c od d, dict_get S1 c = Some od -> dict_get S2 c = Some d ->
                      comment od = comment d) ->
      dict_equiv (replay_forward ops S1) S2
      /\ dict_equiv (replay_reverse ops S2) S1).
Proof.
  intros wf1 wf2 _ _ ops. subst ops.
  split; [ | split ].
  - intros c. rewrite replay_forward_lookup by assumption.
    destruct (dict_get S1 c) as [od | ] eqn:E1;
      destruct (dict_get S2 c) as [d | ] eqn:E2; simpl; auto.
    destruct (hasColumnChanged od d) eqn:Ech; simpl; [ reflexivity | ].
    apply hasColumnChanged_false_iff, Ech.
  - intros c. rewrite replay_reverse_lookup by assumption.
    destruct (dict_get S1 c) as [od | ] eqn:E1;
      destruct (dict_get S2 c) as [d | ] eqn:E2; simpl; auto.
    destruct (hasColumnChanged od d) eqn:Ech; simpl; [ reflexivity | ].
    symmetry. apply hasColumnChanged_false_iff, Ech.
  - intros Hcomments. split; intros c.
    + rewrite replay_forward_lookup by assumption.
      destruct (dict_get S1 c) as [od | ] eqn:E1;
        destruct (dict_get S2 c) as [d | ] eqn:E2; try reflexivity.
      destruct (hasColumnChanged od d) eqn:Ech; [ reflexivity | ].
      f_equal. apply normalized_comment_eq; [ | eauto ].
      apply hasColumnChanged_false_iff, Ech.
    + rewrite replay_reverse_lookup by assumption.
      destruct (dict_get S1 c) as [od | ] eqn:E1;
        destruct (dict_get S2 c) as [d | ] eqn:E2; try reflexivity.
      destruct (hasColumnChanged od d) eqn:Ech; [ reflexivity | ].
      f_equal. symmetry. apply normalized_comment_eq; [ | eauto ].
      apply hasColumnChanged_false_iff, Ech.
Qed.

Lemma diff_round_trip_witness :
  dict_equiv
    (replay_forward (generateSchemaDiff "users" users_schema accounts_schema)
                    users_schema)
    accounts_schema
  /\ dict_equiv
       (replay_reverse (generateSchemaDiff "users" users_schema accounts_schema)
                       accounts_schema)
       users_schema.
Proof.
  apply (diff_round_trip "users" users_schema accounts_schema
           users_schema_wf accounts_schema_wf eq_refl eq_refl).
  intros c od d H1 H2.
  unfold users_schema, accounts_schema in H1, H2.
  cbn [dict_get] in H1, H2.
  destruct (String.eqb "id" c).
  - injection H1 as <-. injection H2 as <-. reflexivity.
  - destruct (String.eqb "name" c).
    + injection H1 as <-. injection H2 as <-. reflexivity.
    + destruct (String.eqb_spec "status" c) as [<- | _];
        [ discriminate H2 | discriminate H1 ].
Defined.

End DifferFacts.

(** ** The migration aggregator *)

Module MergeFacts.
Import MigrationParser.

Section Sorting.
Variable localeCompare : string -> string -> Z.

(** The comparator orders any two names one way or the other. *)
Hypothesis localeCompare_total : forall a b,
  localeCompare a b <= 0 \/ localeCompare b a <= 0.

Lemma sort_insert_perm (m : ParsedMigration) (l : list ParsedMigration) :
  Permutation (m :: l) (sort_insert localeCompare m l).
Proof.
  induction l as [ | x l IH ]; simpl; [ apply Permutation_refl | ].
  destruct (localeCompare (migrationFile m) (migrationFile x) <=? 0).
  - apply Permutation_refl.
  - eapply perm_trans; [ apply perm_swap | ]. apply perm_skip, IH.
Qed.

Lemma sort_perm (l : list ParsedMigration) :
  Permutation l (sort localeCompare l).
Proof.
  induction l as [ | m l IH ]; simpl; [ constructor | ].
  eapply perm_trans; [ apply perm_skip, IH | apply sort_insert_perm ].
Qed.

Lemma sort_insert_hd (m a : ParsedMigration) (l : list ParsedMigration) :
  file_le localeCompare a m -> HdRel (file_le localeCompare) a l ->
  HdRel (file_le localeCompare) a (sort_insert localeCompare m l).
Proof.
  intros Ham Hal. destruct l as [ | x l ]; simpl.
  - constructor. exact Ham.
  - destruct (localeCompare (migrationFile m) (migrationFile x) <=? 0);
      constructor; [ exact Ham | ].
    inversion Hal; assumption.
Qed.

Lemma sort_insert_sorted (m : ParsedMigration) (l : list ParsedMigration) :
  Sorted (file_le localeCompare) l ->
  Sorted (file_le localeCompare) (sort_insert localeCompare m l).
Proof.
  induction l as [ | x l IH ]; simpl; intros Hs.
  - repeat constructor.
  - inversion Hs as [ | ? ? Hs' Hhd ]; subst.
    destruct (Z.leb_spec (localeCompare (migrationFile m) (migrationFile x)) 0)
      as [Hle | Hgt].
    + constructor; [ exact Hs | constructor; exact Hle ].
    + constructor; [ apply IH, Hs' | ].
      apply sort_insert_hd; [ | exact Hhd ].
      destruct (localeCompare_total (migrationFile m) (migrationFile x));
        [ lia | assumption ].
Qed.

Lemma sort_sorted (l : list ParsedMigration) :
  Sorted (file_le localeCompare) (sort localeCompare l).
Proof.
  induction l as [ | m l IH ]; simpl; [ constructor | ].
  apply sort_insert_sorted, IH.
Qed.
End Sorting.





Lemma codeUnitCompare_total (a b : string) :
  codeUnitCompare a b <= 0 \/ codeUnitCompare b a <= 0.
Proof.
  unfold codeUnitCompare. rewrite (String.compare_antisym a b).
  destruct (String.compare b a); simpl; lia.
Qed.


End MergeFacts.

(** ** The migration text generator *)

Module GeneratorFacts.
Import MigrationGenerator.

(** *** Grouping by table *)

Lemma pushOperation_get tableGroups op t :
  dict_get (pushOperation tableGroups op) t
  = if String.eqb (tableName_of op) t
    then Some (match dict_get tableGroups t with
               | Some ops => ops
               | None => []
               end ++ [op])%list
    else dict_get tableGroups t.
Proof.
  unfold pushOperation.
  destruct (String.eqb_spec (tableName_of op) t) as [<- | Hne].
  - destruct (dict_get tableGroups (tableName_of op)) as [ops | ] eqn:E.
    + rewrite E. apply dict_get_set_eq.
    + rewrite dict_get_set_eq. apply dict_get_set_eq.
  - destruct (dict_get tableGroups (tableName_of op)) as [ops | ] eqn:E.
    + rewrite E. apply dict_get_set_ne, Hne.
    + rewrite dict_get_set_eq. rewrite !dict_get_set_ne by exact Hne.
      reflexivity.
Qed.

Lemma pushOperation_wf tableGroups op :
  dict_wf tableGroups -> dict_wf (pushOperation tableGroups op).
Proof.
  intros Hwf. unfold pushOperation.
  destruct (dict_get tableGroups (tableName_of op)) as [ops | ] eqn:E.
  - rewrite E. apply dict_set_wf, Hwf.
  - rewrite dict_get_set_eq. apply dict_set_wf, dict_set_wf, Hwf.
Qed.

Lemma fold_pushOperation_wf ops tableGroups :
  dict_wf tableGroups -> dict_wf (fold_left pushOperation ops tableGroups).
Proof.
  revert tableGroups. induction ops as [ | op ops IH ]; simpl; intros g Hwf;
    [ exact Hwf | apply IH, pushOperation_wf, Hwf ].
Qed.

Lemma fold_pushOperation_get ops tableGroups t :
  dict_get (fold_left pushOperation ops tableGroups) t
  = match dict_get tableGroups t, on_table t ops with
    | None, [] => None
    | None, l => Some l
    | Some g, l => Some (g ++ l)%list
    end.
Proof.
  revert tableGroups. induction ops as [ | op ops IH ]; intros g; simpl.
  - destruct (dict_get g t); [ rewrite app_nil_r | ]; reflexivity.
  - rewrite IH, pushOperation_get. unfold on_table. simpl.
    destruct (String.eqb (tableName_of op) t).
    + destruct (dict_get g t) as [g0 | ]; simpl;
        [ rewrite <- app_assoc | ]; reflexivity.
    + reflexivity.
Qed.

(** A group holds the operations of its table, all of them and in their
    original order. *)
Lemma tableGroups_of_spec operations t ops :
  In (t, ops) (tableGroups_of operations) -> ops = on_table t operations.
Proof.
  intros Hin. unfold tableGroups_of in Hin.
  apply dict_get_In in Hin;
    [ | apply fold_pushOperation_wf; constructor ].
  rewrite fold_pushOperation_get in Hin. simpl in Hin.
  destruct (on_table t operations); [ discriminate | ].
  injection Hin as <-. reflexivity.
Qed.

Lemma groupOperationsByTable_spec operations group :
  In group (groupOperationsByTable operations) ->
  group_operations group = on_table (group_tableName group) operations
  /\ canGroup group = canGroupOperations (group_operations group).
Proof.
  unfold groupOperationsByTable. intros Hin. apply in_map_iff in Hin.
  destruct Hin as ([t ops] & <- & Hin). simpl.
  split; [ apply tableGroups_of_spec, Hin | reflexivity ].
Qed.

(** *** Batching *)

Lemma groupable_batchable op : groupable op = true <-> batchable op.
Proof.
  destruct op as [ | | | | ? ? ? ? [[ | | ] | ] ]; simpl;
    split; intros H; try reflexivity; try exact I;
    try discriminate; try contradiction.
Qed.

Lemma raw_or_recreate_not_groupable op :
  raw_or_recreate op -> groupable op = false.
Proof.
  destruct op as [ | | | | ? ? ? ? [[ | | ] | ] ]; simpl;
    intros H; try reflexivity; contradiction.
Qed.

Lemma canGroupOperations_false ops :
  Exists raw_or_recreate ops -> canGroupOperations ops = false.
Proof.
  unfold canGroupOperations. induction 1 as [ op ops H | op ops _ IH ]; simpl.
  - rewrite (raw_or_recreate_not_groupable op H). reflexivity.
  - rewrite IH. apply andb_false_r.
Qed.

(** C8 as stated fails: with a [raw] alteration after two additions on one
    table, the two additions are not emitted as a batch. *)
Lemma safe_remainder_is_not_batched :
  ~ (forall (t : string) (ops : list MigrationOperation) (ups : list string),
        (forall op, In op ops -> tableName_of op = t) ->
        Exists raw_or_recreate ops ->
        upOperations ops = Some ups ->
        In (generateGroupedAlterTable t (filter groupable ops) up) ups).
Proof.
  intros H.
  assert (Hraw : Exists raw_or_recreate mixed_operations)
    by (right; right; left; exact I).
  assert (Htable : forall op, In op mixed_operations ->
                              tableName_of op = "users").
  { intros op [<- | [<- | [<- | []]]]; reflexivity. }
  specialize (H "users" mixed_operations _ Htable Hraw eq_refl).
  vm_compute in H.
  destruct H as [H | [H | [H | []]]]; discriminate H.
Qed.

Lemma fold_pushOperation_single t ops :
  (forall op, In op ops -> tableName_of op = t) ->
  forall g, fold_left pushOperation ops [(t, g)] = [(t, (g ++ ops)%list)].
Proof.
  induction ops as [ | op ops IH ]; intros Hall g; simpl.
  - rewrite app_nil_r. reflexivity.
  - assert (Ht : tableName_of op = t) by (apply Hall; left; reflexivity).
    unfold pushOperation at 2. rewrite Ht. simpl. rewrite String.eqb_refl.
    simpl. rewrite String.eqb_refl.
    rewrite IH by (intros op' Hin; apply Hall; right; exact Hin).
    rewrite <- app_assoc. reflexivity.
Qed.

Lemma single_table_group t ops :
  ops <> [] -> (forall op, In op ops -> tableName_of op = t) ->
  groupOperationsByTable ops = [mkTableGroup t ops (canGroupOperations ops)].
Proof.
  intros Hne Hall. destruct ops as [ | op ops ]; [ congruence | ].
  unfold groupOperationsByTable, tableGroups_of. simpl.
  assert (Ht : tableName_of op = t) by (apply Hall; left; reflexivity).
  unfold pushOperation at 2. rewrite Ht. simpl. rewrite String.eqb_refl.
  rewrite fold_pushOperation_single
    by (intros op' Hin; apply Hall; right; exact Hin).
  reflexivity.
Qed.

Lemma emitGroups_single direction group :
  emitGroups direction [group] = emitGroup direction group.
Proof.
  unfold emitGroups. cbn [traverse].
  destruct (emitGroup direction group) as [out | ]; [ | reflexivity ].
  simpl. rewrite app_nil_r. reflexivity.
Qed.

Lemma on_table_all t operations :
  forall op, In op (on_table t operations) -> tableName_of op = t.
Proof.
  intros op Hin. unfold on_table in Hin. apply filter_In in Hin.
  apply String.eqb_eq, Hin.
Qed.

Lemma group_is_on_table operations group :
  In group (groupOperationsByTable operations) ->
  let ops := on_table (group_tableName group) operations in
  ops <> []
  /\ group = mkTableGroup (group_tableName group) ops (canGroupOperations ops).
Proof.
  intros Hin ops. subst ops.
  destruct (groupOperationsByTable_spec _ _ Hin) as [Hops Hcan].
  split.
  - unfold groupOperationsByTable in Hin. apply in_map_iff in Hin.
    destruct Hin as ([t g] & <- & Hin). simpl.
    unfold tableGroups_of in Hin.
    apply dict_get_In in Hin; [ | apply fold_pushOperation_wf; constructor ].
    rewrite fold_pushOperation_get in Hin. simpl in Hin.
    destruct (on_table t operations); [ discriminate | discriminate ].
  - destruct group as [t g b]. simpl in *. subst. reflexivity.
Qed.

Lemma single_table_up t ops :
  ops <> [] -> (forall op, In op ops -> tableName_of op = t) ->
  upOperations ops = emitGroup up (mkTableGroup t ops (canGroupOperations ops))
  /\ downOperations ops
     = emitGroup down (mkTableGroup t ops (canGroupOperations ops)).
Proof.
  intros Hne Hall. unfold upOperations, downOperations.
  rewrite (single_table_group t ops Hne Hall). simpl rev.
  split; apply emitGroups_single.
Qed.

Lemma traverse_map_ext {A B C : Type} (f : A -> option C) (g : B -> option C)
  (h : A -> B) (l : list A) :
  (forall x, In x l -> f x = g (h x)) ->
  traverse f l = traverse g (map h l).
Proof.
  induction l as [ | x l IH ]; simpl; intros H; [ reflexivity | ].
  rewrite <- (H x) by (left; reflexivity).
  rewrite <- IH by (intros y Hy; apply H; right; exact Hy).
  reflexivity.
Qed.

Lemma not_batchable_cannot_group ops :
  ~ Forall batchable ops -> canGroupOperations ops = false.
Proof.
  intros H. destruct (canGroupOperations ops) eqn:E; [ | reflexivity ].
  exfalso. apply H. unfold canGroupOperations in E.
  rewrite forallb_forall in E. apply Forall_forall.
  intros op Hop. apply groupable_batchable, E, Hop.
Qed.

Lemma batchable_can_group ops :
  Forall batchable ops -> canGroupOperations ops = true.
Proof.
  intros H. unfold canGroupOperations. apply forallb_forall.
  rewrite Forall_forall in H. intros op Hop. apply groupable_batchable, H, Hop.
Qed.

Lemma raw_or_recreate_not_batchable ops :
  Exists raw_or_recreate ops -> ~ Forall batchable ops.
Proof.
  intros Hex Hall. apply batchable_can_group in Hall.
  rewrite (canGroupOperations_false _ Hex) in Hall. discriminate.
Qed.

(** C8, amended: the up text is made table by table, in the order in
    which the tables first appear, and the down text in the reverse order
    of the tables.  The operations of one table are emitted as one
    composite [alterTable] only if every one of them is an [addColumn], a
    [dropColumn] or an [alterColumn] whose [alterationType] is [alter] (or
    absent): then, when there are at least two, the up text holds the
    composite of the operations in their order and the down text the
    composite of the operations in reverse order.  When one of them is not
    of these kinds (a [raw] or a [recreate] alteration), or when the table
    has a single operation, no batch is formed: every operation of the
    table, safe ones included, is emitted as an instruction of its own, in
    original order in the up text and in reverse order in the down
    text. *)
Theorem grouping_for_emission (operations : list MigrationOperation) :
  let tables := map group_tableName (groupOperationsByTable operations) in
  upOperations operations
  = option_map (@List.concat string)
      (traverse (fun t => upOperations (on_table t operations)) tables)
  /\ downOperations operations
     = option_map (@List.concat string)
         (traverse (fun t => downOperations (on_table t operations))
                   (rev tables))
  /\ (forall t, In t tables ->
        let ops := on_table t operations in
        (Forall batchable ops -> (2 <= List.length ops)%nat ->
         upOperations ops = Some [ generateGroupedAlterTable t ops up ]
         /\ downOperations ops
            = Some [ generateGroupedAlterTable t (rev ops) down ])
        /\ (~ Forall batchable ops \/ (List.length ops < 2)%nat ->
            upOperations ops
            = traverse (fun op => generateMigrationOperation op up) ops
            /\ downOperations ops
               = traverse (fun op => generateMigrationOperation op down)
                          (rev ops)))
  /\ (operations <> [] ->
      forall name,
        generateAlterTableMigration operations name
        = match upOperations operations, downOperations operations with
          | Some ups, Some downs =>
              Some (migrationFileText (join (nl ++ nl ++ "  ") ups)
                                      (join (nl ++ nl ++ "  ") downs))
          | _, _ => None
          end).
Proof.
  intros tables. subst tables.
  assert (Hgroup : forall direction group,
             In group (groupOperationsByTable operations) ->
             emitGroup direction group
             = match direction with
               | up => upOperations
               | down => downOperations
               end (on_table (group_tableName group) operations)).
  { intros direction group Hin.
    destruct (group_is_on_table _ _ Hin) as [Hne Hg].
    destruct (single_table_up _ _ Hne (on_table_all _ operations))
      as [Hup Hdown].
    rewrite Hg at 1. destruct direction; symmetry; assumption. }
  split; [ | split; [ | split ] ].
  - unfold upOperations at 1. unfold emitGroups. f_equal.
    apply traverse_map_ext. intros group Hin. apply (Hgroup up), Hin.
  - unfold downOperations at 1. unfold emitGroups. f_equal.
    rewrite <- map_rev. apply traverse_map_ext.
    intros group Hin. apply (Hgroup down), in_rev, Hin.
  - intros t Hin ops. apply in_map_iff in Hin.
    destruct Hin as (group & <- & Hin).
    destruct (group_is_on_table _ _ Hin) as [Hne _].
    destruct (single_table_up _ _ Hne (on_table_all _ operations))
      as [Hup Hdown].
    fold ops in Hne, Hup, Hdown. rewrite Hup, Hdown.
    unfold emitGroup, batched. simpl. split.
    + intros Hall Hlen. rewrite (batchable_can_group _ Hall).
      replace (1 <? Z.of_nat (List.length ops)) with true
        by (symmetry; apply Z.ltb_lt; lia).
      split; reflexivity.
    + intros [Hnot | Hlen].
      * rewrite (not_batchable_cannot_group _ Hnot). split; reflexivity.
      * replace (1 <? Z.of_nat (List.length ops)) with false
          by (symmetry; apply Z.ltb_ge; lia).
        rewrite andb_false_r. split; reflexivity.
  - intros Hne name. unfold generateAlterTableMigration.
    destruct operations as [ | op0 ops ]; [ congruence | ].
    destruct (upOperations (op0 :: ops)); [ | reflexivity ].
    destruct (downOperations (op0 :: ops)); reflexivity.
Qed.

Lemma grouping_for_emission_witness :
  upOperations (on_table "users" mixed_operations)
  = traverse (fun op => generateMigrationOperation op up)
             (on_table "users" mixed_operations)
  /\ downOperations (on_table "users" mixed_operations)
     = traverse (fun op => generateMigrationOperation op down)
                (rev (on_table "users" mixed_operations)).
Proof.
  destruct (grouping_for_emission mixed_operations) as (_ & _ & Hgroup & _).
  destruct (Hgroup "users") as [_ Hstandalone]; [ left; reflexivity | ].
  apply Hstandalone. left. apply raw_or_recreate_not_batchable.
  right; right; left; exact I.
Defined.

(** *** Reversal without the old definition *)

Lemma prefix_append (needle rest : string) :
  String.prefix needle (needle ++ rest) = true.
Proof.
  induction needle as [ | a needle IH ]; simpl.
  - destruct rest; reflexivity.
  - destruct (ascii_dec a a) as [_ | Hne]; [ exact IH | congruence ].
Qed.

Lemma includes_prefix (needle rest : string) :
  includes needle (needle ++ rest) = true.
Proof.
  pose proof (prefix_append needle rest) as H.
  destruct (needle ++ rest); cbn [includes]; rewrite H; reflexivity.
Qed.

Lemma placeholder_line_filtered (op : MigrationOperation) :
  lacks_oldDefinition op ->
  includes "// TODO:" (groupedColumnOperation down op) = true.
Proof.
  destruct op as [ | | | ? c [od | ] | ? c ? [od | ] ? ]; simpl;
    intros H; try contradiction.
  - exact (includes_prefix "// TODO:"
             (" Add back column '" ++ c ++ "' with proper definition")).
  - exact (includes_prefix "// TODO:"
             (" Reverse alteration for column '" ++ c ++ "'")).
Qed.

Lemma columnOperations_skip before op after :
  lacks_oldDefinition op ->
  columnOperations (before ++ op :: after) down
  = columnOperations (before ++ after) down.
Proof.
  intros H. unfold columnOperations.
  rewrite !map_app, !filter_app. simpl map. simpl filter.
  rewrite (placeholder_line_filtered op H). reflexivity.
Qed.

(** Upwards a [raw] alteration needs the old definition: without it the
    rendering, and with it the whole migration text, is not produced. *)
Lemma raw_without_oldDefinition_up (t c name : string) (d : ColumnDefinition) :
  generateMigrationOperation (alterColumn t c d None (Some raw)) up = None
  /\ generateAlterTableMigration [alterColumn t c d None (Some raw)] name
     = None.
Proof.
  split; [ reflexivity | ].
  unfold generateAlterTableMigration, upOperations, groupOperationsByTable,
    tableGroups_of, pushOperation.
  simpl. rewrite !String.eqb_refl. reflexivity.
Qed.

(** C9 as stated fails on the batched path: the down text of a group that
    holds a [dropColumn] without [oldDefinition] has no placeholder for
    it. *)
Lemma batched_path_drops_the_placeholder :
  ~ (forall (ops : list MigrationOperation) (name out t c : string),
        In (dropColumn t c None) ops ->
        generateAlterTableMigration ops name = Some out ->
        includes ("// TODO: Add back column '" ++ c ++ "'") out = true).
Proof.
  intros H.
  specialize (H unretained_operations "alter_users"
                _ "users" "legacy" (or_intror (or_introl eq_refl)) eq_refl).
  vm_compute in H. discriminate H.
Qed.

(** C9, amended: rendering any operation downwards does not fail.  On the
    standalone path a [dropColumn] or an [alterColumn] (whatever its
    [alterationType]) without [oldDefinition] is rendered as a manual-action
    placeholder and no column definition.  On the batched path the line of
    such an operation is filtered out of the composite [alterTable], which
    reads as if the operation were not in the group; a group of such
    operations only is rendered as the comment that it has no valid
    operation. *)
Theorem reversal_without_oldDefinition :
  (forall op, generateMigrationOperation op down <> None)
  /\ (forall t c,
         generateMigrationOperation (dropColumn t c None) down
         = Some ("// TODO: Add back column '" ++ c ++ "' with proper definition"))
  /\ (forall t c d a,
         generateMigrationOperation (alterColumn t c d None a) down
         = Some ("// TODO: Reverse alteration for column '" ++ c ++ "'"))
  /\ (forall t before op after,
         lacks_oldDefinition op ->
         generateGroupedAlterTable t (before ++ op :: after) down
         = generateGroupedAlterTable t (before ++ after) down)
  /\ (forall t ops,
         Forall lacks_oldDefinition ops ->
         generateGroupedAlterTable t ops down
         = "// No valid operations for table '" ++ t ++ "'").
Proof.
  split; [ | split; [ | split; [ | split ] ] ].
  - intros [ | | ? ? ? | ? ? [od | ] | ? ? ? [od | ] [[ | | ] | ] ]; simpl;
      discriminate.
  - reflexivity.
  - intros t c d [[ | | ] | ]; reflexivity.
  - intros t before op after H. unfold generateGroupedAlterTable.
    rewrite (columnOperations_skip before op after H). reflexivity.
  - intros t ops H. unfold generateGroupedAlterTable.
    assert (E : columnOperations ops down = []).
    { induction H as [ | op ops Hop _ IH ]; [ reflexivity | ].
      change (op :: ops) with ([] ++ op :: ops)%list.
      rewrite (columnOperations_skip [] op ops Hop). exact IH. }
    rewrite E. reflexivity.
Qed.

Lemma reversal_without_oldDefinition_witness :
  generateGroupedAlterTable "users" unretained_operations down
  = generateGroupedAlterTable "users"
      [ addColumn "users" "phone" (with_maxLength (Some 20) (column Tstring)) ]
      down.
Proof.
  destruct reversal_without_oldDefinition as (_ & _ & _ & Hskip & _).
  apply (Hskip "users"
           [ addColumn "users" "phone"
               (with_maxLength (Some 20) (column Tstring)) ]
           (dropColumn "users" "legacy" None) []).
  exact I.
Defined.

End GeneratorFacts.



(** ** The call extractor *)

Module ExtractorFacts.
Import Regex CallExtractor.

(** *** Strings *)

Lemma append_assoc (a b c : string) : (a ++ b) ++ c = a ++ (b ++ c).
Proof. induction a as [ | x a IH ]; simpl; [ | rewrite IH ]; reflexivity. Qed.

Lemma append_nil_r (a : string) : a ++ "" = a.
Proof. induction a as [ | x a IH ]; simpl; [ | rewrite IH ]; reflexivity. Qed.

Lemma length_append (a b : string) :
  String.length (a ++ b) = (String.length a + String.length b)%nat.
Proof. induction a as [ | x a IH ]; simpl; [ | rewrite IH ]; reflexivity. Qed.

Lemma substring_prefix (a b : string) :
  substring 0 (String.length a) (a ++ b) = a.
Proof.
  induction a as [ | x a IH ]; simpl.
  - destruct b; reflexivity.
  - rewrite IH. reflexivity.
Qed.

Lemma consumed_append (a b : string) : consumed (a ++ b) b = a.
Proof.
  unfold consumed. rewrite length_append.
  replace (String.length a + String.length b - String.length b)%nat
    with (String.length a) by lia.
  apply substring_prefix.
Qed.

Lemma strip_prefix_spec (p s rest : string) :
  strip_prefix p s = Some rest -> s = p ++ rest.
Proof.
  revert s. induction p as [ | a p IH ]; intros s; simpl.
  - intros H. injection H as ->. reflexivity.
  - destruct s as [ | b s ]; [ discriminate | ].
    destruct (Ascii.eqb_spec a b) as [-> | _]; [ | discriminate ].
    intros H. rewrite (IH _ H). reflexivity.
Qed.

Lemma strip_prefix_append (p rest : string) :
  strip_prefix p (p ++ rest) = Some rest.
Proof.
  induction p as [ | a p IH ]; simpl; [ reflexivity | ].
  rewrite Ascii.eqb_refl. exact IH.
Qed.

(** *** The repetitions *)

Section Repetitions.
Context {R : Type}.
Variables (class : ascii -> bool) (k : string -> option R).

Lemma star_greedy_inv (s : string) (res : R) :
  star_greedy class s k = Some res ->
  exists pre rest,
    s = pre ++ rest /\ all_chars class pre = true /\ k rest = Some res.
Proof.
  induction s as [ | c s IH ]; simpl.
  - intros H. exists "", "". auto.
  - destruct (class c) eqn:Hc.
    + destruct (star_greedy class s k) as [res' | ] eqn:E.
      * intros H. injection H as ->.
        destruct (IH eq_refl) as (pre & rest & -> & Hall & Hk).
        exists (String c pre), rest. simpl. rewrite Hc, Hall. auto.
      * intros H. exists "", (String c s). auto.
    + intros H. exists "", (String c s). auto.
Qed.

Lemma star_greedy_none (s : string) :
  star_greedy class s k = None -> k s = None.
Proof.
  destruct s as [ | c s ]; simpl; [ auto | ].
  destruct (class c); [ | auto ].
  destruct (star_greedy class s k); [ discriminate | auto ].
Qed.

Lemma star_greedy_complete (pre rest : string) :
  all_chars class pre = true -> k rest <> None ->
  star_greedy class (pre ++ rest) k <> None.
Proof.
  induction pre as [ | c pre IH ]; simpl; intros Hall Hk.
  - intros H. apply Hk, star_greedy_none, H.
  - apply andb_true_iff in Hall. destruct Hall as [Hc Hall].
    rewrite Hc.
    destruct (star_greedy class (pre ++ rest) k) eqn:E; [ discriminate | ].
    exfalso. apply (IH Hall Hk). reflexivity.
Qed.

(** A lazy repetition stops at the first place where the rest of the
    pattern matches. *)
Lemma star_lazy_inv (s : string) (res : R) :
  star_lazy class s k = Some res ->
  exists pre rest,
    s = pre ++ rest /\ k rest = Some res
    /\ forall p1 p2, pre = p1 ++ p2 -> p2 <> "" -> k (p2 ++ rest) = None.
Proof.
  induction s as [ | c s IH ]; simpl.
  - destruct (k "") eqn:E; [ | discriminate ].
    intros H. injection H as ->. exists "", "". repeat split; auto.
    intros p1 p2 Hp Hne. destruct p1; destruct p2; try discriminate.
    congruence.
  - destruct (k (String c s)) eqn:E.
    + intros H. injection H as ->. exists "", (String c s).
      repeat split; auto.
      intros p1 p2 Hp Hne. destruct p1; destruct p2; try discriminate.
      congruence.
    + destruct (class c); [ | discriminate ].
      intros H. destruct (IH H) as (pre & rest & -> & Hk & Hmin).
      exists (String c pre), rest. repeat split; auto.
      intros p1 p2 Hp Hne. destruct p1 as [ | x p1 ]; simpl in Hp.
      * subst p2. exact E.
      * injection Hp as _ Hp. apply (Hmin p1 p2 Hp Hne).
Qed.
End Repetitions.

(** *** The matcher *)

(** A successful match is a successful continuation on a suffix. *)
Lemma rmatch_suffix (r : regex) :
  forall s caps k res,
    rmatch r s caps k = Some res ->
    exists pre s' caps', s = pre ++ s' /\ k s' caps' = Some res.
Proof.
  induction r as [ text | class | greedy class | class | r1 IH1 r2 IH2
                 | r1 IH1 r2 IH2 | n r IH | r IH | ];
    intros s caps k res; simpl.
  - destruct (strip_prefix text s) as [rest | ] eqn:E; [ | discriminate ].
    intros H. exists text, rest, caps. split; [ | exact H ].
    apply strip_prefix_spec, E.
  - destruct s as [ | c rest ]; [ discriminate | ].
    destruct (class c); [ | discriminate ].
    intros H. exists (String c ""), rest, caps. auto.
  - destruct greedy; intros H.
    + destruct (star_greedy_inv _ _ _ _ H) as (pre & rest & -> & _ & Hk).
      exists pre, rest, caps. auto.
    + destruct (star_lazy_inv _ _ _ _ H) as (pre & rest & -> & Hk & _).
      exists pre, rest, caps. auto.
  - destruct s as [ | c rest ]; [ discriminate | ].
    destruct (class c); [ | discriminate ].
    intros H.
    destruct (star_greedy_inv _ _ _ _ H) as (pre & rest' & -> & _ & Hk).
    exists (String c pre), rest', caps. auto.
  - destruct (rmatch r1 s caps k) as [res' | ] eqn:E.
    + intros H. injection H as ->. apply (IH1 _ _ _ _ E).
    + apply IH2.
  - intros H. destruct (IH1 _ _ _ _ H) as (pre1 & s1 & caps1 & -> & H1).
    destruct (IH2 _ _ _ _ H1) as (pre2 & s2 & caps2 & -> & H2).
    exists (pre1 ++ pre2), s2, caps2. split; [ | exact H2 ].
    symmetry. apply append_assoc.
  - intros H. destruct (IH _ _ _ _ H) as (pre & s' & caps' & -> & Hk).
    eauto.
  - destruct (rmatch r s caps (fun s' caps' => Some (s', caps')));
      [ | discriminate ].
    intros H. exists "", s, caps. auto.
  - destruct (at_line_end s); [ | discriminate ].
    intros H. exists "", s, caps. auto.
Qed.

(** Every match the [g] loop reports is a match at some position. *)
Lemma exec_all_In (r : regex) (caps : captures) :
  forall s skip,
    In caps (exec_all r s skip) ->
    exists pre s0 rest, s = pre ++ s0 /\ match_here r s0 = Some (rest, caps).
Proof.
  induction s as [ | c s IH ]; intros skip.
  - destruct skip; simpl; [ | intros [] ].
    destruct (match_here r "") as [[rest caps'] | ] eqn:E; [ | intros [] ].
    intros [<- | []]. exists "", "", rest. auto.
  - destruct skip as [ | skip ]; simpl.
    + destruct (match_here r (String c s)) as [[rest caps'] | ] eqn:E.
      * intros [<- | Hin].
        -- exists "", (String c s), rest. auto.
        -- destruct (IH _ Hin) as (pre & s0 & rest' & -> & Hm).
           exists (String c pre), s0, rest'. auto.
      * intros Hin. destruct (IH _ Hin) as (pre & s0 & rest' & -> & Hm).
        exists (String c pre), s0, rest'. auto.
    + intros Hin. destruct (IH _ Hin) as (pre & s0 & rest' & -> & Hm).
      exists (String c pre), s0, rest'. auto.
Qed.

(** *** Where a callback body ends *)

Lemma closer_sound (x rest : string) (caps caps' : captures) :
  rmatch closer x caps finish = Some (rest, caps') ->
  caps' = caps
  /\ exists blanks,
       x = "}" ++ blanks ++ ")" ++ rest /\ all_chars space blanks = true.
Proof.
  unfold closer, ws. cbn [rmatch].
  destruct (strip_prefix "}" x) as [x1 | ] eqn:E1; [ | discriminate ].
  apply strip_prefix_spec in E1. subst x. intros H.
  destruct (star_greedy_inv _ _ _ _ H) as (blanks & x2 & -> & Hall & Hk).
  destruct (strip_prefix ")" x2) as [x3 | ] eqn:E3; [ | discriminate ].
  apply strip_prefix_spec in E3. subst x2.
  unfold finish in Hk. injection Hk as <- <-.
  split; [ reflexivity | ]. exists blanks. auto.
Qed.

Lemma closer_complete (x : string) (caps : captures) :
  closes_call x -> rmatch closer x caps finish <> None.
Proof.
  intros (blanks & rest & -> & Hall). unfold closer, ws. cbn [rmatch].
  rewrite (strip_prefix_append "}").
  apply star_greedy_complete; [ exact Hall | ].
  rewrite (strip_prefix_append ")"). discriminate.
Qed.

(** *** The matcher, one step at a time *)

Section Greedy.
Context {R : Type}.
Variables (class : ascii -> bool) (k : string -> option R).

Lemma star_greedy_here (rest : string) :
  stops class rest = true -> star_greedy class rest k = k rest.
Proof.
  destruct rest as [ | x rest ]; simpl; [ reflexivity | ].
  destruct (class x); [ discriminate | reflexivity ].
Qed.

Lemma star_greedy_stop (pre rest : string) (res : R) :
  all_chars class pre = true -> stops class rest = true ->
  k rest = Some res -> star_greedy class (pre ++ rest) k = Some res.
Proof.
  intros Hall Hstop Hk. induction pre as [ | c pre IH ]; simpl.
  - rewrite star_greedy_here by exact Hstop. exact Hk.
  - simpl in Hall. apply andb_true_iff in Hall. destruct Hall as [Hc Hall].
    rewrite Hc, (IH Hall). reflexivity.
Qed.
End Greedy.

Lemma rmatch_Seq r1 r2 s caps k :
  rmatch (Seq r1 r2) s caps k
  = rmatch r1 s caps (fun s' caps' => rmatch r2 s' caps' k).
Proof. reflexivity. Qed.

Lemma rmatch_Lit (text rest : string) caps k :
  rmatch (Lit text) (text ++ rest) caps k = k rest caps.
Proof. simpl. rewrite strip_prefix_append. reflexivity. Qed.

Lemma rmatch_Chr class (x : ascii) (rest : string) caps k :
  class x = true ->
  rmatch (Chr class) (String x "" ++ rest) caps k = k rest caps.
Proof. intros H. simpl. rewrite H. reflexivity. Qed.

Lemma rmatch_Star_none class rest caps k :
  stops class rest = true -> rmatch (Star true class) rest caps k = k rest caps.
Proof.
  intros H. simpl.
  exact (star_greedy_here class (fun rest' => k rest' caps) rest H).
Qed.

Lemma rmatch_Star_some class pre rest caps k res :
  all_chars class pre = true -> stops class rest = true ->
  k rest caps = Some res ->
  rmatch (Star true class) (pre ++ rest) caps k = Some res.
Proof.
  intros Hall Hstop Hk. simpl.
  exact (star_greedy_stop class (fun rest' => k rest' caps) pre rest res
           Hall Hstop Hk).
Qed.

Lemma rmatch_Group_Star n class pre rest caps k res :
  all_chars class pre = true -> stops class rest = true ->
  k rest ((n, pre) :: caps) = Some res ->
  rmatch (Group n (Star true class)) (pre ++ rest) caps k = Some res.
Proof.
  intros Hall Hstop Hk. simpl.
  apply (star_greedy_stop class
           (fun rest' => k rest' ((n, consumed (pre ++ rest) rest') :: caps)));
    [ exact Hall | exact Hstop | ].
  rewrite consumed_append. exact Hk.
Qed.

Lemma rmatch_Group_Plus n class pre rest caps k res :
  pre <> "" -> all_chars class pre = true -> stops class rest = true ->
  k rest ((n, pre) :: caps) = Some res ->
  rmatch (Group n (Plus class)) (pre ++ rest) caps k = Some res.
Proof.
  intros Hne Hall Hstop Hk. destruct pre as [ | c pre ]; [ congruence | ].
  cbn [rmatch append]. simpl in Hall.
  apply andb_true_iff in Hall. destruct Hall as [Hc Hall]. rewrite Hc.
  apply (star_greedy_stop class
           (fun rest' =>
              k rest' ((n, consumed (String c (pre ++ rest)) rest') :: caps)));
    [ exact Hall | exact Hstop | ].
  change (String c (pre ++ rest)) with (String c pre ++ rest).
  rewrite consumed_append. exact Hk.
Qed.

Lemma rmatch_Alt_first r1 r2 s caps k res :
  rmatch r1 s caps k = Some res -> rmatch (Alt r1 r2) s caps k = Some res.
Proof. intros H. simpl. rewrite H. reflexivity. Qed.

Lemma rmatch_Alt_second r1 r2 s caps k :
  rmatch r1 s caps k = None ->
  rmatch (Alt r1 r2) s caps k = rmatch r2 s caps k.
Proof. intros H. simpl. rewrite H. reflexivity. Qed.

Lemma match_first_here r s rest caps :
  match_here r s = Some (rest, caps) -> match_first r s = Some caps.
Proof. intros H. destruct s; simpl; rewrite H; reflexivity. Qed.

(** *** The loop over the matches *)

Lemma exec_all_skip r (p rest : string) :
  exec_all r (p ++ rest) (String.length p) = exec_all r rest 0.
Proof. induction p as [ | a p IH ]; simpl; [ reflexivity | exact IH ]. Qed.

(** A match at the start of the text is reported first, and the search
    resumes behind it. *)
Lemma exec_all_step r (piece rest : string) caps :
  piece <> "" ->
  match_here r (piece ++ rest) = Some (rest, caps) ->
  exec_all r (piece ++ rest) 0 = caps :: exec_all r rest 0.
Proof.
  intros Hne H. destruct piece as [ | a p ]; [ congruence | ].
  change (String a p ++ rest) with (String a (p ++ rest)) in *.
  cbn [exec_all]. rewrite H. f_equal.
  replace (String.length (String a (p ++ rest)) - String.length rest - 1)%nat
    with (String.length p)
    by (cbn [String.length]; rewrite length_append; lia).
  apply exec_all_skip.
Qed.

(** *** The matcher, from a match back to the text *)

Lemma rmatch_Lit_inv text s caps k (res : string * captures) :
  rmatch (Lit text) s caps k = Some res ->
  exists rest, s = text ++ rest /\ k rest caps = Some res.
Proof.
  simpl. destruct (strip_prefix text s) as [rest | ] eqn:E; [ | discriminate ].
  intros H. exists rest. split; [ apply strip_prefix_spec, E | exact H ].
Qed.

Lemma rmatch_Chr_inv class s caps k (res : string * captures) :
  rmatch (Chr class) s caps k = Some res ->
  exists c rest, s = String c "" ++ rest /\ class c = true
                 /\ k rest caps = Some res.
Proof.
  simpl. destruct s as [ | c rest ]; [ discriminate | ].
  destruct (class c) eqn:Hc; [ | discriminate ].
  intros H. exists c, rest. auto.
Qed.

Lemma rmatch_Star_inv class s caps k (res : string * captures) :
  rmatch (Star true class) s caps k = Some res ->
  exists pre rest, s = pre ++ rest /\ all_chars class pre = true
                   /\ k rest caps = Some res.
Proof.
  simpl. intros H.
  destruct (star_greedy_inv _ _ _ _ H) as (pre & rest & -> & Hall & Hk).
  exists pre, rest. auto.
Qed.

Lemma rmatch_Group_Plus_inv n class s caps k (res : string * captures) :
  rmatch (Group n (Plus class)) s caps k = Some res ->
  exists pre rest, s = pre ++ rest /\ pre <> "" /\ all_chars class pre = true
                   /\ k rest ((n, pre) :: caps) = Some res.
Proof.
  cbn [rmatch]. destruct s as [ | c s ]; [ discriminate | ].
  destruct (class c) eqn:Hc; [ | discriminate ].
  intros H.
  destruct (star_greedy_inv _ _ _ _ H) as (pre & rest & -> & Hall & Hk).
  exists (String c pre), rest.
  split; [ reflexivity | ]. split; [ discriminate | ].
  split; [ simpl; rewrite Hc; exact Hall | ].
  change (String c (pre ++ rest)) with (String c pre ++ rest) in Hk.
  rewrite consumed_append in Hk. exact Hk.
Qed.

Lemma rmatch_Alt_inv r1 r2 s caps k (res : string * captures) :
  rmatch (Alt r1 r2) s caps k = Some res ->
  rmatch r1 s caps k = Some res \/ rmatch r2 s caps k = Some res.
Proof.
  simpl. destruct (rmatch r1 s caps k) as [res' | ]; [ | auto ].
  intros H. injection H as ->. auto.
Qed.

Lemma rmatch_ident_inv s caps k (res : string * captures) :
  rmatch (Seq (Chr ident_start) (Star true ident_part)) s caps k = Some res ->
  exists id rest, s = id ++ rest /\ is_ident id = true
                  /\ k rest caps = Some res.
Proof.
  rewrite rmatch_Seq. intros H.
  apply rmatch_Chr_inv in H. destruct H as (c & s1 & -> & Hc & H).
  apply rmatch_Star_inv in H. destruct H as (pre & rest & -> & Hall & H).
  exists (String c pre), rest. split; [ reflexivity | ].
  split; [ simpl; rewrite Hc; exact Hall | exact H ].
Qed.

Ltac inv_seq H := rewrite rmatch_Seq in H.
Ltac inv_lit H :=
  inv_seq H; apply rmatch_Lit_inv in H;
  let rest := fresh "s" in destruct H as (rest & -> & H).
Ltac inv_ws H b Hb :=
  inv_seq H; apply rmatch_Star_inv in H;
  let rest := fresh "s" in destruct H as (b & rest & -> & Hb & H).
Ltac inv_chr H q Hq :=
  inv_seq H; apply rmatch_Chr_inv in H;
  let rest := fresh "s" in destruct H as (q & rest & -> & Hq & H).

Lemma is_ident_knex : is_ident "knex" = true.
Proof. reflexivity. Qed.

(** What [callHead] matches is an invocation head. *)
Lemma callHead_sound (method s : string) caps k (res : string * captures) :
  rmatch (callHead method) s caps k = Some res ->
  exists head name s',
    s = head ++ s' /\ call_head method name head
    /\ k s' ((1%nat, name) :: caps) = Some res.
Proof.
  unfold callHead, ws. intros H.
  inv_seq H.
  assert (Hcaller : exists caller s0,
             s = caller ++ s0 /\ is_ident caller = true
             /\ rmatch (Lit ".schema." ;; Lit method ;; Star true space
                        ;; Lit "(" ;; Star true space
                        ;; Chr quote ;; Group 1 (Plus not_quote) ;; Chr quote
                        ;; Star true space ;; Lit "," ;; Star true space
                        ;; Lit "function" ;; Star true space ;; Lit "("
                        ;; Star true space
                        ;; Chr ident_start ;; Star true ident_part
                        ;; Star true space ;; Lit ")" ;; Star true space)%re
                       s0 caps k = Some res).
  { apply rmatch_Alt_inv in H. destruct H as [H | H].
    - apply rmatch_Lit_inv in H. destruct H as (s0 & -> & H).
      exists "knex", s0. auto.
    - apply rmatch_ident_inv in H. destruct H as (id & s0 & -> & Hid & H).
      exists id, s0. auto. }
  clear H. destruct Hcaller as (caller & s0 & -> & Hcaller & H).
  inv_lit H. inv_lit H. inv_ws H b1 Hb1. inv_lit H. inv_ws H b2 Hb2.
  inv_chr H q1 Hq1.
  inv_seq H. apply rmatch_Group_Plus_inv in H.
  destruct H as (name & s' & -> & Hname & Hnq & H).
  inv_chr H q2 Hq2. inv_ws H b3 Hb3. inv_lit H. inv_ws H b4 Hb4.
  inv_lit H. inv_ws H b5 Hb5. inv_lit H. inv_ws H b6 Hb6.
  inv_chr H p0 Hp0. inv_ws H ps Hps. inv_ws H b7 Hb7. inv_lit H.
  apply rmatch_Star_inv in H. destruct H as (b8 & s'' & -> & Hb8 & H).
  exists (caller ++ ".schema." ++ method ++ b1 ++ "(" ++ b2
            ++ String q1 "" ++ name ++ String q2 "" ++ b3 ++ "," ++ b4
            ++ "function" ++ b5 ++ "(" ++ b6 ++ String p0 ps ++ b7 ++ ")"
            ++ b8), name, s''.
  split; [ | split; [ | exact H ] ].
  - rewrite !append_assoc. reflexivity.
  - exists caller, (String p0 ps), q1, q2, b1, b2, b3, b4, b5, b6, b7, b8.
    split; [ reflexivity | ].
    repeat split; auto.
    + simpl. rewrite Hp0. exact Hps.
    + repeat constructor; assumption.
Qed.

(** *** The invocation head, from the text to the match *)

Lemma stops_space_not_space (x : ascii) (rest : string) :
  space x = false -> stops space (String x rest) = true.
Proof. intros H. simpl. rewrite H. reflexivity. Qed.

Lemma stops_after_blanks (class : ascii -> bool) (blanks : string)
  (x : ascii) (rest : string) :
  all_chars space blanks = true -> class x = false ->
  (forall c, space c = true -> class c = false) ->
  stops class (blanks ++ String x rest) = true.
Proof.
  intros Hb Hx Hdisj. destruct blanks as [ | b blanks ]; simpl.
  - rewrite Hx. reflexivity.
  - simpl in Hb. apply andb_true_iff in Hb. destruct Hb as [Hb _].
    rewrite (Hdisj b Hb). reflexivity.
Qed.

Lemma space_not_ident_part (c : ascii) : space c = true -> ident_part c = false.
Proof.
  destruct c as [[] [] [] [] [] [] [] []]; vm_compute; congruence.
Qed.

Lemma ident_start_not_space (c : ascii) : ident_start c = true -> space c = false.
Proof.
  destruct c as [[] [] [] [] [] [] [] []]; vm_compute; congruence.
Qed.

Lemma ident_part_not_dot (c : ascii) (rest : string) :
  ident_part c = true -> strip_prefix ".schema." (String c rest) = None.
Proof.
  destruct c as [[] [] [] [] [] [] [] []]; vm_compute; congruence.
Qed.

Lemma quote_not_space (c : ascii) : quote c = true -> space c = false.
Proof.
  destruct c as [[] [] [] [] [] [] [] []]; vm_compute; congruence.
Qed.

Lemma quote_stops_not_quote (c : ascii) (rest : string) :
  quote c = true -> stops not_quote (String c rest) = true.
Proof. intros H. simpl. unfold not_quote. rewrite H. reflexivity. Qed.

Ltac seq := rewrite rmatch_Seq.
Ltac lit := seq; rewrite rmatch_Lit.
Ltac blanks Hb := seq; apply rmatch_Star_some; [ exact Hb | | ].

Lemma callTail_complete (method name : string) (q1 q2 : ascii)
  (param b1 b2 b3 b4 b5 b6 b7 b8 s' : string) caps k
  (res : string * captures) :
  is_ident param = true -> quote q1 = true -> quote q2 = true ->
  name <> "" -> all_chars not_quote name = true ->
  Forall (fun blanks => all_chars space blanks = true)
         [b1; b2; b3; b4; b5; b6; b7; b8] ->
  stops space s' = true ->
  k s' ((1%nat, name) :: caps) = Some res ->
  rmatch (Lit ".schema." ;; Lit method ;; Star true space
          ;; Lit "(" ;; Star true space
          ;; Chr quote ;; Group 1 (Plus not_quote) ;; Chr quote
          ;; Star true space ;; Lit "," ;; Star true space
          ;; Lit "function" ;; Star true space ;; Lit "("
          ;; Star true space
          ;; Chr ident_start ;; Star true ident_part
          ;; Star true space ;; Lit ")" ;; Star true space)%re
         (".schema." ++ method ++ b1 ++ "(" ++ b2
            ++ String q1 "" ++ name ++ String q2 "" ++ b3 ++ "," ++ b4
            ++ "function" ++ b5 ++ "(" ++ b6 ++ param ++ b7 ++ ")" ++ b8 ++ s')
         caps k = Some res.
Proof.
  intros Hparam Hq1 Hq2 Hname Hnq Hblanks Hstop Hk.
  inversion Hblanks as [ | ? ? Hb1 Hr1 ]; subst; clear Hblanks.
  inversion Hr1 as [ | ? ? Hb2 Hr2 ]; subst; clear Hr1.
  inversion Hr2 as [ | ? ? Hb3 Hr3 ]; subst; clear Hr2.
  inversion Hr3 as [ | ? ? Hb4 Hr4 ]; subst; clear Hr3.
  inversion Hr4 as [ | ? ? Hb5 Hr5 ]; subst; clear Hr4.
  inversion Hr5 as [ | ? ? Hb6 Hr6 ]; subst; clear Hr5.
  inversion Hr6 as [ | ? ? Hb7 Hr7 ]; subst; clear Hr6.
  inversion Hr7 as [ | ? ? Hb8 _ ]; subst; clear Hr7.
  destruct param as [ | p0 ps ]; [ discriminate | ].
  simpl in Hparam. apply andb_true_iff in Hparam. destruct Hparam as [Hp0 Hps].
  lit. lit.
  blanks Hb1; [ reflexivity | ].
  lit.
  blanks Hb2; [ apply stops_space_not_space, quote_not_space, Hq1 | ].
  seq. rewrite rmatch_Chr by exact Hq1.
  seq. apply rmatch_Group_Plus;
    [ exact Hname | exact Hnq | apply quote_stops_not_quote, Hq2 | ].
  seq. rewrite rmatch_Chr by exact Hq2.
  blanks Hb3; [ reflexivity | ].
  lit.
  blanks Hb4; [ reflexivity | ].
  lit.
  blanks Hb5; [ reflexivity | ].
  lit.
  blanks Hb6; [ apply stops_space_not_space, ident_start_not_space, Hp0 | ].
  seq. change (String p0 ps ++ b7 ++ ")" ++ b8 ++ s')
         with (String p0 "" ++ ps ++ b7 ++ ")" ++ b8 ++ s').
  rewrite rmatch_Chr by exact Hp0.
  seq. apply rmatch_Star_some; [ exact Hps | | ].
  { apply stops_after_blanks;
      [ exact Hb7 | reflexivity | apply space_not_ident_part ]. }
  blanks Hb7; [ reflexivity | ].
  lit.
  apply rmatch_Star_some; [ exact Hb8 | exact Hstop | exact Hk ].
Qed.


Lemma strip_knex (caller t after : string) :
  all_chars ident_part caller = true ->
  strip_prefix "knex" (caller ++ String "." t) = Some after ->
  (caller = "knex" /\ after = String "." t)
  \/ exists c rest, ident_part c = true /\ after = String c rest.
Proof.
  intros Hall H.
  destruct caller as [ | a1 [ | a2 [ | a3 [ | a4 caller ] ] ] ];
    cbn [append strip_prefix] in H;
    repeat match type of H with
           | (if Ascii.eqb ?a ?b then _ else _) = _ =>
               let E := fresh "E" in
               destruct (Ascii.eqb_spec a b) as [E | _];
               [ try discriminate E | discriminate H ]
           end;
    try discriminate H.
  injection H as <-. subst a1 a2 a3 a4.
  destruct caller as [ | c rest ]; [ left; split; reflexivity | right ].
  exists c, (rest ++ String "." t). split; [ | reflexivity ].
  cbn [all_chars] in Hall.
  do 4 (apply andb_true_iff in Hall; destruct Hall as [_ Hall]).
  apply andb_true_iff in Hall. apply Hall.
Qed.

(** An invocation head is matched by [callHead], whatever follows it. *)
Lemma callHead_complete (method name head s' : string) caps k
  (res : string * captures) :
  call_head method name head -> stops space s' = true ->
  k s' ((1%nat, name) :: caps) = Some res ->
  rmatch (callHead method) (head ++ s') caps k = Some res.
Proof.
  intros (caller & param & q1 & q2 & b1 & b2 & b3 & b4 & b5 & b6 & b7 & b8
          & -> & Hcaller & Hparam & Hq1 & Hq2 & Hname & Hnq & Hblanks)
         Hstop Hk.
  rewrite !append_assoc.
  pose proof (callTail_complete method name q1 q2 param b1 b2 b3 b4 b5 b6 b7
                b8 s' caps k res Hparam Hq1 Hq2 Hname Hnq Hblanks Hstop Hk)
    as Htail.
  set (tail := ".schema." ++ _) in *.
  unfold callHead, ws. seq.
  set (K := fun (s0 : string) (caps0 : captures) => rmatch _ s0 caps0 k).
  change (K tail caps = Some res) in Htail.
  destruct caller as [ | c0 cs ]; [ discriminate | ].
  pose proof Hcaller as Hid.
  simpl in Hcaller. apply andb_true_iff in Hcaller.
  destruct Hcaller as [Hc0 Hcs].
  assert (Hident : rmatch (Chr ident_start ;; Star true ident_part)%re
                          (String c0 cs ++ tail) caps K = Some res).
  { seq. change (String c0 cs ++ tail) with (String c0 "" ++ cs ++ tail).
    rewrite rmatch_Chr by exact Hc0.
    apply rmatch_Star_some; [ exact Hcs | reflexivity | exact Htail ]. }
  change (match rmatch (Lit "knex") (String c0 cs ++ tail) caps K with
          | Some r => Some r
          | None => rmatch (Chr ident_start ;; Star true ident_part)%re
                           (String c0 cs ++ tail) caps K
          end = Some res).
  destruct (rmatch (Lit "knex") (String c0 cs ++ tail) caps K)
    as [res' | ] eqn:E; [ | exact Hident ].
  apply rmatch_Lit_inv in E. destruct E as (after & E & EK).
  assert (Hstrip : strip_prefix "knex" (String c0 cs ++ tail) = Some after)
    by (rewrite E; apply strip_prefix_append).
  apply (strip_knex (String c0 cs) ("schema." ++ method ++ b1 ++ "(" ++ b2
            ++ String q1 "" ++ name ++ String q2 "" ++ b3 ++ "," ++ b4
            ++ "function" ++ b5 ++ "(" ++ b6 ++ param ++ b7 ++ ")" ++ b8 ++ s'))
    in Hstrip.
  - destruct Hstrip as [[_ ->] | (c & rest & Hc & ->)].
    + change (K tail caps = Some res') in EK. congruence.
    + unfold K in EK. rewrite rmatch_Seq in EK. cbn [rmatch] in EK.
      rewrite (ident_part_not_dot c rest Hc) in EK. discriminate EK.
  - simpl. rewrite Hcs.
    replace (ident_part c0) with true; [ reflexivity | ].
    symmetry. unfold ident_part. rewrite Hc0. reflexivity.
Qed.

(** *** The lazy body group *)

Section Lazy.
Context {R : Type}.
Variables (class : ascii -> bool) (k : string -> option R).

Lemma star_lazy_first (pre rest : string) (res : R) :
  all_chars class pre = true ->
  (forall p1 p2, pre = p1 ++ p2 -> p2 <> "" -> k (p2 ++ rest) = None) ->
  k rest = Some res -> star_lazy class (pre ++ rest) k = Some res.
Proof.
  intros Hall Hmin Hk. induction pre as [ | c pre IH ].
  - destruct rest; simpl; rewrite Hk; reflexivity.
  - cbn [append star_lazy].
    assert (Hhere : k (String c (pre ++ rest)) = None)
      by (apply (Hmin "" (String c pre)); [ reflexivity | discriminate ]).
    rewrite Hhere.
    simpl in Hall. apply andb_true_iff in Hall. destruct Hall as [Hc Hall].
    rewrite Hc. apply IH; [ exact Hall | ].
    intros p1 p2 Hp Hne. apply (Hmin (String c p1) p2); [ | exact Hne ].
    rewrite Hp. reflexivity.
Qed.

Lemma star_lazy_some (pre rest : string) :
  all_chars class pre = true -> k rest <> None ->
  star_lazy class (pre ++ rest) k <> None.
Proof.
  intros Hall Hk. induction pre as [ | c pre IH ].
  - destruct rest; simpl; destruct (k _); congruence.
  - cbn [append star_lazy].
    destruct (k (String c (pre ++ rest))); [ discriminate | ].
    simpl in Hall. apply andb_true_iff in Hall. destruct Hall as [Hc Hall].
    rewrite Hc. apply IH, Hall.
Qed.
End Lazy.

Lemma all_chars_any (s : string) : all_chars any s = true.
Proof. induction s as [ | c s IH ]; simpl; [ reflexivity | exact IH ]. Qed.

Lemma closer_exact (blanks rest : string) (caps : captures) :
  all_chars space blanks = true ->
  rmatch closer ("}" ++ blanks ++ ")" ++ rest) caps finish = Some (rest, caps).
Proof.
  intros Hb. unfold closer, ws. lit. seq.
  apply rmatch_Star_some; [ exact Hb | reflexivity | ].
  rewrite rmatch_Lit. reflexivity.
Qed.

Lemma callbackBody_complete (body blanks rest : string) (caps : captures) :
  all_chars space blanks = true ->
  first_close body ("}" ++ blanks ++ ")" ++ rest) ->
  rmatch callbackBody (body ++ "}" ++ blanks ++ ")" ++ rest) caps finish
  = Some (rest, (2%nat, body) :: caps).
Proof.
  intros Hb [_ Hmin]. unfold callbackBody. seq. cbn [rmatch].
  apply star_lazy_first.
  - apply all_chars_any.
  - intros p1 p2 Hp Hne.
    destruct (rmatch closer (p2 ++ "}" ++ blanks ++ ")" ++ rest) _ finish)
      as [[rest' caps'] | ] eqn:E; [ exfalso | reflexivity ].
    apply closer_sound in E. destruct E as [_ (blanks' & E & Hall)].
    apply (Hmin p1 p2 Hp Hne). exists blanks', rest'. auto.
  - rewrite consumed_append. apply closer_exact, Hb.
Qed.

Lemma callbackBody_some (body after : string) (caps : captures) :
  closes_call after ->
  rmatch callbackBody (body ++ after) caps finish <> None.
Proof.
  intros Hclose. unfold callbackBody. rewrite rmatch_Seq. cbn [rmatch].
  apply star_lazy_some; [ apply all_chars_any | ].
  apply closer_complete, Hclose.
Qed.

(** *** One match of a builder call *)

(** A match of the whole expression is an invocation head, an opening
    brace, the body up to the first place where a call can close, and
    that closing. *)
Lemma builderCall_sound (method s rest : string) (caps : captures) :
  match_here (builderCallRegex method) s = Some (rest, caps) ->
  exists head name body blanks,
    s = head ++ "{" ++ body ++ "}" ++ blanks ++ ")" ++ rest
    /\ call_head method name head
    /\ all_chars space blanks = true
    /\ first_close body ("}" ++ blanks ++ ")" ++ rest)
    /\ caps = [(2%nat, body); (1%nat, name)].
Proof.
  unfold match_here, builderCallRegex. rewrite rmatch_Seq. intros H.
  apply callHead_sound in H. destruct H as (head & name & s' & -> & Hhead & H).
  rewrite rmatch_Seq in H. apply rmatch_Lit_inv in H.
  destruct H as (s'' & -> & H).
  unfold callbackBody in H. rewrite rmatch_Seq in H. cbn [rmatch] in H.
  apply star_lazy_inv in H. destruct H as (body & after & -> & Hk & Hmin).
  rewrite consumed_append in Hk.
  destruct (closer_sound _ _ _ _ Hk) as [-> (blanks & -> & Hall)].
  exists head, name, body, blanks.
  split; [ reflexivity | ]. split; [ exact Hhead | ].
  split; [ exact Hall | ]. split; [ | reflexivity ].
  split; [ exists blanks, rest; auto | ].
  intros p1 p2 Hp Hne Hc.
  specialize (Hmin p1 p2 Hp Hne). cbv beta in Hmin.
  apply (closer_complete _
           ((2%nat, consumed (body ++ "}" ++ blanks ++ ")" ++ rest)
                             (p2 ++ "}" ++ blanks ++ ")" ++ rest))
              :: [(1%nat, name)]) Hc).
  exact Hmin.
Qed.

(** Conversely such a text is matched, with the name and the body as
    groups 1 and 2. *)
Lemma builderCall_complete (method name head body blanks rest : string) :
  call_head method name head ->
  all_chars space blanks = true ->
  first_close body ("}" ++ blanks ++ ")" ++ rest) ->
  match_here (builderCallRegex method)
    (head ++ "{" ++ body ++ "}" ++ blanks ++ ")" ++ rest)
  = Some (rest, [(2%nat, body); (1%nat, name)]).
Proof.
  intros Hhead Hb Hfirst. unfold match_here, builderCallRegex. seq.
  apply (callHead_complete method name head); [ exact Hhead | reflexivity | ].
  rewrite rmatch_Seq, rmatch_Lit.
  apply callbackBody_complete; assumption.
Qed.

(** The expression matches at a position exactly when an invocation with
    a callback that closes somewhere starts there. *)
Lemma starts_call_matches (method s : string) :
  starts_call method s <-> match_here (builderCallRegex method) s <> None.
Proof.
  split.
  - intros (head & name & body & after & -> & Hhead & Hclose).
    unfold match_here, builderCallRegex. rewrite rmatch_Seq.
    destruct (rmatch (Lit "{" ;; callbackBody)%re ("{" ++ body ++ after)
                     [(1%nat, name)] finish) as [res | ] eqn:E.
    + pose proof (callHead_complete method name head ("{" ++ body ++ after)
                    []
                    (fun s' (caps' : captures) =>
                       rmatch (Lit "{" ;; callbackBody)%re s' caps' finish)
                    res Hhead eq_refl E) as Hm.
      intros Hnone. assert (Habs : Some res = None (A := string * captures))
        by (rewrite <- Hm; exact Hnone).
      discriminate Habs.
    + exfalso. rewrite rmatch_Seq, rmatch_Lit in E.
      exact (callbackBody_some body after _ Hclose E).
  - destruct (match_here (builderCallRegex method) s) as [[rest caps] | ] eqn:E;
      [ intros _ | congruence ].
    apply builderCall_sound in E.
    destruct E as (head & name & body & blanks & -> & Hhead & Hb & Hfirst & _).
    exists head, name, body, ("}" ++ blanks ++ ")" ++ rest).
    split; [ reflexivity | ]. split; [ exact Hhead | apply Hfirst ].
Qed.

(** *** The [g] loop over the builder calls *)

Lemma exec_all_before r (before s : string) :
  (forall p1 p2, before = p1 ++ p2 -> p2 <> "" ->
                 match_here r (p2 ++ s) = None) ->
  exec_all r (before ++ s) 0 = exec_all r s 0.
Proof.
  induction before as [ | c before IH ]; intros H; [ reflexivity | ].
  cbn [append exec_all].
  assert (Hhere : match_here r (String c (before ++ s)) = None)
    by (apply (H "" (String c before)); [ reflexivity | discriminate ]).
  rewrite Hhere.
  apply IH. intros p1 p2 Hp Hne. apply (H (String c p1) p2); [ | exact Hne ].
  rewrite Hp. reflexivity.
Qed.

Lemma exec_all_sound r (caps : captures) (s : string) :
  In caps (exec_all r s 0) ->
  exists before s0 rest, s = before ++ s0 /\ match_here r s0 = Some (rest, caps).
Proof. apply exec_all_In. Qed.

Lemma found_calls (method upText : string) (caps : captures) :
  In caps (exec_all (builderCallRegex method) upText 0) ->
  exists name body,
    caps = [(2%nat, body); (1%nat, name)]
    /\ found_call method upText name body.
Proof.
  intros Hin. apply exec_all_In in Hin.
  destruct Hin as (before & s0 & rest & -> & Hm).
  apply builderCall_sound in Hm.
  destruct Hm as (head & name & body & blanks & -> & Hhead & Hb & Hfirst & ->).
  exists name, body. split; [ reflexivity | ].
  exists before, head, ("}" ++ blanks ++ ")" ++ rest). auto.
Qed.

(** The leftmost invocation is reported first, and the search resumes
    behind its closing parenthesis. *)
Lemma first_call_found (method upText name body rest : string) :
  first_call method upText name body rest ->
  exec_all (builderCallRegex method) upText 0
  = [(2%nat, body); (1%nat, name)]
    :: exec_all (builderCallRegex method) rest 0.
Proof.
  intros (before & head & blanks & -> & Hhead & Hb & Hfirst & Hleft).
  rewrite exec_all_before.
  - assert (E : head ++ "{" ++ body ++ "}" ++ blanks ++ ")" ++ rest
                = (head ++ "{" ++ body ++ "}" ++ blanks ++ ")") ++ rest)
      by (rewrite !append_assoc; reflexivity).
    rewrite E. apply exec_all_step.
    + destruct Hhead as (caller & ? & ? & ? & ? & ? & ? & ? & ? & ? & ? & ?
                         & -> & Hcaller & _).
      destruct caller; [ discriminate | discriminate ].
    + rewrite <- E. apply builderCall_complete; assumption.
  - intros p1 p2 Hp Hne.
    destruct (match_here (builderCallRegex method) _) eqn:E; [ | reflexivity ].
    exfalso. apply (Hleft p1 p2 Hp Hne). apply starts_call_matches.
    rewrite E. discriminate.
Qed.

Lemma leftmost_match r (s : string) :
  (forall p1 p2, s = p1 ++ p2 -> match_here r p2 = None)
  \/ exists before s0,
       s = before ++ s0 /\ match_here r s0 <> None
       /\ forall p1 p2, before = p1 ++ p2 -> p2 <> "" ->
                        match_here r (p2 ++ s0) = None.
Proof.
  induction s as [ | c s IH ].
  - destruct (match_here r "") eqn:E.
    + right. exists "", "". split; [ reflexivity | ].
      split; [ rewrite E; discriminate | ].
      intros [ | ? ? ] [ | ? ? ] Hp Hne; try discriminate Hp. congruence.
    + left. intros [ | ? ? ] [ | ? ? ] Hp; try discriminate Hp. exact E.
  - destruct (match_here r (String c s)) eqn:E.
    + right. exists "", (String c s). split; [ reflexivity | ].
      split; [ rewrite E; discriminate | ].
      intros [ | ? ? ] [ | ? ? ] Hp Hne; try discriminate Hp. congruence.
    + destruct IH as [Hnone | (before & s0 & -> & Hm & Hleft)].
      * left. intros [ | a p1 ] p2 Hp.
        -- cbn [append] in Hp. subst p2. exact E.
        -- cbn [append] in Hp. injection Hp as _ Hp. exact (Hnone _ _ Hp).
      * right. exists (String c before), s0. split; [ reflexivity | ].
        split; [ exact Hm | ].
        intros [ | a p1 ] p2 Hp Hne.
        -- cbn [append] in Hp. subst p2. exact E.
        -- cbn [append] in Hp. injection Hp as _ Hp. exact (Hleft _ _ Hp Hne).
Qed.

Lemma exec_all_none r (s : string) :
  (forall p1 p2, s = p1 ++ p2 -> match_here r p2 = None) ->
  exec_all r s 0 = [].
Proof.
  induction s as [ | c s IH ]; intros H.
  - cbn [exec_all]. rewrite (H "" "" eq_refl). reflexivity.
  - cbn [exec_all]. rewrite (H "" (String c s) eq_refl).
    apply IH. intros p1 p2 Hp. apply (H (String c p1) p2).
    rewrite Hp. reflexivity.
Qed.

(** The loop reports the invocations of the text, from left to right. *)
Lemma calls_of_exec_all (method : string) (n : nat) :
  forall text, (String.length text <= n)%nat ->
    calls_of method text
      (map call_of (exec_all (builderCallRegex method) text 0)).
Proof.
  induction n as [ | n IH ]; intros text Hlen.
  - destruct text; [ | simpl in Hlen; lia ].
    rewrite exec_all_none.
    + apply no_call. intros p1 p2 Hp Hs. apply starts_call_matches in Hs.
      destruct p1, p2; try discriminate Hp. apply Hs. reflexivity.
    + intros [ | ? ? ] [ | ? ? ] Hp; try discriminate Hp. reflexivity.
  - destruct (leftmost_match (builderCallRegex method) text)
      as [Hnone | (before & s0 & -> & Hm & Hleft)].
    + rewrite exec_all_none by exact Hnone.
      apply no_call. intros p1 p2 Hp Hs. apply starts_call_matches in Hs.
      apply Hs, (Hnone _ _ Hp).
    + destruct (match_here (builderCallRegex method) s0)
        as [[rest caps] | ] eqn:E; [ clear Hm | congruence ].
      apply builderCall_sound in E.
      destruct E as (head & name & body & blanks & -> & Hhead & Hb & Hfirst
                     & ->).
      assert (Hcall : first_call method
                        (before ++ head ++ "{" ++ body ++ "}" ++ blanks
                                ++ ")" ++ rest) name body rest).
      { exists before, head, blanks.
        split; [ reflexivity | ]. split; [ exact Hhead | ].
        split; [ exact Hb | ]. split; [ exact Hfirst | ].
        intros p1 p2 Hp Hne Hs. apply starts_call_matches in Hs.
        apply Hs, (Hleft _ _ Hp Hne). }
      rewrite (first_call_found _ _ _ _ _ Hcall).
      cbn [map]. apply (next_call _ _ name body rest); [ exact Hcall | ].
      apply IH. rewrite !length_append in Hlen. simpl in Hlen. lia.
Qed.

(** Every reported invocation stands in the text, with its body bound by
    the first place where a call can close. *)
Lemma calls_of_found (method : string) text calls :
  calls_of method text calls ->
  forall name body, In (name, body) calls -> found_call method text name body.
Proof.
  induction 1 as [ text Hnone | text name0 body0 rest calls Hfirst _ IH ];
    intros name body Hin; [ destruct Hin | ].
  destruct Hfirst as (before & head & blanks & -> & Hhead & Hb & Hclose & _).
  destruct Hin as [E | Hin].
  - injection E as <- <-.
    exists before, head, ("}" ++ blanks ++ ")" ++ rest). auto.
  - destruct (IH _ _ Hin) as (before' & head' & after' & -> & Hhead' & Hclose').
    exists (before ++ head ++ "{" ++ body0 ++ "}" ++ blanks ++ ")" ++ before'),
      head', after'.
    split; [ | auto ].
    rewrite !append_assoc. reflexivity.
Qed.

Lemma view_query_found (method text file : string) :
  map (fun caps => mkParsedView (group_text 1 caps) file (capture 2 caps))
      (exec_all (builderCallRegex method) text 0)
  = map (fun call => mkParsedView (fst call) file (Some (snd call)))
        (map call_of (exec_all (builderCallRegex method) text 0)).
Proof.
  rewrite map_map. apply map_ext_in. intros caps Hin.
  destruct (found_calls _ _ _ Hin) as (name & body & -> & _). reflexivity.
Qed.

(** C6 as stated fails: the body returned for a callback that holds a
    nested pair of braces directly before a closing parenthesis stops at
    the inner closing brace, and is not balanced. *)
Lemma body_stops_at_nested_brace :
  ~ (forall (content : string) (m : TableMatch),
        In m (extractCreateTableOperations content) ->
        matching_brace 0 (definition m ++ "}") = Some (definition m)).
Proof.
  intros H.
  assert (Hin : In (mkTableMatch "users"
                      (nl ++ "    table.increments('id')" ++ nl
                          ++ "    table.json('settings').defaultTo({"))
                   (extractCreateTableOperations nested_braces_source))
    by (vm_compute; left; reflexivity).
  specialize (H _ _ Hin). vm_compute in H. discriminate H.
Qed.

(** The results of the three extractors are the invocations of the
    [exports.up] text. *)
Lemma extractors_calls (content upText : string) :
  upContent content = Some upText ->
  (exists calls,
      calls_of "createTable" upText calls
      /\ extractCreateTableOperations content
         = map (fun call => mkTableMatch (fst call) (snd call)) calls)
  /\ (exists calls,
      calls_of "alterTable" upText calls
      /\ extractAlterTableOperations content
         = map (fun call => mkTableMatch (fst call) (snd call)) calls)
  /\ (exists calls,
      calls_of "createView" upText calls
      /\ forall file,
           extractViewOperations content file
           = map (fun call => mkParsedView (fst call) file (Some (snd call)))
                 calls).
Proof.
  unfold extractCreateTableOperations, extractAlterTableOperations,
    extractViewOperations, builderCalls.
  intros ->. split; [ | split ].
  - exists (map call_of (exec_all (builderCallRegex "createTable") upText 0)).
    split; [ apply (calls_of_exec_all _ _ _ (le_n _)) | ].
    rewrite map_map. reflexivity.
  - exists (map call_of (exec_all (builderCallRegex "alterTable") upText 0)).
    split; [ apply (calls_of_exec_all _ _ _ (le_n _)) | ].
    rewrite map_map. reflexivity.
  - exists (map call_of (exec_all (builderCallRegex "createView") upText 0)).
    split; [ apply (calls_of_exec_all _ _ _ (le_n _)) | ].
    intros file. apply view_query_found.
Qed.

(** C6, amended: the three extractors return nothing when no [exports.up]
    function is found.  Otherwise every [createTable] (respectively
    [alterTable], [createView]) match they return is an invocation that
    stands in the [exports.up] text: an identifier, [.schema.], the
    method, the quoted name, a comma and [function (param)] followed by an
    opening brace; the name returned is the quoted one, and the body
    returned starts after that opening brace and extends to the first
    closing brace that is followed by optional whitespace and a closing
    parenthesis.  Braces are not counted.  And the matches returned are,
    in order, the invocations of the text taken from left to right, each
    searched behind the closing parenthesis of the one before: the
    leftmost invocation is never missed. *)
Theorem callback_body_bound (content : string) :
  (upContent content = None ->
     extractCreateTableOperations content = []
     /\ extractAlterTableOperations content = []
     /\ forall file, extractViewOperations content file = [])
  /\ forall upText, upContent content = Some upText ->
       (forall m, In m (extractCreateTableOperations content) ->
          found_call "createTable" upText (tableName m) (definition m))
       /\ (forall m, In m (extractAlterTableOperations content) ->
          found_call "alterTable" upText (tableName m) (definition m))
       /\ (forall file v, In v (extractViewOperations content file) ->
          migrationFile v = file
          /\ exists body,
               query v = Some body
               /\ found_call "createView" upText (viewName v) body)
       /\ (exists calls,
           calls_of "createTable" upText calls
           /\ extractCreateTableOperations content
              = map (fun call => mkTableMatch (fst call) (snd call)) calls)
       /\ (exists calls,
           calls_of "alterTable" upText calls
           /\ extractAlterTableOperations content
              = map (fun call => mkTableMatch (fst call) (snd call)) calls)
       /\ (exists calls,
           calls_of "createView" upText calls
           /\ forall file,
                extractViewOperations content file
                = map (fun call => mkParsedView (fst call) file
                                                (Some (snd call))) calls).
Proof.
  split.
  - unfold extractCreateTableOperations, extractAlterTableOperations,
      extractViewOperations, builderCalls.
    intros ->. auto.
  - intros upText Hup.
    destruct (extractors_calls content upText Hup)
      as ((creates & Hc & Ec) & (alters & Ha & Ea) & (views & Hv & Ev)).
    split; [ | split; [ | split; [ | split; [ | split ] ] ] ].
    + intros m Hin. rewrite Ec in Hin. apply in_map_iff in Hin.
      destruct Hin as ([name body] & <- & Hin).
      apply (calls_of_found _ _ _ Hc _ _ Hin).
    + intros m Hin. rewrite Ea in Hin. apply in_map_iff in Hin.
      destruct Hin as ([name body] & <- & Hin).
      apply (calls_of_found _ _ _ Ha _ _ Hin).
    + intros file v Hin. rewrite Ev in Hin. apply in_map_iff in Hin.
      destruct Hin as ([name body] & <- & Hin).
      split; [ reflexivity | ]. exists body.
      split; [ reflexivity | apply (calls_of_found _ _ _ Hv _ _ Hin) ].
    + exists creates. auto.
    + exists alters. auto.
    + exists views. auto.
Qed.

Lemma callback_body_bound_witness :
  upContent nested_braces_source = Some nested_braces_up
  /\ calls_of "createTable" nested_braces_up
       [("users", nl ++ "    table.increments('id')" ++ nl
                     ++ "    table.json('settings').defaultTo({")].
Proof.
  assert (Hup : upContent nested_braces_source = Some nested_braces_up)
    by (vm_compute; reflexivity).
  split; [ exact Hup | ].
  destruct (proj2 (callback_body_bound nested_braces_source) _ Hup)
    as (_ & _ & _ & (calls & Hcalls & Heq) & _).
  assert (E : calls
              = [("users", nl ++ "    table.increments('id')" ++ nl
                              ++ "    table.json('settings').defaultTo({")]).
  { vm_compute in Heq.
    destruct calls as [ | [name body] [ | ? ? ] ]; try discriminate Heq.
    simpl in Heq. injection Heq as <- <-. reflexivity. }
  rewrite <- E. exact Hcalls.
Defined.

End ExtractorFacts.


(** * Further properties of the differ and the classifier *)

Module DifferExtras.
Import MigrationGenerator DifferFacts.

Lemma hasColumnChanged_sym (a b : ColumnDefinition) :
  hasColumnChanged a b = hasColumnChanged b a.
Proof.
  unfold hasColumnChanged.
  destruct (ColumnDefinition_eq_dec (normalized a) (normalized b));
    destruct (ColumnDefinition_eq_dec (normalized b) (normalized a));
    congruence.
Qed.

(** X1: the differ misses no difference but a comment.  For two schemas
    none of whose column names is a member inherited from
    [Object.prototype], a diff without operation means that the schemas
    have the same columns, with definitions that agree in every field
    except [comment]. *)
Theorem empty_diff_means_same_columns (t : string) (S1 S2 : SchemaDefinition) :
  dict_wf S1 -> dict_wf S2 ->
  ordinary_names S1 = true -> ordinary_names S2 = true ->
  generateSchemaDiff t S1 S2 = [] ->
  forall c, same_modulo_comment (dict_get S1 c) (dict_get S2 c).
Proof.
  intros wf1 wf2 _ _ Hnil c.
  destruct (dict_get S1 c) as [od | ] eqn:E1;
    destruct (dict_get S2 c) as [d | ] eqn:E2; simpl; auto.
  - destruct (hasColumnChanged od d) eqn:Ech.
    + pose proof (in_diff_alter t S1 S2 wf2 c od d E1 E2 Ech) as Hin.
      rewrite Hnil in Hin. destruct Hin.
    + apply hasColumnChanged_false_iff, Ech.
  - pose proof (in_diff_drop t S1 S2 wf2 c od E1 E2) as Hin.
    rewrite Hnil in Hin. destruct Hin.
  - pose proof (in_diff_add t S1 S2 wf2 c d E1 E2) as Hin.
    rewrite Hnil in Hin. destruct Hin.
Qed.

Lemma empty_diff_means_same_columns_witness :
  same_modulo_comment
    (dict_get [("name", with_comment (Some "first name") (column Tstring))]
              "name")
    (dict_get [("name", with_comment (Some "full name") (column Tstring))]
              "name").
Proof.
  apply (empty_diff_means_same_columns "users"
           [("name", with_comment (Some "first name") (column Tstring))]
           [("name", with_comment (Some "full name") (column Tstring))]).
  - repeat constructor; simpl; intuition discriminate.
  - repeat constructor; simpl; intuition discriminate.
  - reflexivity.
  - reflexivity.
  - reflexivity.
Defined.

(** X2: what a diff holds.  For two schemas none of whose column names is
    a member inherited from [Object.prototype], no two operations of the
    diff are about the same column; a column is added exactly when only
    the new schema has it, with its definition there; it is dropped exactly
    when only the old schema has it, and the drop retains its definition
    there; every other operation is an alteration of a column both schemas
    have, which carries the new definition, retains the old one and is
    classified from the two; and a column whose two definitions differ in
    a field other than [comment] is altered. *)
Theorem diff_one_operation_per_column (t : string) (S1 S2 : SchemaDefinition) :
  dict_wf S1 -> dict_wf S2 ->
  ordinary_names S1 = true -> ordinary_names S2 = true ->
  let ops := generateSchemaDiff t S1 S2 in
  NoDup (map columnName_of ops)
  /\ (forall c d,
        In (addColumn t c d) ops
        <-> dict_get S1 c = None /\ dict_get S2 c = Some d)
  /\ (forall c od,
        In (dropColumn t c (Some od)) ops
        <-> dict_get S1 c = Some od /\ dict_get S2 c = None)
  /\ (forall op, In op ops ->
        (exists c d, op = addColumn t c d)
        \/ (exists c od, op = dropColumn t c (Some od))
        \/ exists c od d,
             op = alterColumn t c d (Some od)
                    (Some (determineAlterationType od d))
             /\ dict_get S1 c = Some od /\ dict_get S2 c = Some d)
  /\ (forall c od d,
        dict_get S1 c = Some od -> dict_get S2 c = Some d ->
        normalized od <> normalized d ->
        In (alterColumn t c d (Some od) (Some (determineAlterationType od d)))
           ops).
Proof.
  intros wf1 wf2 _ _ ops. subst ops.
  split; [ apply diff_columns_NoDup; assumption | ].
  split; [ | split; [ | split ] ].
  - intros c d. rewrite (in_diff_iff t S1 S2 wf2). split.
    + intros [ (c' & d' & E & E1 & E2) | [ (c' & od & E & _)
             | (c' & od & d' & E & _) ] ]; try discriminate E.
      injection E as <- <-. auto.
    + intros [E1 E2]. left. eauto.
  - intros c od. rewrite (in_diff_iff t S1 S2 wf2). split.
    + intros [ (c' & d' & E & _) | [ (c' & od' & E & E1 & E2)
             | (c' & od' & d' & E & _) ] ]; try discriminate E.
      injection E as <- <-. auto.
    + intros [E1 E2]. right; left. eauto.
  - intros op Hin. apply (in_diff_iff t S1 S2 wf2) in Hin.
    destruct Hin as [ (c & d & -> & _) | [ (c & od & -> & _)
                    | (c & od & d & -> & E1 & E2 & _) ] ]; eauto 8.
  - intros c od d E1 E2 Hne. apply in_diff_alter; try assumption.
    destruct (hasColumnChanged od d) eqn:Ech; [ reflexivity | ].
    apply hasColumnChanged_false_iff in Ech. contradiction.
Qed.

Lemma diff_one_operation_per_column_witness :
  NoDup (map columnName_of
           (generateSchemaDiff "users" users_schema accounts_schema)).
Proof.
  apply (diff_one_operation_per_column "users" users_schema accounts_schema
           users_schema_wf accounts_schema_wf eq_refl eq_refl).
Defined.

(** X3: swapping the two schemas mirrors the diff.  For two schemas none
    of whose column names is a member inherited from [Object.prototype],
    an added column becomes a dropped one that retains the same
    definition, and an alteration becomes the alteration back, classified
    in its own direction. *)
Theorem diff_mirror (t : string) (S1 S2 : SchemaDefinition) :
  dict_wf S1 -> dict_wf S2 ->
  ordinary_names S1 = true -> ordinary_names S2 = true ->
  (forall c d,
      In (addColumn t c d) (generateSchemaDiff t S1 S2)
      <-> In (dropColumn t c (Some d)) (generateSchemaDiff t S2 S1))
  /\ (forall c od d,
      In (alterColumn t c d (Some od) (Some (determineAlterationType od d)))
         (generateSchemaDiff t S1 S2)
      <-> In (alterColumn t c od (Some d)
                (Some (determineAlterationType d od)))
             (generateSchemaDiff t S2 S1)).
Proof.
  intros wf1 wf2 _ _. split.
  - intros c d. rewrite (in_diff_iff t S1 S2 wf2), (in_diff_iff t S2 S1 wf1).
    split.
    + intros [ (c' & d' & E & E1 & E2) | [ (c' & od & E & _)
             | (c' & od & d' & E & _) ] ]; try discriminate.
      injection E as <- <-. right; left. eauto.
    + intros [ (c' & d' & E & _) | [ (c' & od & E & E1 & E2)
             | (c' & od & d' & E & _) ] ]; try discriminate.
      injection E as <- <-. left. eauto.
  - intros c od d.
    rewrite (in_diff_iff t S1 S2 wf2), (in_diff_iff t S2 S1 wf1).
    split.
    + intros [ (c' & d' & E & _) | [ (c' & od' & E & _)
             | (c' & od' & d' & E & E1 & E2 & Ech) ] ]; try discriminate.
      injection E as <- <- <-. right; right. exists c, d, od.
      rewrite hasColumnChanged_sym. auto.
    + intros [ (c' & d' & E & _) | [ (c' & od' & E & _)
             | (c' & od' & d' & E & E1 & E2 & Ech) ] ]; try discriminate.
      injection E as <- <- <-. right; right. exists c, od, d.
      rewrite hasColumnChanged_sym. auto.
Qed.

Lemma diff_mirror_witness :
  In (dropColumn "users" "email" (Some (with_unique (Some true) (column Tstring))))
     (generateSchemaDiff "users" accounts_schema users_schema).
Proof.
  destruct (diff_mirror "users" users_schema accounts_schema
              users_schema_wf accounts_schema_wf eq_refl eq_refl) as [Hadd _].
  apply Hadd. vm_compute. left. reflexivity.
Defined.

End DifferExtras.

Module ClassifierExtras.
Import MigrationGenerator ClassifierFacts.

Lemma changed_of_difference (o n : ColumnDefinition) :
  normalized o <> normalized n -> hasColumnChanged o n = true.
Proof.
  intros H. unfold hasColumnChanged.
  destruct (ColumnDefinition_eq_dec (normalized o) (normalized n));
    [ contradiction | reflexivity ].
Qed.

(** X4: a change of column type is never classified [alter]; when the
    constraints ([unique], [primary], [values], [nullable]) are the same on
    both sides it is classified [recreate]. *)
Theorem type_change_never_alter (o n : ColumnDefinition) :
  type o <> type n ->
  hasColumnChanged o n = true
  /\ determineAlterationType o n <> alter
  /\ (unique o = unique n -> primary o = primary n ->
      values o = values n -> nullable o = nullable n ->
      determineAlterationType o n = recreate).
Proof.
  intros Ht.
  assert (Hcan : canUseAlterMethod o n = false).
  { unfold canUseAlterMethod. rewrite (strict_ne_true _ _ _ Ht). reflexivity. }
  split; [ | split ].
  - apply changed_of_difference. intros E. apply Ht.
    apply (f_equal type) in E. exact E.
  - rewrite alter_iff_canUseAlterMethod, Hcan. discriminate.
  - intros Hu Hp Hv Hn. unfold determineAlterationType.
    rewrite Hcan, needsRawQuery_same_constraints by assumption. reflexivity.
Qed.

Lemma type_change_never_alter_witness :
  determineAlterationType (column Tinteger) (column TbigInteger) = recreate.
Proof.
  apply (type_change_never_alter (column Tinteger) (column TbigInteger));
    [ discriminate | reflexivity | reflexivity | reflexivity | reflexivity ].
Defined.

(** X5: a change of [index], [required] or [onUpdate] alone is a changed
    column, classified [alter] on a string or decimal column and
    [recreate] on every other column. *)
Theorem flag_only_change_classified (d : ColumnDefinition)
  (i r : option bool) (u : option JsPrim) :
  (i, r, u) <> (index d, required d, onUpdate d) ->
  let d' := with_index i (with_required r (with_onUpdate u d)) in
  hasColumnChanged d d' = true
  /\ determineAlterationType d d'
     = match type d with
       | Tstring | Tdecimal => alter
       | _ => recreate
       end.
Proof.
  intros Hne d'. split.
  - apply changed_of_difference. intros E. apply Hne. subst d'.
    destruct d. unfold normalized, with_comment, with_index, with_required,
      with_onUpdate in E. simpl in E. simpl. congruence.
  - unfold determineAlterationType.
    destruct (ColumnType_eq_dec (type d) Tstring) as [Es | Es].
    + rewrite canUseAlterMethod_string by (subst d'; simpl; exact Es).
      subst d'. simpl. rewrite Z.leb_refl, Es. reflexivity.
    + destruct (ColumnType_eq_dec (type d) Tdecimal) as [Ed | Ed].
      * rewrite canUseAlterMethod_decimal by (subst d'; simpl; exact Ed).
        subst d'. simpl. rewrite !Z.leb_refl, Ed. reflexivity.
      * rewrite canUseAlterMethod_other by (subst d'; simpl; auto).
        rewrite needsRawQuery_same_constraints by (subst d'; reflexivity).
        subst d'. simpl. rewrite strict_ne_refl.
        destruct (nullable d) as [[ | ] | ];
          destruct (type d); try congruence; reflexivity.
Qed.

Lemma flag_only_change_classified_witness :
  determineAlterationType (column Tinteger)
    (with_index (Some true)
       (with_required None (with_onUpdate None (column Tinteger))))
  = recreate.
Proof.
  apply (flag_only_change_classified (column Tinteger) (Some true) None None).
  discriminate.
Defined.

Lemma no_alter_same_defaults (d n : ColumnDefinition) :
  type d <> Tstring -> type d <> Tdecimal ->
  type n = type d -> defaultTo n = defaultTo d ->
  (nullable d = Some false -> nullable n <> Some true) ->
  canUseAlterMethod d n = false.
Proof.
  intros Hs Hd Ht Hdef Hnull.
  rewrite canUseAlterMethod_other by (auto; congruence).
  rewrite Hdef, strict_ne_refl.
  destruct (nullable d) as [[ | ] | ]; try reflexivity.
  destruct (nullable n) as [[ | ] | ]; try reflexivity.
  exfalso. apply Hnull; reflexivity.
Qed.

Lemma primary_flip_raw (d : ColumnDefinition) (p : option bool) :
  type d <> Tstring -> type d <> Tdecimal -> p <> primary d ->
  determineAlterationType d (with_primary p d) = raw.
Proof.
  intros Hs Hd Hp. unfold determineAlterationType.
  rewrite no_alter_same_defaults
    by (simpl; auto; intros ->; discriminate || congruence).
  unfold needsRawQuery. simpl.
  rewrite (strict_ne_true _ (primary d) p) by congruence.
  rewrite orb_true_r. reflexivity.
Qed.

(** X6: on a column that is neither string nor decimal, a change of
    [unique], of [primary] or of the enum [values] alone, and [nullable]
    going from [true] to [false] alone, are each classified [raw]. *)
Theorem constraint_change_is_raw (d : ColumnDefinition) :
  type d <> Tstring -> type d <> Tdecimal ->
  (forall u, u <> unique d ->
     determineAlterationType d (with_unique u d) = raw)
  /\ (forall p, p <> primary d ->
     determineAlterationType d (with_primary p d) = raw)
  /\ (forall v, v <> values d ->
     determineAlterationType d (with_values v d) = raw)
  /\ (nullable d = Some true ->
     determineAlterationType d (with_nullable (Some false) d) = raw).
Proof.
  intros Hs Hd. repeat split.
  - intros u Hu. unfold determineAlterationType.
    rewrite no_alter_same_defaults
      by (simpl; auto; intros ->; discriminate || congruence).
    unfold needsRawQuery. simpl.
    rewrite (strict_ne_true _ (unique d) u) by congruence. reflexivity.
  - intros p Hp. apply primary_flip_raw; assumption.
  - intros v Hv. unfold determineAlterationType.
    rewrite no_alter_same_defaults
      by (simpl; auto; intros ->; discriminate || congruence).
    unfold needsRawQuery. simpl.
    rewrite (strict_ne_true _ (values d) v) by congruence.
    rewrite !orb_true_r. reflexivity.
  - intros Hn. unfold determineAlterationType.
    rewrite no_alter_same_defaults by (simpl; auto; intros H; congruence).
    unfold needsRawQuery. simpl. rewrite Hn, !strict_ne_refl. reflexivity.
Qed.

Lemma constraint_change_is_raw_witness :
  determineAlterationType
    (with_values (Some ["pending"; "active"]) (column Tenum))
    (with_values (Some ["pending"; "active"; "archived"])
       (with_values (Some ["pending"; "active"]) (column Tenum)))
  = raw.
Proof.
  destruct (constraint_change_is_raw
              (with_values (Some ["pending"; "active"]) (column Tenum)))
    as (_ & _ & Hvalues & _); [ discriminate | discriminate | ].
  apply Hvalues. discriminate.
Defined.

(** X7: on a column that is neither string nor decimal, a change of
    [nullable] alone is classified [alter] only from [false] to [true] and
    [raw] only from [true] to [false]; every other change of the flag, in
    particular between absent and [true], is classified [recreate]. *)
Theorem nullable_change_classified (d : ColumnDefinition) (b : option bool) :
  type d <> Tstring -> type d <> Tdecimal ->
  b <> nullable d ->
  determineAlterationType d (with_nullable b d)
  = match nullable d, b with
    | Some false, Some true => alter
    | Some true, Some false => raw
    | _, _ => recreate
    end.
Proof.
  intros Hs Hd Hb. unfold determineAlterationType.
  rewrite canUseAlterMethod_other by (simpl; auto).
  unfold needsRawQuery. simpl. rewrite !strict_ne_refl. simpl.
  destruct (nullable d) as [[ | ] | ]; destruct b as [[ | ] | ];
    try reflexivity; congruence.
Qed.

Lemma nullable_change_classified_witness :
  determineAlterationType (column Tinteger)
                          (with_nullable (Some true) (column Tinteger))
  = recreate.
Proof.
  apply (nullable_change_classified (column Tinteger) (Some true));
    discriminate.
Defined.

Lemma raw_rendering_nothing (t c : string) (o n : ColumnDefinition) :
  unique o = unique n -> nullable o = nullable n -> values o = values n ->
  generateRawAlterOperation t c o n
  = "// No RAW operations needed for this change".
Proof.
  intros Hu Hn Hv. unfold generateRawAlterOperation.
  rewrite Hu, Hn, Hv, strict_ne_refl.
  destruct (nullable n) as [[ | ] | ]; destruct (values n) as [v | ];
    rewrite ?strict_ne_refl; reflexivity.
Qed.

(** X8: a change of [primary] alone, on a column that is neither string nor
    decimal, is classified [raw], and the [raw] instruction rendered for
    it, upwards and downwards, is only the comment that no RAW operation is
    needed: the migration leaves the primary key as it was. *)
Theorem primary_change_renders_nothing
  (t c : string) (d : ColumnDefinition) (p : option bool) :
  type d <> Tstring -> type d <> Tdecimal -> p <> primary d ->
  let n := with_primary p d in
  let op := alterColumn t c n (Some d) (Some (determineAlterationType d n)) in
  determineAlterationType d n = raw
  /\ generateMigrationOperation op up
     = Some "// No RAW operations needed for this change"
  /\ generateMigrationOperation op down
     = Some "// No RAW operations needed for this change".
Proof.
  intros Hs Hd Hp n op.
  assert (Hraw : determineAlterationType d n = raw)
    by (apply primary_flip_raw; assumption).
  subst op. rewrite Hraw. split; [ reflexivity | ].
  simpl. rewrite !raw_rendering_nothing by reflexivity. auto.
Qed.

Lemma primary_change_renders_nothing_witness :
  generateMigrationOperation
    (alterColumn "users" "code" (with_primary (Some true) (column Tinteger))
       (Some (column Tinteger))
       (Some (determineAlterationType (column Tinteger)
                (with_primary (Some true) (column Tinteger))))) up
  = Some "// No RAW operations needed for this change".
Proof.
  apply (primary_change_renders_nothing "users" "code" (column Tinteger)
           (Some true)); discriminate.
Defined.

(** X9: the [raw] instruction depends on the new definition only through
    [unique], [nullable], [values] and [defaultTo].  So a change of type
    that comes with a change of [unique] is classified [raw] and rendered
    exactly as if the type had not changed. *)
Theorem raw_rendering_ignores_type
  (t c : string) (o n : ColumnDefinition) :
  type o <> type n -> unique o <> unique n ->
  determineAlterationType o n = raw
  /\ generateMigrationOperation (alterColumn t c n (Some o) (Some raw)) up
     = generateMigrationOperation
         (alterColumn t c (with_type (type o) n) (Some o) (Some raw)) up
  /\ forall n',
       unique n' = unique n -> nullable n' = nullable n ->
       values n' = values n -> defaultTo n' = defaultTo n ->
       generateRawAlterOperation t c o n' = generateRawAlterOperation t c o n.
Proof.
  intros Ht Hu. split; [ | split ].
  - unfold determineAlterationType, canUseAlterMethod.
    rewrite (strict_ne_true _ _ _ Ht). unfold needsRawQuery. simpl.
    rewrite (strict_ne_true _ _ _ Hu). reflexivity.
  - reflexivity.
  - intros n' E1 E2 E3 E4. unfold generateRawAlterOperation.
    rewrite E1, E2, E3, E4. reflexivity.
Qed.

Lemma raw_rendering_ignores_type_witness :
  determineAlterationType (column Tinteger)
                          (with_unique (Some true) (column TbigInteger)) = raw.
Proof.
  apply (raw_rendering_ignores_type "users" "code" (column Tinteger)
           (with_unique (Some true) (column TbigInteger))); discriminate.
Defined.

End ClassifierExtras.

(** * Further properties of the migration text generator *)

Module GeneratorExtras.
Import MigrationGenerator DifferFacts GeneratorFacts.

Lemma generateMigrationOperation_some op direction :
  carries_old op ->
  exists text, generateMigrationOperation op direction = Some text.
Proof.
  destruct op as [ | | ? ? ? | ? ? [od | ] | ? ? ? [od | ] [[ | | ] | ] ];
    destruct direction; simpl; intros H; try contradiction; eauto.
Qed.

Lemma traverse_some {A B : Type} (f : A -> option B) (l : list A) :
  (forall x, In x l -> exists y, f x = Some y) ->
  exists ys, traverse f l = Some ys.
Proof.
  induction l as [ | x l IH ]; simpl; intros H; [ eauto | ].
  destruct (H x (or_introl eq_refl)) as [y ->].
  destruct IH as [ys ->]; [ intros z Hz; apply H; right; exact Hz | ].
  eauto.
Qed.

Lemma emitGroup_some direction group :
  (forall op, In op (group_operations group) -> carries_old op) ->
  exists out, emitGroup direction group = Some out.
Proof.
  intros H. unfold emitGroup. destruct (batched group); [ eauto | ].
  apply traverse_some. intros op Hin.
  apply generateMigrationOperation_some, H.
  destruct direction; [ exact Hin | apply in_rev, Hin ].
Qed.

Lemma emitGroups_some direction groups :
  (forall group op, In group groups -> In op (group_operations group) ->
                    carries_old op) ->
  exists out, emitGroups direction groups = Some out.
Proof.
  intros H. unfold emitGroups.
  destruct (traverse_some (emitGroup direction) groups) as [outs ->];
    [ | simpl; eauto ].
  intros group Hin. apply emitGroup_some. intros op. apply H, Hin.
Qed.

Lemma group_operations_incl operations group op :
  In group (groupOperationsByTable operations) ->
  In op (group_operations group) -> In op operations.
Proof.
  intros Hg Hop. destruct (groupOperationsByTable_spec _ _ Hg) as [E _].
  rewrite E in Hop. unfold on_table in Hop. apply filter_In in Hop.
  apply Hop.
Qed.

Lemma generateAlterTableMigration_some operations name :
  (forall op, In op operations -> carries_old op) ->
  exists text, generateAlterTableMigration operations name = Some text.
Proof.
  intros H. unfold generateAlterTableMigration.
  destruct operations as [ | op0 ops ]; [ eauto | ].
  remember (op0 :: ops) as operations eqn:E. clear E.
  unfold upOperations, downOperations.
  destruct (emitGroups_some up (groupOperationsByTable operations))
    as [ups ->].
  { intros group op Hg Hop. apply H. eapply group_operations_incl; eauto. }
  destruct (emitGroups_some down (rev (groupOperationsByTable operations)))
    as [downs ->].
  { intros group op Hg Hop. apply H. apply in_rev in Hg.
    eapply group_operations_incl; eauto. }
  eauto.
Qed.

(** X10: rendering the migration text never fails when every drop and
    every alteration carries its old definition; in particular the text of
    the diff of two schemas is always produced when none of their column
    names is a member inherited from [Object.prototype]. *)
Theorem diff_is_always_rendered :
  (forall operations name,
      (forall op, In op operations -> carries_old op) ->
      exists text, generateAlterTableMigration operations name = Some text)
  /\ (forall t S1 S2 name,
      dict_wf S1 -> dict_wf S2 ->
      ordinary_names S1 = true -> ordinary_names S2 = true ->
      exists text,
        generateAlterTableMigration (generateSchemaDiff t S1 S2) name
        = Some text).
Proof.
  split.
  - apply generateAlterTableMigration_some.
  - intros t S1 S2 name wf1 wf2 _ _. apply generateAlterTableMigration_some.
    intros op. apply (diff_carries_old t S1 S2 wf2).
Qed.

Lemma diff_is_always_rendered_witness :
  exists text,
    generateAlterTableMigration
      (generateSchemaDiff "users" users_schema accounts_schema) "alter_users"
    = Some text.
Proof.
  destruct diff_is_always_rendered as [_ Hdiff].
  apply (Hdiff "users" users_schema accounts_schema "alter_users"
           users_schema_wf accounts_schema_wf eq_refl eq_refl).
Defined.

(** *** Grouping *)

Lemma dict_set_absent {V : Type} (o : list (string * V)) k v :
  dict_get o k = None -> dict_set o k v = (o ++ [(k, v)])%list.
Proof.
  induction o as [ | [k0 w] o IH ]; simpl; [ reflexivity | ].
  destruct (String.eqb k0 k); [ discriminate | ].
  intros H. rewrite IH by exact H. reflexivity.
Qed.

Lemma dict_set_present_perm (o : list (string * list MigrationOperation))
  k g op :
  dict_get o k = Some g ->
  Permutation (flat_map snd (dict_set o k (g ++ [op])%list))
              (flat_map snd o ++ [op]).
Proof.
  induction o as [ | [k0 w] o IH ]; simpl; [ discriminate | ].
  destruct (String.eqb k0 k).
  - intros H. injection H as ->. simpl.
    rewrite <- !app_assoc. apply Permutation_app_head, Permutation_app_comm.
  - intros H. simpl. rewrite <- app_assoc.
    apply Permutation_app_head, IH, H.
Qed.

Lemma pushOperation_perm tableGroups op :
  Permutation (flat_map snd (pushOperation tableGroups op))
              (flat_map snd tableGroups ++ [op]).
Proof.
  unfold pushOperation.
  destruct (dict_get tableGroups (tableName_of op)) as [g | ] eqn:E.
  - rewrite E. apply dict_set_present_perm, E.
  - rewrite dict_get_set_eq.
    eapply perm_trans; [ apply dict_set_present_perm, dict_get_set_eq | ].
    rewrite (dict_set_absent _ _ _ E), flat_map_app. simpl.
    rewrite app_nil_r. apply Permutation_refl.
Qed.

Lemma tableGroups_of_perm operations :
  Permutation (flat_map snd (tableGroups_of operations)) operations.
Proof.
  unfold tableGroups_of.
  assert (H : forall ops acc,
             Permutation (flat_map snd (fold_left pushOperation ops acc))
                         (flat_map snd acc ++ ops)).
  { induction ops as [ | op ops IH ]; intros acc; simpl.
    - rewrite app_nil_r. apply Permutation_refl.
    - eapply perm_trans; [ apply IH | ].
      eapply perm_trans;
        [ apply Permutation_app_tail, pushOperation_perm | ].
      rewrite <- app_assoc. apply Permutation_refl. }
  apply (H operations []).
Qed.

(** X11: grouping by table loses and duplicates no operation: the table
    names of the groups are pairwise distinct, no group is empty, every
    group holds exactly the operations of its table in their original
    order, and the groups together are a reordering of the input. *)
Theorem groupOperationsByTable_partition (operations : list MigrationOperation) :
  let groups := groupOperationsByTable operations in
  NoDup (map group_tableName groups)
  /\ Permutation (flat_map group_operations groups) operations
  /\ forall group, In group groups ->
       group_operations group <> []
       /\ group_operations group
          = on_table (group_tableName group) operations.
Proof.
  intros groups. subst groups. unfold groupOperationsByTable.
  split; [ | split ].
  - rewrite map_map.
    assert (Hwf : dict_wf (tableGroups_of operations))
      by (apply fold_pushOperation_wf; constructor).
    unfold dict_wf, dict_keys in Hwf.
    rewrite (map_ext _ fst) by (intros [k g]; reflexivity). exact Hwf.
  - rewrite flat_map_concat_map, map_map.
    rewrite (map_ext _ snd) by (intros [k g]; reflexivity).
    rewrite <- flat_map_concat_map. apply tableGroups_of_perm.
  - intros group Hin. apply in_map_iff in Hin.
    destruct Hin as ([k g] & <- & Hin). simpl.
    pose proof (tableGroups_of_spec _ _ _ Hin) as E. split; [ | exact E ].
    unfold tableGroups_of in Hin.
    apply dict_get_In in Hin;
      [ | apply fold_pushOperation_wf; constructor ].
    rewrite fold_pushOperation_get in Hin. simpl in Hin.
    destruct (on_table k operations); [ discriminate | ].
    injection Hin as <-. discriminate.
Qed.

(** X12: the operations of a diff form one table group, so a diff is
    rendered as a single composite [alterTable] in each direction exactly
    when it has at least two operations and no [raw] or [recreate]
    alteration, and operation by operation otherwise. *)
Theorem diff_is_one_group (t : string) (S1 S2 : SchemaDefinition) :
  dict_wf S1 -> dict_wf S2 ->
  let ops := generateSchemaDiff t S1 S2 in
  ops <> [] ->
  groupOperationsByTable ops = [mkTableGroup t ops (canGroupOperations ops)]
  /\ (canGroupOperations ops && (1 <? Z.of_nat (List.length ops)) = true ->
      upOperations ops = Some [generateGroupedAlterTable t ops up]
      /\ downOperations ops = Some [generateGroupedAlterTable t (rev ops) down])
  /\ (canGroupOperations ops && (1 <? Z.of_nat (List.length ops)) = false ->
      upOperations ops
      = traverse (fun op => generateMigrationOperation op up) ops
      /\ downOperations ops
         = traverse (fun op => generateMigrationOperation op down) (rev ops)).
Proof.
  intros wf1 wf2 ops Hne.
  assert (Hgroup : groupOperationsByTable ops
                   = [mkTableGroup t ops (canGroupOperations ops)]).
  { apply single_table_group; [ exact Hne | ].
    intros op Hin. apply (in_diff_iff t S1 S2 wf2) in Hin.
    destruct Hin as [ (c & d & -> & _) | [ (c & od & -> & _)
                    | (c & od & d & -> & _) ] ]; reflexivity. }
  split; [ exact Hgroup | ].
  unfold upOperations, downOperations, emitGroups. rewrite Hgroup.
  simpl rev. cbn [traverse]. unfold emitGroup, batched. simpl.
  split; intros ->; simpl.
  - auto.
  - split.
    + destruct (traverse _ ops); simpl; [ rewrite app_nil_r | ]; reflexivity.
    + destruct (traverse _ (rev ops)); simpl;
        [ rewrite app_nil_r | ]; reflexivity.
Qed.

Lemma diff_is_one_group_witness :
  upOperations (generateSchemaDiff "users" users_schema accounts_schema)
  = Some [ generateGroupedAlterTable "users"
             (generateSchemaDiff "users" users_schema accounts_schema) up ].
Proof.
  destruct (diff_is_one_group "users" users_schema accounts_schema
              users_schema_wf accounts_schema_wf) as (_ & Hbatch & _).
  - discriminate.
  - apply Hbatch. reflexivity.
Defined.

(** *** What the column text shows *)

Lemma generateColumnBuilder_fields (c indent : string) (isAlter : bool)
  (a b : ColumnDefinition) :
  type a = type b -> primary a = primary b -> unique a = unique b ->
  nullable a = nullable b -> required a = required b ->
  defaultTo a = defaultTo b -> index a = index b ->
  maxLength a = maxLength b -> precision a = precision b ->
  scale a = scale b -> values a = values b ->
  generateColumnBuilder c a indent isAlter
  = generateColumnBuilder c b indent isAlter.
Proof.
  intros E1 E2 E3 E4 E5 E6 E7 E8 E9 E10 E11. unfold generateColumnBuilder.
  rewrite E1, E2, E3, E4, E5, E6, E7, E8, E9, E10, E11. reflexivity.
Qed.

(** X13: the column text ignores [comment] and [onUpdate].  Two definitions
    the differ holds for unchanged render to the same column text; and a
    change of [onUpdate], which the differ reports, renders the same text
    as before. *)
Theorem column_text_ignores_comment_and_onUpdate
  (c indent : string) (isAlter : bool) :
  (forall o n, hasColumnChanged o n = false ->
     generateColumnBuilder c o indent isAlter
     = generateColumnBuilder c n indent isAlter)
  /\ (forall d u,
     generateColumnBuilder c (with_onUpdate u d) indent isAlter
     = generateColumnBuilder c d indent isAlter).
Proof.
  split.
  - intros o n H. apply hasColumnChanged_false_iff in H.
    destruct o, n. unfold normalized, with_comment in H. simpl in H.
    injection H as -> -> -> -> -> -> -> -> -> -> -> ->.
    apply generateColumnBuilder_fields; reflexivity.
  - intros d u. apply generateColumnBuilder_fields; reflexivity.
Qed.

Lemma column_text_ignores_comment_and_onUpdate_witness :
  generateColumnBuilder "name"
    (with_comment (Some "first name") (column Tstring)) "    " false
  = generateColumnBuilder "name"
      (with_comment (Some "full name") (column Tstring)) "    " false.
Proof.
  apply (column_text_ignores_comment_and_onUpdate "name" "    " false).
  reflexivity.
Defined.

Lemma prefix_app_l (needle a b : string) :
  String.prefix needle a = true -> String.prefix needle (a ++ b) = true.
Proof.
  revert a. induction needle as [ | x needle IH ]; intros a; simpl.
  - intros _. destruct (a ++ b); reflexivity.
  - destruct a as [ | y a ]; simpl; [ destruct needle; discriminate | ].
    destruct (ascii_dec x y); [ apply IH | discriminate ].
Qed.

Lemma includes_app_l (needle a b : string) :
  includes needle a = true -> includes needle (a ++ b) = true.
Proof.
  induction a as [ | y a IH ]; cbn [includes].
  - destruct (String.prefix needle "") eqn:E; [ | discriminate ].
    intros _. destruct needle; [ | discriminate E ].
    destruct b; reflexivity.
  - destruct (String.prefix needle (String y a)) eqn:E.
    + intros _. change (String y a ++ b) with (String y (a ++ b)).
      cbn [includes].
      change (String y (a ++ b)) with (String y a ++ b).
      rewrite (prefix_app_l _ _ b E). reflexivity.
    + intros H. change (String y a ++ b) with (String y (a ++ b)).
      cbn [includes]. rewrite (IH H).
      destruct (String.prefix needle (String y (a ++ b))); reflexivity.
Qed.

Lemma includes_app_r (needle a b : string) :
  includes needle b = true -> includes needle (a ++ b) = true.
Proof.
  intros H. induction a as [ | y a IH ]; [ exact H | ].
  change (String y a ++ b) with (String y (a ++ b)).
  cbn [includes]. rewrite IH.
  destruct (String.prefix needle (String y (a ++ b))); reflexivity.
Qed.

Ltac find_todo :=
  first [ apply includes_app_r; reflexivity
        | apply includes_app_l; find_todo
        | apply includes_app_r; find_todo ].

Lemma enum_without_values_line (c indent : string) (isAlter : bool)
  (d : ColumnDefinition) :
  type d = Tenum -> values d = None ->
  includes "// TODO:" (generateColumnBuilder c d indent isAlter) = true.
Proof.
  intros Ht Hv. unfold generateColumnBuilder. rewrite Ht, Hv. cbv zeta.
  destruct (defaultTo d) as [[text | n | b] | ];
    repeat match goal with
           | |- context [ if ?b then _ else _ ] => destruct b
           end;
    find_todo.
Qed.

Lemma columnOperations_skip_line before op after direction :
  includes "// TODO:" (groupedColumnOperation direction op) = true ->
  columnOperations (before ++ op :: after) direction
  = columnOperations (before ++ after) direction.
Proof.
  intros H. unfold columnOperations.
  rewrite !map_app, !filter_app. simpl map. simpl filter.
  rewrite H. reflexivity.
Qed.

(** X14: a column of type [enum] without [values] is rendered with a
    [// TODO:] remark, which the filter of the composite [alterTable]
    takes for an incomplete operation: inside a batch the addition or
    alteration of such a column is left out of the up text and its
    re-creation out of the down text, while the standalone path keeps the
    line. *)
Theorem enum_without_values_dropped_from_batch
  (t t' c : string) (d : ColumnDefinition)
  (before after : list MigrationOperation) :
  type d = Tenum -> values d = None ->
  generateGroupedAlterTable t (before ++ addColumn t' c d :: after) up
  = generateGroupedAlterTable t (before ++ after) up
  /\ (forall od a,
      generateGroupedAlterTable t (before ++ alterColumn t' c d od a :: after) up
      = generateGroupedAlterTable t (before ++ after) up)
  /\ generateGroupedAlterTable t (before ++ dropColumn t' c (Some d) :: after)
                               down
     = generateGroupedAlterTable t (before ++ after) down
  /\ generateMigrationOperation (addColumn t' c d) up
     = Some (alterTableBlock t' (generateColumnBuilder c d "    " false)).
Proof.
  intros Ht Hv. unfold generateGroupedAlterTable. repeat split.
  - rewrite columnOperations_skip_line; [ reflexivity | ].
    apply enum_without_values_line; assumption.
  - intros od a. rewrite columnOperations_skip_line; [ reflexivity | ].
    apply enum_without_values_line; assumption.
  - rewrite columnOperations_skip_line; [ reflexivity | ].
    apply enum_without_values_line; assumption.
Qed.

Lemma enum_without_values_dropped_from_batch_witness :
  generateGroupedAlterTable "users"
    [ addColumn "users" "phone" (column Tstring);
      addColumn "users" "role" (column Tenum) ] up
  = generateGroupedAlterTable "users"
      [ addColumn "users" "phone" (column Tstring) ] up.
Proof.
  apply (enum_without_values_dropped_from_batch "users" "users" "role"
           (column Tenum) [ addColumn "users" "phone" (column Tstring) ] []);
    reflexivity.
Defined.

End GeneratorExtras.

(** * Further properties of the migration aggregator *)

Module MergeExtras.
Import MigrationParser MergeFacts.

Lemma dict_keys_delete_in {V : Type} (o : list (string * V)) k k' :
  In k' (dict_keys (dict_delete o k)) -> In k' (dict_keys o).
Proof.
  induction o as [ | [k0 w] o IH ]; simpl; [ auto | ].
  destruct (String.eqb k0 k); simpl; intros H.
  - right. apply IH, H.
  - destruct H as [<- | H]; [ left; reflexivity | right; apply IH, H ].
Qed.

Lemma dict_delete_wf {V : Type} (o : list (string * V)) k :
  dict_wf o -> dict_wf (dict_delete o k).
Proof.
  unfold dict_wf. induction o as [ | [k0 w] o IH ]; simpl; intros Hnd;
    [ constructor | ].
  inversion Hnd as [ | ? ? Hnotin Hnd' ]; subst.
  destruct (String.eqb k0 k); [ apply IH, Hnd' | ].
  simpl. constructor; [ | apply IH, Hnd' ].
  intros Hin. apply Hnotin. apply (dict_keys_delete_in o k), Hin.
Qed.

Lemma dict_assign_wf {V : Type} (target source : list (string * V)) :
  dict_wf target -> dict_wf (dict_assign target source).
Proof.
  unfold dict_assign. revert target.
  induction source as [ | [k v] source IH ]; intros target H; simpl;
    [ exact H | apply IH, obj_set_wf, H ].
Qed.

Lemma dict_get_obj_set_inv {V : Type} (o : list (string * V)) k v k' v' :
  dict_get (obj_set o k v) k' = Some v' ->
  (k = k' /\ v = v') \/ dict_get o k' = Some v'.
Proof.
  assert (Hset : dict_get (dict_set o k v) k' = Some v' ->
                 (k = k' /\ v = v') \/ dict_get o k' = Some v').
  { destruct (String.eqb_spec k k') as [-> | Hne].
    - rewrite dict_get_set_eq. intros H. injection H as ->. auto.
    - rewrite dict_get_set_ne by exact Hne. auto. }
  unfold obj_set. destruct (String.eqb k "__proto__"); [ | exact Hset ].
  destruct (dict_get o k); [ exact Hset | auto ].
Qed.

Lemma dict_get_assign_inv {V : Type} (target source : list (string * V)) k v :
  dict_get (dict_assign target source) k = Some v ->
  In (k, v) source \/ dict_get target k = Some v.
Proof.
  unfold dict_assign. revert target.
  induction source as [ | [k0 w] source IH ]; intros target; simpl;
    [ auto | ].
  intros H. destruct (IH _ H) as [Hin | Hget]; [ auto | ].
  destruct (dict_get_obj_set_inv _ _ _ _ _ Hget) as [[-> ->] | Hget'];
    auto.
Qed.

Lemma applyAlterOperation_wf acc op :
  dict_wf acc -> dict_wf (applyAlterOperation acc op).
Proof.
  intros H. unfold applyAlterOperation.
  destruct (type op); destruct (definition op);
    auto using obj_set_wf, dict_delete_wf.
Qed.

Lemma fold_applyAlterOperation_wf ops acc :
  dict_wf acc -> dict_wf (fold_left applyAlterOperation ops acc).
Proof.
  revert acc. induction ops as [ | op ops IH ]; simpl; intros acc H;
    [ exact H | apply IH, applyAlterOperation_wf, H ].
Qed.

Lemma replayMigration_wf acc m :
  dict_wf acc -> dict_wf (replayMigration acc m).
Proof.
  intros H. unfold replayMigration.
  destruct (operation m); [ apply dict_assign_wf, H | | exact H ].
  destruct (alterOperations m);
    [ apply fold_applyAlterOperation_wf, H | exact H ].
Qed.

Lemma applyAlterOperation_get acc op c d :
  dict_get (applyAlterOperation acc op) c = Some d ->
  dict_get acc c = Some d
  \/ (type op <> dropColumn /\ columnName op = c /\ definition op = Some d).
Proof.
  unfold applyAlterOperation.
  destruct (type op) eqn:Et; destruct (definition op) as [d0 | ] eqn:Ed;
    auto; intros H.
  - destruct (dict_get_obj_set_inv _ _ _ _ _ H) as [[E ->] | Hget];
      [ right; repeat split; [ discriminate | exact E ] | auto ].
  - destruct (String.eqb_spec (columnName op) c) as [E | Hne].
    + rewrite E, dict_get_delete_eq in H. discriminate.
    + rewrite dict_get_delete_ne in H by exact Hne. auto.
  - destruct (String.eqb_spec (columnName op) c) as [E | Hne].
    + rewrite E, dict_get_delete_eq in H. discriminate.
    + rewrite dict_get_delete_ne in H by exact Hne. auto.
  - destruct (dict_get_obj_set_inv _ _ _ _ _ H) as [[E ->] | Hget];
      [ right; repeat split; [ discriminate | exact E ] | auto ].
Qed.

Lemma fold_applyAlterOperation_get ops : forall acc c d,
  dict_get (fold_left applyAlterOperation ops acc) c = Some d ->
  dict_get acc c = Some d
  \/ exists op, In op ops /\ type op <> dropColumn /\ columnName op = c
                /\ definition op = Some d.
Proof.
  induction ops as [ | op ops IH ]; simpl; intros acc c d H; [ auto | ].
  destruct (IH _ _ _ H) as [Hacc | (op' & Hin & Hrest)].
  - destruct (applyAlterOperation_get _ _ _ _ Hacc) as [Hget | Hop];
      [ auto | right; exists op; auto ].
  - right. exists op'. auto.
Qed.

Lemma replayMigration_get acc m c d :
  dict_get (replayMigration acc m) c = Some d ->
  dict_get acc c = Some d \/ provided_by [m] c d.
Proof.
  unfold replayMigration, provided_by.
  destruct (operation m) eqn:Eo; [ | | auto ].
  - intros H. destruct (dict_get_assign_inv _ _ _ _ H) as [Hin | Hget];
      [ right | auto ].
    exists m. split; [ left; reflexivity | ]. left. auto.
  - destruct (alterOperations m) as [ops | ] eqn:Ea; [ | auto ].
    intros H.
    destruct (fold_applyAlterOperation_get _ _ _ _ H)
      as [Hget | (op & Hin & Ht & Hc & Hd)]; [ auto | right ].
    exists m. split; [ left; reflexivity | ]. right.
    split; [ exact Eo | ]. exists ops, op. auto.
Qed.

Lemma provided_by_incl l l' c d :
  (forall m, In m l -> In m l') -> provided_by l c d -> provided_by l' c d.
Proof. intros Hincl (m & Hin & H). exists m. auto. Qed.

Lemma fold_replayMigration_inv ms : forall acc,
  dict_wf acc ->
  dict_wf (fold_left replayMigration ms acc)
  /\ forall c d,
       dict_get (fold_left replayMigration ms acc) c = Some d ->
       dict_get acc c = Some d \/ provided_by ms c d.
Proof.
  induction ms as [ | m ms IH ]; simpl; intros acc Hwf; [ auto | ].
  destruct (IH _ (replayMigration_wf acc m Hwf)) as [Hwf' Hget].
  split; [ exact Hwf' | ].
  intros c d H. destruct (Hget _ _ H) as [Hacc | Hprov].
  - destruct (replayMigration_get _ _ _ _ Hacc) as [Hget0 | Hm];
      [ auto | right ].
    apply (provided_by_incl [m]); [ | exact Hm ].
    intros m' [<- | []]. left. reflexivity.
  - right. apply (provided_by_incl ms); [ | exact Hprov ].
    intros m' Hin. right. exact Hin.
Qed.

(** X15: whatever the input and the comparator, the merged schema has
    pairwise distinct column names, and each of its columns holds a
    definition that some migration provided, in the columns of a [create]
    or in an [addColumn] / [modifyColumn] operation: merging invents
    nothing. *)
Theorem merged_schema_invariants
  (localeCompare : string -> string -> Z)
  (migrations : list ParsedMigration) :
  dict_wf (mergeTableMigrations localeCompare migrations)
  /\ forall c d,
       dict_get (mergeTableMigrations localeCompare migrations) c = Some d ->
       provided_by migrations c d.
Proof.
  unfold mergeTableMigrations.
  destruct (fold_replayMigration_inv (sort localeCompare migrations) [])
    as [Hwf Hget]; [ constructor | ].
  split; [ exact Hwf | ].
  intros c d H. destruct (Hget _ _ H) as [Habs | Hprov]; [ discriminate | ].
  apply (provided_by_incl (sort localeCompare migrations)); [ | exact Hprov ].
  intros m Hin.
  apply (Permutation_in m
           (Permutation_sym (sort_perm localeCompare migrations))).
  exact Hin.
Qed.

(** *** How merges compose *)

Section Composition.
Variable localeCompare : string -> string -> Z.

Lemma sort_insert_app m X Y :
  (forall y, In y Y -> file_le localeCompare m y) ->
  sort_insert localeCompare m (X ++ Y)
  = (sort_insert localeCompare m X ++ Y)%list.
Proof.
  intros HY. induction X as [ | x X IH ]; simpl.
  - destruct Y as [ | y Y ]; simpl; [ reflexivity | ].
    assert (Hle : file_le localeCompare m y) by (apply HY; left; reflexivity).
    unfold file_le in Hle. apply Z.leb_le in Hle. rewrite Hle. reflexivity.
  - destruct (localeCompare (migrationFile m) (migrationFile x) <=? 0);
      [ reflexivity | ].
    rewrite IH. reflexivity.
Qed.

Lemma sort_app l1 l2 :
  (forall a b, In a l1 -> In b l2 -> file_le localeCompare a b) ->
  sort localeCompare (l1 ++ l2)
  = (sort localeCompare l1 ++ sort localeCompare l2)%list.
Proof.
  intros H. induction l1 as [ | m l1 IH ]; simpl; [ reflexivity | ].
  rewrite IH by (intros a b Ha Hb; apply H; [ right | ]; assumption).
  apply sort_insert_app. intros y Hy. apply H; [ left; reflexivity | ].
  apply (Permutation_in y (Permutation_sym (sort_perm localeCompare l2))).
  exact Hy.
Qed.

(** Migrations of one file keep their order. *)
Lemma sort_same_file f l :
  localeCompare f f <= 0 ->
  (forall m, In m l -> migrationFile m = f) ->
  sort localeCompare l = l.
Proof.
  intros Hrefl. induction l as [ | m l IH ]; simpl; intros H;
    [ reflexivity | ].
  rewrite IH by (intros m' Hin; apply H; right; exact Hin).
  destruct l as [ | x l ]; simpl; [ reflexivity | ].
  rewrite (H m), (H x) by (simpl; auto).
  apply Z.leb_le in Hrefl. rewrite Hrefl. reflexivity.
Qed.
End Composition.

(** X16: merging composes along the file order.  When every migration of a
    first list is ordered before every migration of a second list, merging
    the two lists together is replaying the second list, sorted, on top of
    the merged schema of the first. *)
Theorem merge_later_files
  (localeCompare : string -> string -> Z) (l1 l2 : list ParsedMigration) :
  (forall a b, In a l1 -> In b l2 -> file_le localeCompare a b) ->
  mergeTableMigrations localeCompare (l1 ++ l2)
  = fold_left replayMigration (sort localeCompare l2)
              (mergeTableMigrations localeCompare l1).
Proof.
  intros H. unfold mergeTableMigrations.
  rewrite sort_app by exact H. apply fold_left_app.
Qed.

Lemma merge_later_files_witness :
  mergeTableMigrations codeUnitCompare [create_users; alter_users]
  = fold_left replayMigration (sort codeUnitCompare [alter_users])
              (mergeTableMigrations codeUnitCompare [create_users]).
Proof.
  apply (merge_later_files codeUnitCompare [create_users] [alter_users]).
  intros a b [<- | []] [<- | []]. vm_compute. discriminate.
Defined.

(** *** Independence of the input order *)

Section Order.
Variable localeCompare : string -> string -> Z.
Hypothesis localeCompare_trans : forall a b c,
  localeCompare a b <= 0 -> localeCompare b c <= 0 -> localeCompare a c <= 0.
Hypothesis localeCompare_antisym : forall a b,
  localeCompare a b <= 0 -> localeCompare b a <= 0 -> a = b.

Lemma sorted_forall a l :
  Sorted (file_le localeCompare) (a :: l) ->
  Forall (file_le localeCompare a) l.
Proof.
  intros H. apply Sorted_extends; [ | exact H ].
  intros x y z Hxy Hyz. exact (localeCompare_trans _ _ _ Hxy Hyz).
Qed.

Lemma same_file_eq (l : list ParsedMigration) a b :
  NoDup (map migrationFile l) -> In a l -> In b l ->
  migrationFile a = migrationFile b -> a = b.
Proof.
  induction l as [ | x l IH ]; simpl; intros Hnd Ha Hb E; [ contradiction | ].
  inversion Hnd as [ | ? ? Hx Hl ]; subst.
  destruct Ha as [-> | Ha], Hb as [-> | Hb].
  - reflexivity.
  - exfalso. apply Hx. rewrite E. apply in_map. exact Hb.
  - exfalso. apply Hx. rewrite <- E. apply in_map. exact Ha.
  - apply IH; assumption.
Qed.

Lemma sorted_perm_unique (l1 : list ParsedMigration) : forall l2,
  Sorted (file_le localeCompare) l1 -> Sorted (file_le localeCompare) l2 ->
  Permutation l1 l2 -> NoDup (map migrationFile l1) -> l1 = l2.
Proof.
  induction l1 as [ | a l1 IH ]; intros l2 S1 S2 P Hnd.
  - apply Permutation_nil in P. subst. reflexivity.
  - destruct l2 as [ | b l2 ].
    + apply Permutation_sym, Permutation_nil in P. discriminate.
    + assert (Hab : a = b).
      { assert (Ha : In a (b :: l2))
          by (apply (Permutation_in a P); left; reflexivity).
        assert (Hb : In b (a :: l1))
          by (apply (Permutation_in b (Permutation_sym P)); left; reflexivity).
        destruct Ha as [Ha | Ha]; [ symmetry; exact Ha | ].
        destruct Hb as [Hb | Hb]; [ exact Hb | ].
        apply (same_file_eq (a :: l1)); [ exact Hnd | left; reflexivity
                                        | right; exact Hb | ].
        apply localeCompare_antisym.
        - pose proof (sorted_forall _ _ S1) as F.
          rewrite Forall_forall in F. exact (F _ Hb).
        - pose proof (sorted_forall _ _ S2) as F.
          rewrite Forall_forall in F. exact (F _ Ha). }
      subst b. f_equal. apply IH.
      * inversion S1; assumption.
      * inversion S2; assumption.
      * exact (Permutation_cons_inv P).
      * inversion Hnd; assumption.
Qed.
End Order.

Lemma codeUnitCompare_le a b :
  codeUnitCompare a b <= 0 <-> String.compare a b <> Gt.
Proof.
  unfold codeUnitCompare. destruct (String.compare a b); split; intros H;
    try lia; try discriminate; congruence.
Qed.

Lemma codeUnitCompare_antisym a b :
  codeUnitCompare a b <= 0 -> codeUnitCompare b a <= 0 -> a = b.
Proof.
  rewrite !codeUnitCompare_le.
  pose proof (OrderedTypeEx.String_as_OT.cmp_antisym a b) as H.
  unfold OrderedTypeEx.String_as_OT.cmp in H.
  intros H1 H2. apply OrderedTypeEx.String_as_OT.cmp_eq.
  unfold OrderedTypeEx.String_as_OT.cmp.
  destruct (String.compare a b), (String.compare b a); simpl in H;
    try discriminate; try reflexivity; congruence.
Qed.

Lemma codeUnitCompare_trans a b c :
  codeUnitCompare a b <= 0 -> codeUnitCompare b c <= 0 ->
  codeUnitCompare a c <= 0.
Proof.
  rewrite !codeUnitCompare_le. intros H1 H2.
  destruct (String.compare a b) eqn:E1; [ | | congruence ].
  - apply OrderedTypeEx.String_as_OT.cmp_eq in E1. subst. exact H2.
  - destruct (String.compare b c) eqn:E2; [ | | congruence ].
    + apply OrderedTypeEx.String_as_OT.cmp_eq in E2. subst.
      rewrite E1. discriminate.
    + apply OrderedTypeEx.String_as_OT.cmp_lt in E1, E2.
      pose proof (OrderedTypeEx.String_as_OT.lt_trans _ _ _ E1 E2) as H.
      apply OrderedTypeEx.String_as_OT.cmp_lt in H.
      unfold OrderedTypeEx.String_as_OT.cmp in H. rewrite H. discriminate.
Qed.

(** X17: the merged schema does not depend on the order in which the
    migrations are given.  When the comparator is a total order on file
    names (total, transitive, antisymmetric) and no two migrations share a
    file name, any two arrangements of the same migrations merge to the
    same schema, key order included. *)
Theorem merge_order_independent
  (localeCompare : string -> string -> Z)
  (migrations migrations' : list ParsedMigration) :
  (forall a b, localeCompare a b <= 0 \/ localeCompare b a <= 0) ->
  (forall a b c, localeCompare a b <= 0 -> localeCompare b c <= 0 ->
                 localeCompare a c <= 0) ->
  (forall a b, localeCompare a b <= 0 -> localeCompare b a <= 0 -> a = b) ->
  NoDup (map migrationFile migrations) ->
  Permutation migrations migrations' ->
  mergeTableMigrations localeCompare migrations
  = mergeTableMigrations localeCompare migrations'.
Proof.
  intros Htot Htrans Hanti Hnd P. unfold mergeTableMigrations.
  f_equal.
  apply (sorted_perm_unique localeCompare Htrans Hanti).
  - apply MergeFacts.sort_sorted, Htot.
  - apply MergeFacts.sort_sorted, Htot.
  - eapply perm_trans;
      [ apply Permutation_sym, (MergeFacts.sort_perm localeCompare) | ].
    eapply perm_trans; [ exact P | ].
    apply (MergeFacts.sort_perm localeCompare).
  - eapply Permutation_NoDup; [ | exact Hnd ].
    apply Permutation_map, (MergeFacts.sort_perm localeCompare).
Qed.

Lemma merge_order_independent_witness :
  mergeTableMigrations codeUnitCompare [alter_users; create_users]
  = mergeTableMigrations codeUnitCompare [create_users; alter_users].
Proof.
  apply (merge_order_independent codeUnitCompare
           [alter_users; create_users] [create_users; alter_users]
           codeUnitCompare_total codeUnitCompare_trans
           codeUnitCompare_antisym).
  - repeat constructor; simpl; intuition discriminate.
  - apply perm_swap.
Defined.
End MergeExtras.

(** * Further properties of the migration parser *)

Module ParserExtras.
Import ColumnParser.

(** *** Grouping by table *)

Lemma inherited_not_proto (key : string) :
  inherited key = false -> key <> "__proto__".
Proof. intros H ->. vm_compute in H. discriminate H. Qed.

Lemma pushMigration_throws grouped m :
  no_inherited_entry grouped ->
  pushMigration grouped m = None
  <-> inherited (MigrationParser.tableName m) = true.
Proof.
  intros Hinv. unfold pushMigration.
  destruct (inherited (MigrationParser.tableName m)) eqn:Ei.
  - rewrite (Hinv _ Ei). rewrite (Hinv _ Ei). split; reflexivity.
  - destruct (dict_get grouped (MigrationParser.tableName m)) as [ms | ] eqn:E.
    + rewrite E. split; discriminate.
    + rewrite dict_get_obj_set_eq by (apply inherited_not_proto, Ei).
      split; discriminate.
Qed.

Lemma pushMigration_get grouped m grouped' t :
  pushMigration grouped m = Some grouped' ->
  dict_get grouped' t
  = if String.eqb (MigrationParser.tableName m) t
    then Some (match dict_get grouped t with
               | Some ms => ms
               | None => []
               end ++ [m])%list
    else dict_get grouped t.
Proof.
  unfold pushMigration.
  destruct (dict_get grouped (MigrationParser.tableName m)) as [ms | ] eqn:E.
  - rewrite E. intros H. injection H as <-.
    destruct (String.eqb_spec (MigrationParser.tableName m) t) as [<- | Hne].
    + rewrite E. apply dict_get_set_eq.
    + apply dict_get_set_ne, Hne.
  - destruct (inherited (MigrationParser.tableName m)) eqn:Ei.
    + rewrite E. discriminate.
    + pose proof (inherited_not_proto _ Ei) as Hproto.
      rewrite dict_get_obj_set_eq by exact Hproto.
      intros H. injection H as <-.
      destruct (String.eqb_spec (MigrationParser.tableName m) t) as [<- | Hne].
      * rewrite E. apply dict_get_set_eq.
      * rewrite dict_get_set_ne by exact Hne.
        apply dict_get_obj_set_ne, Hne.
Qed.

Lemma pushMigration_wf grouped m grouped' :
  pushMigration grouped m = Some grouped' ->
  dict_wf grouped -> dict_wf grouped'.
Proof.
  unfold pushMigration. intros H Hwf.
  destruct (dict_get grouped (MigrationParser.tableName m)) as [ms | ] eqn:E.
  - rewrite E in H. injection H as <-. apply dict_set_wf, Hwf.
  - destruct (inherited (MigrationParser.tableName m)).
    + rewrite E in H. discriminate H.
    + destruct (dict_get (obj_set grouped (MigrationParser.tableName m) [])
                         (MigrationParser.tableName m));
        [ | discriminate H ].
      injection H as <-. apply dict_set_wf, obj_set_wf, Hwf.
Qed.

Lemma pushMigration_no_inherited grouped m grouped' :
  pushMigration grouped m = Some grouped' ->
  no_inherited_entry grouped -> no_inherited_entry grouped'.
Proof.
  intros H Hinv key Hkey. rewrite (pushMigration_get _ _ _ key H).
  destruct (String.eqb_spec (MigrationParser.tableName m) key) as [E | _];
    [ | apply Hinv, Hkey ].
  exfalso. rewrite <- E in Hkey.
  apply (pushMigration_throws grouped m Hinv) in Hkey. congruence.
Qed.

Lemma groupFrom_thrown ms : groupFrom None ms = None.
Proof.
  unfold groupFrom.
  induction ms as [ | m ms IH ]; simpl; [ reflexivity | exact IH ].
Qed.

Lemma groupFrom_throws ms : forall grouped,
  no_inherited_entry grouped ->
  groupFrom (Some grouped) ms = None
  <-> exists m, In m ms /\ inherited (MigrationParser.tableName m) = true.
Proof.
  induction ms as [ | m ms IH ]; intros grouped Hinv.
  - split; [ discriminate | intros (m & [] & _) ].
  - change (groupFrom (Some grouped) (m :: ms))
      with (groupFrom (pushMigration grouped m) ms).
    destruct (pushMigration grouped m) as [grouped' | ] eqn:E.
    + rewrite (IH grouped' (pushMigration_no_inherited _ _ _ E Hinv)).
      split.
      * intros (m' & Hin & Hm'). exists m'. split; [ right | ]; assumption.
      * intros (m' & [<- | Hin] & Hm'); [ | exists m'; split; assumption ].
        apply (pushMigration_throws grouped m Hinv) in Hm'. congruence.
    + rewrite groupFrom_thrown. split; [ | reflexivity ].
      intros _. exists m. split; [ left; reflexivity | ].
      apply (pushMigration_throws grouped m Hinv), E.
Qed.

Lemma groupFrom_get ms t : forall grouped result,
  groupFrom (Some grouped) ms = Some result ->
  (dict_wf grouped -> dict_wf result)
  /\ dict_get result t
     = match dict_get grouped t,
             filter (fun m => String.eqb (MigrationParser.tableName m) t) ms
       with
       | None, [] => None
       | None, l => Some l
       | Some g, l => Some (g ++ l)%list
       end.
Proof.
  induction ms as [ | m ms IH ]; intros grouped result H.
  - injection H as <-. split; [ auto | ]. simpl.
    destruct (dict_get grouped t); [ rewrite app_nil_r | ]; reflexivity.
  - change (groupFrom (Some grouped) (m :: ms))
      with (groupFrom (pushMigration grouped m) ms) in H.
    destruct (pushMigration grouped m) as [grouped' | ] eqn:E;
      [ | rewrite groupFrom_thrown in H; discriminate H ].
    destruct (IH _ _ H) as [Hwf Hget].
    split; [ intros Hg; apply Hwf, (pushMigration_wf _ _ _ E Hg) | ].
    rewrite Hget, (pushMigration_get _ _ _ t E). simpl.
    destruct (String.eqb (MigrationParser.tableName m) t).
    + destruct (dict_get grouped t) as [g0 | ]; simpl;
        [ rewrite <- app_assoc | ]; reflexivity.
    + reflexivity.
Qed.

(** X18: grouping by table throws exactly when some migration is about a
    table whose name is a member inherited from [Object.prototype];
    otherwise it partitions the migrations: the result has one entry per
    table name, and the entry of a table holds exactly the migrations of
    that table, all of them and in the order they were given; a table
    without migrations has no entry. *)
Theorem groupMigrationsByTable_spec
  (migrations : list MigrationParser.ParsedMigration) :
  (groupMigrationsByTable migrations = None
   <-> exists m, In m migrations
                 /\ inherited (MigrationParser.tableName m) = true)
  /\ forall grouped,
       groupMigrationsByTable migrations = Some grouped ->
       dict_wf grouped
       /\ forall t,
            dict_get grouped t
            = match filter (fun m => String.eqb (MigrationParser.tableName m) t)
                           migrations with
              | [] => None
              | group => Some group
              end.
Proof.
  unfold groupMigrationsByTable. split.
  - apply groupFrom_throws. intros key _. reflexivity.
  - intros grouped H. split.
    + apply (groupFrom_get migrations "" [] grouped H). constructor.
    + intros t. destruct (groupFrom_get migrations t [] grouped H) as [_ Hget].
      exact Hget.
Qed.

(** *** The normalizer *)









(** *** From parsed columns to a schema *)






(** *** Files without an [exports.up] assignment *)

Lemma prefix_strip_prefix (p s : string) :
  String.prefix p s = false -> Regex.strip_prefix p s = None.
Proof.
  revert s. induction p as [ | a p IH ]; intros [ | b s ]; simpl;
    try discriminate; try reflexivity.
  destruct (ascii_dec a b) as [-> | Hne].
  - rewrite Ascii.eqb_refl. apply IH.
  - intros _. destruct (Ascii.eqb_spec a b); [ contradiction | reflexivity ].
Qed.

Lemma match_first_needs_literal (needle : string) (r : Regex.regex) (s : string) :
  MigrationGenerator.includes needle s = false ->
  Regex.match_first (Regex.Seq (Regex.Lit needle) r) s = None.
Proof.
  induction s as [ | c s IH ]; cbn [MigrationGenerator.includes];
    destruct (String.prefix needle _) eqn:E; try discriminate; intros H;
    cbn [Regex.match_first]; unfold Regex.match_here; cbn [Regex.rmatch];
    rewrite (prefix_strip_prefix _ _ E); [ reflexivity | apply IH, H ].
Qed.

Lemma upContent_needs_exports_up (content : string) :
  MigrationGenerator.includes "exports.up" content = false ->
  CallExtractor.upContent content = None.
Proof.
  intros H. unfold CallExtractor.upContent, CallExtractor.upFunctionRegex.
  rewrite match_first_needs_literal by exact H. reflexivity.
Qed.

(** X21: a file whose text nowhere holds [exports.up] yields nothing: no
    table migration and no view, whatever else it contains.  A migration
    written with [export async function up] is such a file. *)
Theorem nothing_parsed_without_exports_up (fileName content : string) :
  MigrationGenerator.includes "exports.up" content = false ->
  parseMigrationFile fileName content = []
  /\ CallExtractor.extractViewOperations content fileName = [].
Proof.
  intros H. apply upContent_needs_exports_up in H.
  unfold parseMigrationFile, CallExtractor.extractCreateTableOperations,
    CallExtractor.extractAlterTableOperations,
    CallExtractor.extractViewOperations, CallExtractor.builderCalls.
  rewrite H. split; reflexivity.
Qed.

Lemma nothing_parsed_without_exports_up_witness :
  parseMigrationFile "20240101_create_users.ts" es_module_source = []
  /\ CallExtractor.extractViewOperations es_module_source
       "20240101_create_users.ts" = [].
Proof.
  apply (nothing_parsed_without_exports_up
           "20240101_create_users.ts" es_module_source).
  vm_compute. reflexivity.
Defined.

(** *** One file *)

Lemma parseMigrationFile_shape (fileName content : string) :
  exists creates alters,
    parseMigrationFile fileName content = (creates ++ alters)%list
    /\ Forall (fun m => MigrationParser.operation m = MigrationParser.create
                        /\ MigrationParser.migrationFile m = fileName) creates
    /\ Forall (fun m => MigrationParser.operation m = MigrationParser.alter
                        /\ MigrationParser.migrationFile m = fileName) alters.
Proof.
  unfold parseMigrationFile. eexists. eexists. split; [ reflexivity | ].
  split; apply Forall_forall; intros m Hin; apply in_map_iff in Hin;
    destruct Hin as (x & <- & _); split; reflexivity.
Qed.

Lemma Forall_filter {A : Type} (P : A -> Prop) (f : A -> bool) (l : list A) :
  Forall P l -> Forall P (filter f l).
Proof.
  rewrite !Forall_forall. intros H x Hin. apply filter_In in Hin.
  apply H, Hin.
Qed.

(** X22: inside one file, creations come first.  Whenever grouping by
    table returns, the migrations a file gives for a table are its
    [createTable] calls followed by its [alterTable] calls, whatever their
    order in the text, and merging them replays them in that order: the
    alterations are applied on top of what the creations declare. *)
Theorem one_file_creates_first
  (localeCompare : string -> string -> Z) (fileName content t : string)
  (grouped : list (string * list MigrationParser.ParsedMigration))
  (group : list MigrationParser.ParsedMigration) :
  localeCompare fileName fileName <= 0 ->
  groupMigrationsByTable (parseMigrationFile fileName content) = Some grouped ->
  dict_get grouped t = Some group ->
  exists creates alters,
    group = (creates ++ alters)%list
    /\ Forall (fun m => MigrationParser.operation m = MigrationParser.create)
              creates
    /\ Forall (fun m => MigrationParser.operation m = MigrationParser.alter)
              alters
    /\ MigrationParser.mergeTableMigrations localeCompare group
       = fold_left MigrationParser.replayMigration alters
           (fold_left MigrationParser.replayMigration creates []).
Proof.
  intros Hrefl Hgrouped Hgroup.
  destruct (parseMigrationFile_shape fileName content)
    as (creates & alters & Hparse & Hc & Ha).
  unfold groupMigrationsByTable in Hgrouped.
  destruct (groupFrom_get _ t [] grouped Hgrouped) as [_ Hget].
  rewrite Hget, Hparse, filter_app in Hgroup.
  cbn [dict_get] in Hgroup.
  set (on_t := fun m => String.eqb (MigrationParser.tableName m) t) in *.
  assert (Heq : group = (filter on_t creates ++ filter on_t alters)%list).
  { destruct (filter on_t creates ++ filter on_t alters)%list;
      [ discriminate | injection Hgroup as <-; reflexivity ]. }
  clear Hgroup.
  apply (Forall_filter _ on_t) in Hc. apply (Forall_filter _ on_t) in Ha.
  exists (filter on_t creates), (filter on_t alters).
  split; [ exact Heq | ].
  split; [ eapply Forall_impl; [ | exact Hc ]; intros m H; apply H | ].
  split; [ eapply Forall_impl; [ | exact Ha ]; intros m H; apply H | ].
  unfold MigrationParser.mergeTableMigrations.
  rewrite (MergeExtras.sort_same_file localeCompare fileName group Hrefl).
  - rewrite Heq. apply fold_left_app.
  - intros m Hin. rewrite Heq in Hin. apply in_app_or in Hin.
    rewrite Forall_forall in Hc, Ha.
    destruct Hin as [Hin | Hin]; [ apply (Hc _ Hin) | apply (Ha _ Hin) ].
Qed.

Lemma one_file_creates_first_witness :
  exists grouped group creates alters,
    groupMigrationsByTable
      (parseMigrationFile "20240101_users.js" alter_before_create_source)
    = Some grouped
    /\ dict_get grouped "users" = Some group
    /\ group = (creates ++ alters)%list
    /\ List.length group = 2%nat
    /\ MigrationParser.mergeTableMigrations MigrationParser.codeUnitCompare group
       = fold_left MigrationParser.replayMigration alters
           (fold_left MigrationParser.replayMigration creates []).
Proof.
  pose (grouped :=
          match groupMigrationsByTable
                  (parseMigrationFile "20240101_users.js"
                     alter_before_create_source) with
          | Some g => g
          | None => []
          end).
  pose (group := match dict_get grouped "users" with
                 | Some g => g
                 | None => []
                 end).
  assert (Hgrouped : groupMigrationsByTable
                       (parseMigrationFile "20240101_users.js"
                          alter_before_create_source) = Some grouped)
    by (vm_compute; reflexivity).
  assert (Hg : dict_get grouped "users" = Some group)
    by (vm_compute; reflexivity).
  assert (Hrefl : MigrationParser.codeUnitCompare "20240101_users.js" "20240101_users.js" <= 0)
    by (vm_compute; discriminate).
  destruct (one_file_creates_first MigrationParser.codeUnitCompare "20240101_users.js"
              alter_before_create_source "users" grouped group Hrefl Hgrouped Hg)
    as (creates & alters & Heq & Hc & Ha & Hmerge).
  exists grouped, group, creates, alters.
  split; [ exact Hgrouped | ]. split; [ exact Hg | ]. split; [ exact Heq | ].
  split; [ vm_compute; reflexivity | exact Hmerge ].
Defined.

End ParserExtras.

(** * Reading generated column lines back *)

Module ReadBackFacts.
Import Regex JsString CallExtractor ColumnParser ExtractorFacts.
Import MigrationGenerator.

(** *** The column expression *)

Ltac seq := rewrite rmatch_Seq.
Ltac lit := seq; rewrite rmatch_Lit.
Ltac no_ws := seq; rewrite rmatch_Star_none by reflexivity.
Ltac chr := seq; rewrite rmatch_Chr by reflexivity.

Lemma columnRegex_plain (tok c chain : string) :
  tok <> "" -> all_chars word tok = true ->
  c <> "" -> all_chars not_quote c = true ->
  all_chars dot chain = true ->
  match_here columnRegex
    ("table." ++ tok ++ "(" ++ "'" ++ c ++ "'" ++ ")" ++ chain)
  = Some ("", [(4%nat, chain); (2%nat, c); (1%nat, tok)]).
Proof.
  intros Ht1 Ht2 Hc1 Hc2 Hchain.
  unfold match_here, columnRegex.
  lit. seq. apply rmatch_Group_Plus; [ exact Ht1 | exact Ht2 | reflexivity | ].
  no_ws. lit. no_ws. chr.
  seq. apply rmatch_Group_Plus; [ exact Hc1 | exact Hc2 | reflexivity | ].
  chr. seq. rewrite rmatch_Alt_second by reflexivity.
  rewrite (rmatch_Lit "" (")" ++ chain)).
  no_ws. lit.
  rewrite <- (append_nil_r chain) at 1.
  apply rmatch_Group_Star; [ exact Hchain | reflexivity | reflexivity ].
Qed.

Lemma columnRegex_params (tok c chain : string) (x : ascii) (xs : string) :
  tok <> "" -> all_chars word tok = true ->
  c <> "" -> all_chars not_quote c = true ->
  space x = false -> all_chars not_close_paren (String x xs) = true ->
  all_chars dot chain = true ->
  match_here columnRegex
    ("table." ++ tok ++ "(" ++ "'" ++ c ++ "'" ++ "," ++ " " ++ String x xs
       ++ ")" ++ chain)
  = Some ("", [(4%nat, chain); (3%nat, String x xs); (2%nat, c);
               (1%nat, tok)]).
Proof.
  intros Ht1 Ht2 Hc1 Hc2 Hx Hxs Hchain.
  unfold match_here, columnRegex.
  lit. seq. apply rmatch_Group_Plus; [ exact Ht1 | exact Ht2 | reflexivity | ].
  no_ws. lit. no_ws. chr.
  seq. apply rmatch_Group_Plus; [ exact Hc1 | exact Hc2 | reflexivity | ].
  chr. seq. apply rmatch_Alt_first.
  no_ws. lit. seq.
  apply rmatch_Star_some;
    [ reflexivity | simpl; rewrite Hx; reflexivity | ].
  apply rmatch_Group_Star; [ exact Hxs | reflexivity | ].
  no_ws. lit.
  rewrite <- (append_nil_r chain) at 1.
  apply rmatch_Group_Star; [ exact Hchain | reflexivity | reflexivity ].
Qed.

(** *** Numbers *)

Lemma value_of_uint_acc (d : Decimal.uint) : forall acc : positive,
  fold_left digitValue (list_ascii_of_string (NilEmpty.string_of_uint d)) (Z.pos acc)
  = Z.pos (Pos.of_uint_acc d acc).
Proof.
  induction d; intros acc; cbn [NilEmpty.string_of_uint list_ascii_of_string
                                 fold_left Pos.of_uint_acc];
    [ reflexivity | .. ];
    rewrite <- IHd; f_equal; unfold digitValue;
    match goal with
    | |- context [Z.of_nat ?n] =>
        let v := eval vm_compute in (Z.of_nat n) in
        change (Z.of_nat n) with v
    end; lia.
Qed.

Lemma value_of_uint (d : Decimal.uint) :
  parseInt (NilEmpty.string_of_uint d) = Z.of_N (Pos.of_uint d).
Proof.
  unfold parseInt.
  induction d; cbn [NilEmpty.string_of_uint list_ascii_of_string
                    fold_left Pos.of_uint];
    [ reflexivity | exact IHd | .. ];
    match goal with
    | |- fold_left digitValue ?l (digitValue 0 ?c) = _ =>
        let v := eval vm_compute in (digitValue 0 c) in
        change (digitValue 0 c) with v
    end; apply value_of_uint_acc.
Qed.

Lemma digits_of_uint (d : Decimal.uint) :
  all_chars digit (NilEmpty.string_of_uint d) = true.
Proof. induction d; simpl; auto. Qed.

(** A number that is not negative is printed as digits, which read back
    as the number. *)
Lemma Z_to_string_nonneg (n : Z) :
  0 <= n ->
  exists c rest,
    MigrationGenerator.Z_to_string n = String c rest
    /\ all_chars digit (String c rest) = true
    /\ parseInt (String c rest) = n.
Proof.
  intros Hn. unfold MigrationGenerator.Z_to_string.
  destruct n as [ | p | p ]; [ | | lia ].
  - exists "0"%char, "". repeat split.
  - cbn [Z.to_int NilEmpty.string_of_int].
    pose proof (digits_of_uint (Pos.to_uint p)) as Hd.
    pose proof (value_of_uint (Pos.to_uint p)) as Hv.
    rewrite DecimalPos.Unsigned.of_to in Hv.
    destruct (NilEmpty.string_of_uint (Pos.to_uint p)) as [ | c rest ] eqn:E.
    + exfalso. apply (DecimalPos.Unsigned.to_uint_nonnil p).
      revert E. destruct (Pos.to_uint p); simpl; intros E;
        solve [ reflexivity | discriminate E ].
    + exists c, rest. auto.
Qed.

Lemma modifierRegex_plain (name rest : string) :
  name <> "" -> all_chars word name = true ->
  match_here modifierRegex ("." ++ name ++ "(" ++ ")" ++ rest)
  = Some (rest, [(2%nat, ""); (1%nat, name)]).
Proof.
  intros H1 H2. unfold match_here, modifierRegex.
  lit. seq. apply rmatch_Group_Plus; [ exact H1 | exact H2 | reflexivity | ].
  no_ws. lit. no_ws. seq.
  change (")" ++ rest) with ("" ++ ")" ++ rest).
  apply rmatch_Group_Star; [ reflexivity | reflexivity | ].
  no_ws. rewrite rmatch_Lit. reflexivity.
Qed.

Lemma modifierRegex_args (name rest : string) (x : ascii) (xs : string) :
  name <> "" -> all_chars word name = true ->
  space x = false -> all_chars not_close_paren (String x xs) = true ->
  match_here modifierRegex ("." ++ name ++ "(" ++ String x xs ++ ")" ++ rest)
  = Some (rest, [(2%nat, String x xs); (1%nat, name)]).
Proof.
  intros H1 H2 Hx Hxs. unfold match_here, modifierRegex.
  lit. seq. apply rmatch_Group_Plus; [ exact H1 | exact H2 | reflexivity | ].
  no_ws. lit. seq.
  rewrite rmatch_Star_none by (simpl; rewrite Hx; reflexivity).
  seq. apply rmatch_Group_Star; [ exact Hxs | reflexivity | ].
  no_ws. rewrite rmatch_Lit. reflexivity.
Qed.

Lemma append_nonempty (a b : string) : a <> "" -> a ++ b <> "".
Proof. destruct a; [ congruence | discriminate ]. Qed.

Lemma parseModifiers_plain (name rest : string) :
  name <> "" -> all_chars word name = true ->
  parseModifiers ("." ++ name ++ "()" ++ rest) = name :: parseModifiers rest.
Proof.
  intros H1 H2. unfold parseModifiers.
  assert (E : "." ++ name ++ "()" ++ rest
              = ("." ++ name ++ "(" ++ ")") ++ rest)
    by (rewrite !append_assoc; reflexivity).
  rewrite E, (exec_all_step _ _ _ [(2%nat, ""); (1%nat, name)]);
    [ reflexivity | discriminate | ].
  rewrite <- E. apply modifierRegex_plain; assumption.
Qed.

Lemma parseModifiers_args (name rest : string) (x : ascii) (xs : string) :
  name <> "" -> all_chars word name = true ->
  space x = false -> all_chars not_close_paren (String x xs) = true ->
  trim (String x xs) = String x xs ->
  parseModifiers ("." ++ name ++ "(" ++ String x xs ++ ")" ++ rest)
  = (name ++ "(" ++ String x xs ++ ")") :: parseModifiers rest.
Proof.
  intros H1 H2 Hx Hxs Htrim. unfold parseModifiers.
  assert (E : "." ++ name ++ "(" ++ String x xs ++ ")" ++ rest
              = ("." ++ name ++ "(" ++ String x xs ++ ")") ++ rest)
    by (rewrite !append_assoc; reflexivity).
  rewrite E, (exec_all_step _ _ _ [(2%nat, String x xs); (1%nat, name)]);
    [ | discriminate | rewrite <- E; apply modifierRegex_args; assumption ].
  cbn [map]. f_equal. unfold modifierToken.
  cbn [group_or_empty capture Nat.eqb]. rewrite Htrim. reflexivity.
Qed.

Lemma parseModifiers_nil : parseModifiers "" = [].
Proof. reflexivity. Qed.

(** *** Trimming *)

Lemma trim_end_app (a b : string) :
  b <> "" -> trim_end b = b -> trim_end (a ++ b) = a ++ b.
Proof.
  intros Hne Hb. induction a as [ | c a IH ]; [ exact Hb | ].
  cbn [append trim_end]. rewrite IH.
  destruct (a ++ b) eqn:E; [ | reflexivity ].
  destruct a; [ simpl in E; congruence | discriminate E ].
Qed.

Lemma trim_end_last (a : string) (x : ascii) :
  space x = false -> trim_end (a ++ String x "") = a ++ String x "".
Proof.
  intros Hx. apply trim_end_app; [ discriminate | ].
  simpl. rewrite Hx. reflexivity.
Qed.

Lemma trim_end_class class (s : string) :
  (forall c, class c = true -> space c = false) ->
  all_chars class s = true -> trim_end s = s.
Proof.
  intros Hclass. induction s as [ | c s IH ]; [ reflexivity | ].
  cbn [all_chars trim_end]. intros H. apply andb_true_iff in H.
  destruct H as [Hc Hs]. rewrite (IH Hs).
  destruct s; [ rewrite (Hclass _ Hc) | ]; reflexivity.
Qed.

Lemma digit_not_space c : digit c = true -> space c = false.
Proof.
  destruct c as [[] [] [] [] [] [] [] []]; intros H;
    solve [ reflexivity | discriminate H ].
Qed.

Lemma digit_not_quote c : digit c = true -> quote c = false.
Proof.
  destruct c as [[] [] [] [] [] [] [] []]; intros H;
    solve [ reflexivity | discriminate H ].
Qed.

Lemma digit_not_close_paren c : digit c = true -> not_close_paren c = true.
Proof.
  destruct c as [[] [] [] [] [] [] [] []]; intros H;
    solve [ reflexivity | discriminate H ].
Qed.

Lemma digit_dot c : digit c = true -> dot c = true.
Proof.
  destruct c as [[] [] [] [] [] [] [] []]; intros H;
    solve [ reflexivity | discriminate H ].
Qed.

Lemma all_chars_impl (P Q : ascii -> bool) (s : string) :
  (forall c, P c = true -> Q c = true) ->
  all_chars P s = true -> all_chars Q s = true.
Proof.
  intros HPQ. induction s as [ | c s IH ]; simpl; [ reflexivity | ].
  intros H. apply andb_true_iff in H. destruct H as [Hc Hs].
  rewrite (HPQ _ Hc), (IH Hs). reflexivity.
Qed.

Lemma trim_digits (c : ascii) (rest : string) :
  all_chars digit (String c rest) = true ->
  trim (String c rest) = String c rest.
Proof.
  intros H. unfold trim. pose proof H as H'. simpl in H'.
  apply andb_true_iff in H'. destruct H' as [Hc _].
  cbn [trim_start]. rewrite (digit_not_space _ Hc).
  apply (trim_end_class digit); [ apply digit_not_space | exact H ].
Qed.

(** *** Whole-text expressions *)

Lemma star_greedy_at_end class (s : string) caps :
  star_greedy class s (fun rest => at_end rest caps)
  = if all_chars class s then Some ("", caps) else None.
Proof.
  induction s as [ | c s IH ]; simpl; [ reflexivity | ].
  destruct (class c); simpl; [ | reflexivity ].
  rewrite IH. destruct (all_chars class s); reflexivity.
Qed.

Lemma is_digits_spec (s : string) :
  is_digits s = negb (String.eqb s "") && all_chars digit s.
Proof.
  unfold is_digits, full_match. destruct s as [ | c s ]; [ reflexivity | ].
  cbn [rmatch all_chars String.eqb negb andb].
  destruct (digit c); [ | reflexivity ].
  rewrite star_greedy_at_end. destruct (all_chars digit s); reflexivity.
Qed.

Lemma is_quoted_wrapped (q1 q2 : ascii) (s : string) :
  quote q1 = true -> quote q2 = true -> all_chars not_quote s = true ->
  is_quoted (String q1 (s ++ String q2 "")) = true.
Proof.
  intros H1 H2 Hs. unfold is_quoted, full_match.
  change (String q1 (s ++ String q2 "")) with (String q1 "" ++ s ++ String q2 "").
  seq. rewrite rmatch_Chr by exact H1. seq.
  rewrite (rmatch_Star_some not_quote s (String q2 "") [] _ ("", []));
    [ reflexivity | exact Hs | simpl; unfold not_quote; rewrite H2; reflexivity
    | ].
  simpl. rewrite H2. reflexivity.
Qed.

Lemma is_quoted_first (c : ascii) (s : string) :
  quote c = false -> is_quoted (String c s) = false.
Proof. intros H. unfold is_quoted, full_match. simpl. rewrite H. reflexivity. Qed.

Lemma drop_last_snoc (s : string) (x : ascii) :
  drop_last (s ++ String x "") = s.
Proof.
  induction s as [ | c s IH ]; [ reflexivity | ].
  cbn [append drop_last]. rewrite IH.
  destruct (s ++ String x "") eqn:E; [ | reflexivity ].
  destruct s; discriminate E.
Qed.

(** *** Parameters *)

Lemma starts_with_bracket_digit (c : ascii) (rest : string) :
  digit c = true -> starts_with "[" (String c rest) = false.
Proof.
  destruct c as [[] [] [] [] [] [] [] []]; intros H;
    solve [ discriminate H | destruct rest; reflexivity ].
Qed.

Lemma parseParameters_number (n : Z) :
  0 <= n ->
  parseParameters (MigrationGenerator.Z_to_string n) = [ParamNumber n].
Proof.
  intros Hn.
  destruct (Z_to_string_nonneg n Hn) as (c & rest & -> & Hd & Hv).
  unfold parseParameters. rewrite (trim_digits _ _ Hd).
  pose proof Hd as Hc. simpl in Hc. apply andb_true_iff in Hc.
  destruct Hc as [Hc _].
  rewrite (starts_with_bracket_digit _ _ Hc). cbn [andb].
  rewrite is_digits_spec, Hd, Hv. reflexivity.
Qed.

Lemma split_none (sep : ascii) (s : string) :
  all_chars (fun c => negb (Ascii.eqb c sep)) s = true -> split sep s = [s].
Proof.
  induction s as [ | c s IH ]; [ reflexivity | ].
  cbn [all_chars split]. intros H. apply andb_true_iff in H.
  destruct H as [Hc Hs]. rewrite (IH Hs).
  destruct (Ascii.eqb c sep); [ discriminate Hc | reflexivity ].
Qed.

Lemma split_nonempty sep s : split sep s <> [].
Proof.
  destruct s as [ | c s ]; simpl; [ discriminate | ].
  destruct (Ascii.eqb c sep); [ discriminate | ].
  destruct (split sep s); discriminate.
Qed.

Lemma split_app_sep sep a b :
  split sep (a ++ String sep b) = (split sep a ++ split sep b)%list.
Proof.
  induction a as [ | c a IH ]; simpl.
  - rewrite Ascii.eqb_refl. reflexivity.
  - rewrite IH. destruct (Ascii.eqb c sep); [ reflexivity | ].
    destruct (split sep a) as [ | w ws ] eqn:E; [ | reflexivity ].
    exfalso. exact (split_nonempty _ _ E).
Qed.

Lemma digit_not_comma c : digit c = true -> negb (Ascii.eqb c ",") = true.
Proof.
  destruct c as [[] [] [] [] [] [] [] []]; intros H;
    solve [ reflexivity | discriminate H ].
Qed.

Lemma all_chars_app class a b :
  all_chars class (a ++ b) = all_chars class a && all_chars class b.
Proof.
  induction a as [ | c a IH ]; simpl; [ reflexivity | ].
  rewrite IH. apply andb_assoc.
Qed.

Lemma classifyPart_number (n : Z) :
  0 <= n -> classifyPart (MigrationGenerator.Z_to_string n) = ParamNumber n.
Proof.
  intros Hn.
  destruct (Z_to_string_nonneg n Hn) as (c & rest & -> & Hd & Hv).
  unfold classifyPart. rewrite is_digits_spec, Hd, Hv. reflexivity.
Qed.

Lemma parseParameters_two_numbers (p s : Z) :
  0 <= p -> 0 <= s ->
  parseParameters (MigrationGenerator.Z_to_string p ++ ", "
                   ++ MigrationGenerator.Z_to_string s)
  = [ParamNumber p; ParamNumber s].
Proof.
  intros Hp Hs.
  pose proof (classifyPart_number p Hp) as Cp.
  pose proof (classifyPart_number s Hs) as Cs.
  destruct (Z_to_string_nonneg p Hp) as (c & rest & Ep & Hd & _).
  destruct (Z_to_string_nonneg s Hs) as (c' & rest' & Es & Hd' & _).
  rewrite Ep, Es in *.
  pose proof Hd as Hc. simpl in Hc. apply andb_true_iff in Hc.
  destruct Hc as [Hc _].
  set (P := String c rest) in *. set (S := String c' rest') in *.
  assert (Hfirst : P ++ ", " ++ S = String c (rest ++ ", " ++ S))
    by reflexivity.
  assert (Htrim : trim (P ++ ", " ++ S) = P ++ ", " ++ S).
  { unfold trim.
    replace (trim_start (P ++ ", " ++ S)) with (P ++ ", " ++ S)
      by (rewrite Hfirst; cbn [trim_start];
          rewrite (digit_not_space _ Hc); reflexivity).
    rewrite <- (append_assoc P ", " S).
    apply trim_end_app; [ discriminate | ].
    apply (trim_end_class digit); [ apply digit_not_space | exact Hd' ]. }
  assert (Hsw : starts_with "[" (P ++ ", " ++ S) = false)
    by (rewrite Hfirst; apply starts_with_bracket_digit, Hc).
  assert (Hdig : is_digits (P ++ ", " ++ S) = false).
  { rewrite is_digits_spec, all_chars_app. cbn [append all_chars].
    change (digit ",") with false. rewrite !andb_false_r. reflexivity. }
  assert (Hq : is_quoted (P ++ ", " ++ S) = false)
    by (rewrite Hfirst; apply is_quoted_first, digit_not_quote, Hc).
  assert (Hinc : MigrationGenerator.includes "," (P ++ ", " ++ S) = true)
    by (apply GeneratorExtras.includes_app_r; reflexivity).
  assert (Hsplit : split "," (P ++ ", " ++ S) = [P; " " ++ S]).
  { change (P ++ ", " ++ S) with (P ++ String "," (" " ++ S)).
    rewrite split_app_sep.
    rewrite (split_none "," P)
      by (apply (all_chars_impl digit); [ apply digit_not_comma | exact Hd ]).
    rewrite (split_none "," (" " ++ S)); [ reflexivity | ].
    cbn [append all_chars]. apply andb_true_iff. split; [ reflexivity | ].
    apply (all_chars_impl digit); [ apply digit_not_comma | exact Hd' ]. }
  assert (TP : trim P = P) by (apply trim_digits; exact Hd).
  assert (TS : trim (" " ++ S) = S).
  { unfold trim. cbn [append trim_start]. change (space " ") with true.
    cbv iota. apply (trim_digits c' rest'). exact Hd'. }
  unfold parseParameters. rewrite Htrim, Hsw, Hdig, Hq, Hinc, Hsplit.
  rewrite Hfirst. cbn [andb map]. rewrite TP, TS, Cp, Cs. reflexivity.
Qed.

(** *** The parts of a generated line *)

Lemma if_append (b : bool) (x p : string) :
  (if b then x ++ p else x) = x ++ (if b then p else "").
Proof. destruct b; [ reflexivity | rewrite append_nil_r; reflexivity ]. Qed.

(** The text of a column is the indentation, the call of the builder
    method, and one piece per modifier. *)
Lemma generateColumnBuilder_parts (c indent : string) (isAlter : bool)
  (d : ColumnDefinition) :
  generateColumnBuilder c d indent isAlter
  = indent ++ generateColumnBuilder c (bare d) "" false
    ++ (if truthy (primary d) && negb (isAutoIncrement (type d))
        then ".primary()" else "")
    ++ (if truthy (unique d) then ".unique()" else "")
    ++ (if truthy (nullable d) then ".nullable()"
        else if truthy (required d)
                || match nullable d with
                   | Some false => true
                   | _ => false
                   end
             then ".notNullable()" else "")
    ++ match defaultTo d with
       | Some (PStr s) =>
           if String.eqb s "now" then ".defaultTo(knex.fn.now())"
           else ".defaultTo(" ++ ("'" ++ s ++ "'") ++ ")"
       | Some (PNum n) => ".defaultTo(" ++ Z_to_string n ++ ")"
       | Some (PBool b) =>
           ".defaultTo(" ++ (if b then "true" else "false") ++ ")"
       | None => ""
       end
    ++ (if truthy (index d) then ".index()" else "")
    ++ (if isAlter then ".alter()" else "").
Proof.
  remember (generateColumnBuilder c (bare d) "" false) as head eqn:Hhead.
  cbv beta delta [generateColumnBuilder].
  match goal with
  | |- (let simple := ?sv in @?body simple) = ?rhs =>
      change (body sv = rhs)
  end.
  cbv beta.
  match goal with
  | |- (let builder := ?bv in @?body builder) = ?rhs =>
      assert (E : head = bv) by (rewrite Hhead; reflexivity);
      change (body bv = rhs);
      rewrite <- E; clear E Hhead
  end.
  cbv beta zeta.
  change (match type d with
          | Tincrements | TbigIncrements => true
          | _ => false
          end) with (isAutoIncrement (type d)).
  f_equal.
  destruct (truthy (primary d) && negb (isAutoIncrement (type d)))%bool,
    (truthy (unique d)), (truthy (nullable d)),
    (truthy (required d)
     || match nullable d with Some false => true | _ => false end)%bool,
    (truthy (index d)), isAlter;
    destruct (defaultTo d) as [[s | n | b] | ];
    try destruct (String.eqb s "now");
    rewrite ?append_assoc, ?append_nil_r; reflexivity.
Qed.

(** *** Defaults *)

Section Backtrack.
Context {R : Type}.
Variables (class : ascii -> bool) (k : string -> option R).

(** A greedy repetition that ran to the end gives back its last character
    when the rest of the pattern needs it. *)
Lemma star_greedy_backtrack (pre : string) (x : ascii) (res : R) :
  all_chars class pre = true ->
  k "" = None -> k (String x "") = Some res ->
  star_greedy class (pre ++ String x "") k = Some res.
Proof.
  intros Hall H0 H1. induction pre as [ | c pre IH ]; simpl.
  - destruct (class x); [ rewrite H0 | ]; exact H1.
  - simpl in Hall. apply andb_true_iff in Hall. destruct Hall as [Hc Hall].
    rewrite Hc, (IH Hall). reflexivity.
Qed.
End Backtrack.

Lemma defaultToRegex_match (x : ascii) (xs : string) :
  all_chars dot (String x xs) = true ->
  match_first defaultToRegex ("defaultTo(" ++ String x xs ++ ")")
  = Some [(1%nat, String x xs)].
Proof.
  intros Hall. apply (match_first_here _ _ "").
  unfold match_here, defaultToRegex. lit. seq.
  cbn [rmatch append]. simpl in Hall. apply andb_true_iff in Hall.
  destruct Hall as [Hx Hxs]. rewrite Hx.
  apply (star_greedy_backtrack dot); [ exact Hxs | reflexivity | ].
  change (String x (xs ++ ")")) with (String x xs ++ ")").
  rewrite consumed_append. reflexivity.
Qed.

Lemma applyModifier_defaultTo (def : ColumnDefinition) (x : ascii)
  (xs : string) :
  all_chars dot (String x xs) = true ->
  applyModifierToDefinition def ("defaultTo(" ++ String x xs ++ ")")
  = with_defaultTo (Some (parseDefaultValue (trim (String x xs)))) def.
Proof.
  intros Hall. unfold applyModifierToDefinition.
  rewrite (defaultToRegex_match _ _ Hall).
  unfold starts_with.
  rewrite (GeneratorFacts.prefix_append "defaultTo(" (String x xs ++ ")")).
  reflexivity.
Qed.

(** *** Values of defaults *)

Lemma prefix_snoc (needle a : string) (q : ascii) :
  all_chars (fun c => negb (Ascii.eqb c q)) needle = true ->
  String.prefix needle (a ++ String q "") = true ->
  String.prefix needle a = true.
Proof.
  revert a. induction needle as [ | n0 needle IH ]; intros a Hq.
  - intros _. destruct a; reflexivity.
  - simpl in Hq. apply andb_true_iff in Hq. destruct Hq as [Hn0 Hq].
    destruct a as [ | c a ]; simpl.
    + destruct (ascii_dec n0 q) as [-> | _];
        [ rewrite Ascii.eqb_refl in Hn0; discriminate Hn0 | ].
      discriminate.
    + destruct (ascii_dec n0 c); [ apply IH, Hq | discriminate ].
Qed.

Lemma includes_snoc (needle a : string) (q : ascii) :
  needle <> "" ->
  all_chars (fun c => negb (Ascii.eqb c q)) needle = true ->
  MigrationGenerator.includes needle a = false ->
  MigrationGenerator.includes needle (a ++ String q "") = false.
Proof.
  intros Hne Hq. induction a as [ | c a IH ].
  - intros _. destruct needle as [ | n0 needle ]; [ congruence | ].
    simpl in Hq. apply andb_true_iff in Hq. destruct Hq as [Hn0 _].
    cbn [append MigrationGenerator.includes String.prefix].
    destruct (ascii_dec n0 q) as [-> | _];
      [ rewrite Ascii.eqb_refl in Hn0; discriminate Hn0 | reflexivity ].
  - change (String c a ++ String q "") with (String c (a ++ String q "")).
    cbn [MigrationGenerator.includes].
    destruct (String.prefix needle (String c a)) eqn:E; [ discriminate | ].
    intros H. rewrite (IH H).
    destruct (String.prefix needle (String c (a ++ String q ""))) eqn:E';
      [ | reflexivity ].
    apply (prefix_snoc needle (String c a) q Hq) in E'. congruence.
Qed.

Lemma includes_cons (needle a : string) (q : ascii) :
  String.prefix needle (String q a) = false ->
  MigrationGenerator.includes needle (String q a)
  = MigrationGenerator.includes needle a.
Proof. intros H. cbn [MigrationGenerator.includes]. rewrite H. reflexivity. Qed.

Lemma parseDefaultValue_quoted (s : string) :
  all_chars not_quote s = true ->
  MigrationGenerator.includes "CURRENT_TIMESTAMP" s = false ->
  parseDefaultValue ("'" ++ s ++ "'") = PStr s.
Proof.
  intros Hs Hinc.
  assert (H : MigrationGenerator.includes "CURRENT_TIMESTAMP"
                ("'" ++ s ++ "'") = false).
  { change ("'" ++ s ++ "'") with (String "'" (s ++ String "'" "")).
    rewrite includes_cons by reflexivity.
    apply includes_snoc; [ discriminate | reflexivity | exact Hinc ]. }
  unfold parseDefaultValue. rewrite H, orb_false_r.
  destruct (String.eqb_spec ("'" ++ s ++ "'") "knex.raw('CURRENT_TIMESTAMP')")
    as [E | _]; [ discriminate E | ].
  destruct (String.eqb_spec ("'" ++ s ++ "'") "'CURRENT_TIMESTAMP'")
    as [E | _]; [ rewrite E in H; discriminate H | ].
  cbn [orb].
  change ("'" ++ s ++ "'") with (String "'" (s ++ String "'" "")).
  rewrite is_quoted_wrapped by (reflexivity || exact Hs).
  unfold slice_1_m1. rewrite drop_last_snoc. reflexivity.
Qed.

Lemma includes_digits (s : string) :
  all_chars digit s = true ->
  MigrationGenerator.includes "CURRENT_TIMESTAMP" s = false.
Proof.
  induction s as [ | c s IH ]; [ reflexivity | ].
  cbn [all_chars]. intros H. apply andb_true_iff in H. destruct H as [Hc Hs].
  rewrite includes_cons; [ exact (IH Hs) | ].
  destruct c as [[] [] [] [] [] [] [] []];
    solve [ discriminate Hc | reflexivity ].
Qed.

Lemma parseDefaultValue_number (n : Z) :
  0 <= n -> parseDefaultValue (MigrationGenerator.Z_to_string n) = PNum n.
Proof.
  intros Hn.
  destruct (Z_to_string_nonneg n Hn) as (c & rest & -> & Hd & Hv).
  pose proof (includes_digits _ Hd) as H.
  pose proof Hd as Hc. simpl in Hc. apply andb_true_iff in Hc.
  destruct Hc as [Hc _].
  unfold parseDefaultValue. rewrite H, orb_false_r.
  destruct (String.eqb_spec (String c rest) "knex.raw('CURRENT_TIMESTAMP')")
    as [E | _]; [ rewrite E in H; discriminate H | ].
  destruct (String.eqb_spec (String c rest) "'CURRENT_TIMESTAMP'")
    as [E | _]; [ rewrite E in H; discriminate H | ].
  cbn [orb]. rewrite (is_quoted_first _ _ (digit_not_quote _ Hc)).
  destruct (String.eqb_spec (String c rest) "true")
    as [E | _]; [ rewrite E in Hd; discriminate Hd | ].
  destruct (String.eqb_spec (String c rest) "false")
    as [E | _]; [ rewrite E in Hd; discriminate Hd | ].
  rewrite is_digits_spec, Hd, Hv. reflexivity.
Qed.

(** *** Column lines *)

Lemma match_first_indent (r : regex) (indent s : string) :
  all_chars space indent = true ->
  match_first (Seq (Lit "table.") r) (indent ++ s)
  = match_first (Seq (Lit "table.") r) s.
Proof.
  induction indent as [ | c indent IH ]; [ reflexivity | ].
  cbn [all_chars]. intros H. apply andb_true_iff in H. destruct H as [Hc Hi].
  change (String c indent ++ s) with (String c (indent ++ s)).
  cbn [match_first]. rewrite (IH Hi).
  replace (match_here (Seq (Lit "table.") r) (String c (indent ++ s)))
    with (@None (string * captures)); [ reflexivity | ].
  unfold match_here. cbn [rmatch strip_prefix].
  destruct c as [[] [] [] [] [] [] [] []];
    solve [ discriminate Hc | reflexivity ].
Qed.

Lemma parseColumnLine_plain (tok c chain indent : string) :
  tok <> "" -> all_chars word tok = true ->
  c <> "" -> all_chars not_quote c = true ->
  all_chars dot chain = true -> all_chars space indent = true ->
  parseColumnLine (indent ++ ("table." ++ tok ++ "('" ++ c ++ "')") ++ chain)
  = Some (ParsedColumn.make c tok (parseModifiers chain) []).
Proof.
  intros Ht1 Ht2 Hc1 Hc2 Hchain Hindent. unfold parseColumnLine.
  unfold columnRegex at 1. rewrite match_first_indent by exact Hindent.
  fold columnRegex.
  assert (E : ("table." ++ tok ++ "('" ++ c ++ "')") ++ chain
              = "table." ++ tok ++ "(" ++ "'" ++ c ++ "'" ++ ")" ++ chain)
    by (rewrite !append_assoc; reflexivity).
  rewrite E.
  rewrite (match_first_here _ _ _ _
             (columnRegex_plain tok c chain Ht1 Ht2 Hc1 Hc2 Hchain)).
  reflexivity.
Qed.

Lemma parseColumnLine_params (tok c chain indent : string) (x : ascii)
  (xs : string) :
  tok <> "" -> all_chars word tok = true ->
  c <> "" -> all_chars not_quote c = true ->
  space x = false -> all_chars not_close_paren (String x xs) = true ->
  all_chars dot chain = true -> all_chars space indent = true ->
  parseColumnLine
    (indent ++ ("table." ++ tok ++ "('" ++ c ++ "', " ++ String x xs ++ ")")
       ++ chain)
  = Some (ParsedColumn.make c tok (parseModifiers chain)
            (parseParameters (String x xs))).
Proof.
  intros Ht1 Ht2 Hc1 Hc2 Hx Hxs Hchain Hindent. unfold parseColumnLine.
  unfold columnRegex at 1. rewrite match_first_indent by exact Hindent.
  fold columnRegex.
  assert (E : ("table." ++ tok ++ "('" ++ c ++ "', " ++ String x xs ++ ")")
                ++ chain
              = "table." ++ tok ++ "(" ++ "'" ++ c ++ "'" ++ "," ++ " "
                  ++ String x xs ++ ")" ++ chain)
    by (rewrite !append_assoc; reflexivity).
  rewrite E.
  rewrite (match_first_here _ _ _ _
             (columnRegex_params tok c chain x xs Ht1 Ht2 Hc1 Hc2 Hx Hxs
                Hchain)).
  reflexivity.
Qed.

(** *** Enum values *)

Lemma value_char_parts (s : string) :
  all_chars value_char s = true ->
  all_chars not_quote s = true /\ all_chars not_close_paren s = true
  /\ all_chars (fun c => negb (Ascii.eqb c ",")) s = true.
Proof.
  induction s as [ | c s IH ]; [ repeat split | ].
  cbn [all_chars]. unfold value_char at 1. intros H.
  apply andb_true_iff in H. destruct H as [Hc Hs].
  apply andb_true_iff in Hc. destruct Hc as [Hc H3].
  apply andb_true_iff in Hc. destruct Hc as [H1 H2].
  destruct (IH Hs) as (I1 & I2 & I3).
  rewrite H1, H2, H3, I1, I2, I3. repeat split.
Qed.

Lemma arrayItem_quoted (v : string) :
  all_chars not_quote v = true -> arrayItem (quoted v) = v.
Proof.
  intros Hv. unfold arrayItem, quoted.
  assert (Htrim : trim ("'" ++ v ++ "'") = "'" ++ v ++ "'").
  { unfold trim. cbn [append trim_start]. change (space "'") with false.
    cbv iota.
    change (String "'" (v ++ "'")) with (String "'" v ++ String "'" "").
    apply trim_end_last. reflexivity. }
  rewrite Htrim.
  change ("'" ++ v ++ "'") with (String "'" (v ++ String "'" "")).
  rewrite is_quoted_wrapped by (reflexivity || exact Hv).
  unfold slice_1_m1. apply drop_last_snoc.
Qed.

Lemma arrayItem_space_quoted (v : string) :
  all_chars not_quote v = true -> arrayItem (" " ++ quoted v) = v.
Proof.
  intros Hv. rewrite <- (arrayItem_quoted v Hv) at 2.
  unfold arrayItem.
  change (trim (" " ++ quoted v)) with (trim (quoted v)). reflexivity.
Qed.

Lemma all_chars_quoted class (v : string) :
  class "'"%char = true -> all_chars class v = true ->
  all_chars class (quoted v) = true.
Proof.
  intros Hq Hv. unfold quoted. rewrite !all_chars_app, Hv.
  cbn [all_chars]. rewrite Hq. reflexivity.
Qed.

Lemma split_join_quoted (v : string) (vs : list string) :
  Forall (fun v => readable_value v = true) (v :: vs) ->
  split "," (join ", " (map (fun v => "'" ++ v ++ "'") (v :: vs)))
  = quoted v :: map (fun v => " " ++ quoted v) vs.
Proof.
  revert v. induction vs as [ | w vs IH ]; intros v Hall.
  - inversion Hall as [ | ? ? Hv _ ]; subst.
    unfold readable_value in Hv. apply andb_true_iff in Hv.
    destruct Hv as [_ Hv]. destruct (value_char_parts v Hv) as (_ & _ & Hc).
    cbn [map join String.concat].
    apply split_none. apply (all_chars_quoted _ v eq_refl Hc).
  - inversion Hall as [ | ? ? Hv Hrest ]; subst.
    unfold readable_value in Hv. apply andb_true_iff in Hv.
    destruct Hv as [_ Hv]. destruct (value_char_parts v Hv) as (_ & _ & Hc).
    specialize (IH w Hrest).
    change (join ", " (map (fun v => "'" ++ v ++ "'") (v :: w :: vs)))
      with (quoted v ++ String ","
              (String " "
                 (join ", " (map (fun v => "'" ++ v ++ "'") (w :: vs))))).
    rewrite split_app_sep.
    rewrite (split_none "," (quoted v))
      by (apply (all_chars_quoted _ v eq_refl Hc)).
    cbn [app]. f_equal.
    cbn [split]. change (Ascii.eqb " " ",") with false. cbv iota.
    rewrite IH. reflexivity.
Qed.

Lemma ends_with_snoc (a : string) (c : ascii) :
  ends_with c (a ++ String c "") = true.
Proof.
  induction a as [ | x a IH ]; simpl; [ apply Ascii.eqb_refl | ].
  destruct (a ++ String c "") eqn:E; [ destruct a; discriminate E | ].
  exact IH.
Qed.

Lemma all_chars_join class (sep : string) (l : list string) :
  all_chars class sep = true ->
  Forall (fun s => all_chars class s = true) l ->
  all_chars class (join sep l) = true.
Proof.
  intros Hsep. unfold join. induction l as [ | s l IH ]; [ reflexivity | ].
  intros H. inversion H as [ | ? ? Hs Hl ]; subst.
  destruct l as [ | s' l ]; [ exact Hs | ].
  change (String.concat sep (s :: s' :: l))
    with (s ++ sep ++ String.concat sep (s' :: l)).
  rewrite !all_chars_app, Hs, Hsep, (IH Hl). reflexivity.
Qed.

Lemma map_arrayItem (vs : list string) :
  Forall (fun v => readable_value v = true) vs ->
  map arrayItem (map (fun v => " " ++ quoted v) vs) = vs.
Proof.
  induction vs as [ | v vs IH ]; [ reflexivity | ].
  intros H. inversion H as [ | ? ? Hv Hvs ]; subst.
  unfold readable_value in Hv. apply andb_true_iff in Hv.
  destruct Hv as [_ Hv]. destruct (value_char_parts v Hv) as (Hq & _ & _).
  cbn [map]. rewrite (arrayItem_space_quoted v Hq), (IH Hvs). reflexivity.
Qed.

Lemma filter_nonempty (vs : list string) :
  Forall (fun v => readable_value v = true) vs ->
  filter (fun item => negb (String.eqb item "")) vs = vs.
Proof.
  induction vs as [ | v vs IH ]; [ reflexivity | ].
  intros H. inversion H as [ | ? ? Hv Hvs ]; subst.
  unfold readable_value in Hv. apply andb_true_iff in Hv.
  destruct Hv as [Hne _]. cbn [filter]. rewrite Hne, (IH Hvs). reflexivity.
Qed.

Lemma values_text_chars (vs : list string) :
  Forall (fun v => readable_value v = true) vs ->
  all_chars not_close_paren
    (join ", " (map (fun v => "'" ++ v ++ "'") vs)) = true.
Proof.
  intros H. apply all_chars_join; [ reflexivity | ].
  apply Forall_forall. intros s Hin. apply in_map_iff in Hin.
  destruct Hin as (v & <- & Hin). rewrite Forall_forall in H.
  specialize (H v Hin). unfold readable_value in H.
  apply andb_true_iff in H. destruct H as [_ Hv].
  destruct (value_char_parts v Hv) as (_ & Hp & _).
  apply (all_chars_quoted _ v eq_refl Hp).
Qed.

Lemma parseParameters_values (v : string) (vs : list string) :
  Forall (fun v => readable_value v = true) (v :: vs) ->
  parseParameters
    (String "[" (join ", " (map (fun v => "'" ++ v ++ "'") (v :: vs)) ++ "]"))
  = map ParamString (v :: vs).
Proof.
  intros Hall.
  set (J := join ", " (map (fun v => "'" ++ v ++ "'") (v :: vs))).
  assert (Htrim : trim (String "[" (J ++ "]")) = String "[" (J ++ "]")).
  { unfold trim. cbn [trim_start]. change (space "[") with false. cbv iota.
    change (String "[" (J ++ "]")) with (String "[" J ++ String "]" "").
    apply trim_end_last. reflexivity. }
  unfold parseParameters. rewrite Htrim.
  assert (Hsw : starts_with "[" (String "[" (J ++ "]")) = true)
    by (apply (GeneratorFacts.prefix_append "[" (J ++ "]"))).
  assert (Hew : ends_with "]" (String "[" (J ++ "]")) = true)
    by (apply (ends_with_snoc (String "[" J) "]")).
  rewrite Hsw, Hew. cbn [andb].
  unfold slice_1_m1. rewrite drop_last_snoc.
  unfold J. rewrite (split_join_quoted v vs Hall).
  inversion Hall as [ | ? ? Hv Hvs ]; subst.
  pose proof Hv as Hv'. unfold readable_value in Hv'.
  apply andb_true_iff in Hv'. destruct Hv' as [_ Hv'].
  destruct (value_char_parts v Hv') as (Hq & _ & _).
  cbn [map]. rewrite (arrayItem_quoted v Hq), (map_arrayItem vs Hvs).
  rewrite (filter_nonempty (v :: vs) Hall). reflexivity.
Qed.

Lemma stringParameters_strings (vs : list string) :
  stringParameters (map ParamString vs) = vs.
Proof.
  unfold stringParameters. induction vs as [ | v vs IH ]; [ reflexivity | ].
  cbn [map flat_map app ParamString]. rewrite IH. reflexivity.
Qed.

(** *** The call of the builder method *)

Ltac token_of t :=
  lazymatch t with
  | Tincrements => constr:("increments")
  | TbigIncrements => constr:("bigIncrements")
  | Tinteger => constr:("integer")
  | TbigInteger => constr:("bigInteger")
  | Tstring => constr:("string")
  | Ttext => constr:("text")
  | Tboolean => constr:("boolean")
  | Tdate => constr:("date")
  | Tdatetime => constr:("datetime")
  | Ttimestamp => constr:("timestamp")
  | Ttime => constr:("time")
  | Tfloat => constr:("float")
  | Tdouble => constr:("double")
  | Tdecimal => constr:("decimal")
  | Tbinary => constr:("binary")
  | Tjson => constr:("json")
  | Tjsonb => constr:("jsonb")
  | Tuuid => constr:("uuid")
  end.

Ltac normalize_append :=
  repeat (progress (cbn [append]; rewrite ?append_assoc)).

Ltac align H :=
  match goal with
  | |- parseColumnLine ?g = _ =>
      match type of H with
      | parseColumnLine ?h = _ =>
          replace g with h; [ exact H | normalize_append; reflexivity ]
      end
  end.

Lemma digits_text (n : Z) :
  0 <= n ->
  exists x xs,
    Z_to_string n = String x xs
    /\ space x = false
    /\ all_chars digit (String x xs) = true.
Proof.
  intros Hn.
  destruct (Z_to_string_nonneg n Hn) as (c & rest & E & Hd & _).
  exists c, rest. split; [ exact E | ]. split; [ | exact Hd ].
  simpl in Hd. apply andb_true_iff in Hd. apply digit_not_space, Hd.
Qed.

(** The call of the builder method, followed by any chain without line
    terminator, is a column line; its type token and parameters give back
    the type and the sizes. *)
Lemma head_parsed (c indent chain : string) (d : ColumnDefinition) :
  c <> "" -> all_chars not_quote c = true ->
  all_chars space indent = true -> all_chars dot chain = true ->
  readable_sizes d = true ->
  exists tok ps,
    parseColumnLine (indent ++ generateColumnBuilder c (bare d) "" false
                       ++ chain)
    = Some (ParsedColumn.make c tok (parseModifiers chain) ps)
    /\ dict_get typeMapping tok = Some (type d)
    /\ applyParameters tok ps (column (type d)) = bare d
    /\ (String.eqb tok "increments" || String.eqb tok "bigIncrements")%bool
       = isAutoIncrement (type d).
Proof.
  intros Hc1 Hc2 Hindent Hchain Hsizes.
  destruct d as [t p u n r dflt ou i cm ml pr sc vs].
  unfold readable_sizes in Hsizes.
  cbn [type maxLength precision scale values] in *.
  unfold bare. cbn [type maxLength precision scale values].
  destruct t.
  all: try solve
          [ destruct ml, pr, sc, vs; try discriminate Hsizes;
            match goal with
            | |- context [mkColumn ?t] =>
                let tok := token_of t in
                exists tok, [];
                split; [ exact (parseColumnLine_plain tok c chain indent
                                  ltac:(discriminate) eq_refl Hc1 Hc2 Hchain
                                  Hindent)
                       | repeat split ]
            end ].
  - (* string *)
    destruct pr, sc, vs; cbn [absent] in Hsizes;
      rewrite ?andb_false_r, ?andb_true_r in Hsizes;
      try discriminate Hsizes.
    destruct ml as [len | ].
    + apply Z.ltb_lt in Hsizes.
      destruct (digits_text len ltac:(lia)) as (x & xs & E & Hx & Hd).
      exists "string", [ParamNumber len].
      split; [ | repeat split ].
      * pose proof (parseColumnLine_params "string" c chain indent x xs
                      ltac:(discriminate) eq_refl Hc1 Hc2 Hx
                      (all_chars_impl _ _ _ digit_not_close_paren Hd)
                      Hchain Hindent) as H.
        rewrite <- E in H. rewrite parseParameters_number in H by lia.
        unfold generateColumnBuilder.
        cbn [type maxLength truthy_number primary unique nullable required
             defaultTo index truthy andb].
        destruct (Z.eqb_spec len 0) as [-> | _]; [ lia | ].
        exact H.
    + exists "string", [].
      split; [ exact (parseColumnLine_plain "string" c chain indent
                        ltac:(discriminate) eq_refl Hc1 Hc2 Hchain Hindent)
             | repeat split ].
  - (* decimal *)
    destruct ml; [ discriminate Hsizes | ].
    destruct vs; [ discriminate Hsizes | ].
    destruct pr as [p0 | ], sc as [s0 | ]; try discriminate Hsizes.
    + cbn [absent andb] in Hsizes. apply andb_true_iff in Hsizes.
      destruct Hsizes as [Hp Hs]. apply Z.ltb_lt in Hp, Hs.
      destruct (digits_text p0 ltac:(lia)) as (x & xs & E & Hx & Hd).
      destruct (digits_text s0 ltac:(lia)) as (y & ys & E' & Hy & Hd').
      exists "decimal", [ParamNumber p0; ParamNumber s0].
      split; [ | repeat split ].
      * assert (Hall : all_chars not_close_paren
                         (String x (xs ++ ", " ++ String y ys)) = true).
        { change (String x (xs ++ ", " ++ String y ys))
            with (String x xs ++ ", " ++ String y ys).
          rewrite !all_chars_app.
          rewrite (all_chars_impl _ _ _ digit_not_close_paren Hd).
          rewrite (all_chars_impl _ _ _ digit_not_close_paren Hd').
          reflexivity. }
        pose proof (parseColumnLine_params "decimal" c chain indent x
                      (xs ++ ", " ++ String y ys)
                      ltac:(discriminate) eq_refl Hc1 Hc2 Hx Hall
                      Hchain Hindent) as H.
        change (String x (xs ++ ", " ++ String y ys))
          with (String x xs ++ ", " ++ String y ys) in H.
        rewrite <- E, <- E' in H.
        rewrite parseParameters_two_numbers in H by lia.
        unfold generateColumnBuilder.
        cbn [type precision scale truthy_number primary unique nullable
             required defaultTo index truthy andb orb negb].
        destruct (Z.eqb_spec p0 0) as [-> | _]; [ lia | ].
        destruct (Z.eqb_spec s0 0) as [-> | _]; [ lia | ].
        cbv zeta. align H.
    + exists "decimal", [].
      split; [ exact (parseColumnLine_plain "decimal" c chain indent
                        ltac:(discriminate) eq_refl Hc1 Hc2 Hchain Hindent)
             | repeat split ].
  - (* enum *)
    destruct ml, pr, sc; try discriminate Hsizes.
    destruct vs as [[ | v vs] | ]; try discriminate Hsizes.
    cbn [absent andb] in Hsizes.
    assert (Hall : Forall (fun v => readable_value v = true) (v :: vs))
      by (apply Forall_forall, forallb_forall; exact Hsizes).
    set (J := join ", " (map (fun v => "'" ++ v ++ "'") (v :: vs))).
    exists "enum", (map ParamString (v :: vs)).
    split; [ | split; [ reflexivity | split; [ | reflexivity ] ] ].
    + assert (Hargs : all_chars not_close_paren (String "[" (J ++ "]"))
                      = true).
      { change (String "[" (J ++ "]")) with ("[" ++ J ++ "]").
        rewrite !all_chars_app. unfold J.
        rewrite (values_text_chars _ Hall). reflexivity. }
      pose proof (parseColumnLine_params "enum" c chain indent "["
                    (J ++ "]") ltac:(discriminate) eq_refl Hc1 Hc2 eq_refl
                    Hargs Hchain Hindent) as H.
      unfold J in H at 2. rewrite (parseParameters_values v vs Hall) in H.
      unfold generateColumnBuilder.
      cbn [type values primary unique nullable required defaultTo index
           truthy andb orb negb].
      cbv zeta. fold J. align H.
    + unfold applyParameters.
      rewrite (stringParameters_strings (v :: vs)). reflexivity.
Qed.

(** *** The modifier chain, piece by piece *)

Lemma parseModifiers_primary (b : bool) (rest : string) :
  parseModifiers ((if b then ".primary()" else "") ++ rest)
  = ((if b then ["primary"] else []) ++ parseModifiers rest)%list.
Proof.
  destruct b; [ | reflexivity ].
  exact (parseModifiers_plain "primary" rest ltac:(discriminate) eq_refl).
Qed.

Lemma parseModifiers_unique (b : bool) (rest : string) :
  parseModifiers ((if b then ".unique()" else "") ++ rest)
  = ((if b then ["unique"] else []) ++ parseModifiers rest)%list.
Proof.
  destruct b; [ | reflexivity ].
  exact (parseModifiers_plain "unique" rest ltac:(discriminate) eq_refl).
Qed.

Lemma parseModifiers_nullable (b b' : bool) (rest : string) :
  parseModifiers ((if b then ".nullable()"
                   else if b' then ".notNullable()" else "") ++ rest)
  = ((if b then ["nullable"] else if b' then ["notNullable"] else [])
       ++ parseModifiers rest)%list.
Proof.
  destruct b; [ | destruct b'; [ | reflexivity ] ].
  - exact (parseModifiers_plain "nullable" rest ltac:(discriminate) eq_refl).
  - exact (parseModifiers_plain "notNullable" rest ltac:(discriminate)
             eq_refl).
Qed.

Lemma parseModifiers_index (b : bool) (rest : string) :
  parseModifiers ((if b then ".index()" else "") ++ rest)
  = ((if b then ["index"] else []) ++ parseModifiers rest)%list.
Proof.
  destruct b; [ | reflexivity ].
  exact (parseModifiers_plain "index" rest ltac:(discriminate) eq_refl).
Qed.

Lemma parseModifiers_alter (b : bool) :
  parseModifiers (if b then ".alter()" else "")
  = if b then ["alter"] else [].
Proof. destruct b; reflexivity. Qed.

Lemma default_char_parts (s : string) :
  all_chars default_char s = true ->
  all_chars dot s = true /\ all_chars not_quote s = true
  /\ all_chars not_close_paren s = true.
Proof.
  induction s as [ | c s IH ]; [ repeat split | ].
  cbn [all_chars]. unfold default_char at 1. intros H.
  apply andb_true_iff in H. destruct H as [Hc Hs].
  apply andb_true_iff in Hc. destruct Hc as [Hc H3].
  apply andb_true_iff in Hc. destruct Hc as [H1 H2].
  destruct (IH Hs) as (I1 & I2 & I3).
  rewrite H1, H2, H3, I1, I2, I3. repeat split.
Qed.

Ltac align_modifiers H :=
  match goal with
  | |- parseModifiers ?g = _ =>
      match type of H with
      | parseModifiers ?h = _ =>
          replace g with h; [ exact H | normalize_append; reflexivity ]
      end
  end.

(** The piece of a readable default is one modifier, which sets the
    default back. *)
Lemma default_piece (v : option JsPrim) (rest : string) :
  readable_default v = true ->
  exists toks,
    parseModifiers
      (match v with
       | Some (PStr s) =>
           if String.eqb s "now" then ".defaultTo(knex.fn.now())"
           else ".defaultTo(" ++ ("'" ++ s ++ "'") ++ ")"
       | Some (PNum n) => ".defaultTo(" ++ Z_to_string n ++ ")"
       | Some (PBool b) =>
           ".defaultTo(" ++ (if b then "true" else "false") ++ ")"
       | None => ""
       end ++ rest)
    = (toks ++ parseModifiers rest)%list
    /\ (forall a,
         fold_left applyModifierToDefinition toks a
         = match v with
           | Some x => with_defaultTo (Some x) a
           | None => a
           end)
    /\ ~ In "notNullable" toks.
Proof.
  destruct v as [[s | n | b] | ]; cbn [readable_default]; intros Hr.
  - apply andb_true_iff in Hr. destruct Hr as [Hr Hnow].
    apply andb_true_iff in Hr. destruct Hr as [Hs Hinc].
    apply negb_true_iff in Hnow, Hinc. rewrite Hnow.
    destruct (default_char_parts s Hs) as (Hdot & Hquote & Hparen).
    assert (Hargs : all_chars not_close_paren (String "'" (s ++ "'")) = true).
    { change (String "'" (s ++ "'")) with ("'" ++ s ++ "'").
      rewrite !all_chars_app, Hparen. reflexivity. }
    assert (Hdots : all_chars dot (String "'" (s ++ "'")) = true).
    { change (String "'" (s ++ "'")) with ("'" ++ s ++ "'").
      rewrite !all_chars_app, Hdot. reflexivity. }
    assert (Htrim : trim (String "'" (s ++ "'")) = String "'" (s ++ "'")).
    { unfold trim. cbn [trim_start]. change (space "'") with false. cbv iota.
      change (String "'" (s ++ "'")) with (String "'" s ++ String "'" "").
      apply trim_end_last. reflexivity. }
    exists ["defaultTo(" ++ String "'" (s ++ "'") ++ ")"].
    split; [ | split; [ | intros [Habs | []]; discriminate Habs ] ].
    + pose proof (parseModifiers_args "defaultTo" rest "'" (s ++ "'")
                    ltac:(discriminate) eq_refl eq_refl Hargs Htrim) as H.
      align_modifiers H.
    + intros a. cbn [fold_left].
      rewrite (applyModifier_defaultTo a _ _ Hdots), Htrim.
      change (String "'" (s ++ "'")) with ("'" ++ s ++ "'").
      rewrite (parseDefaultValue_quoted s Hquote Hinc). reflexivity.
  - apply Z.leb_le in Hr.
    destruct (digits_text n Hr) as (x & xs & E & Hx & Hd).
    pose proof (all_chars_impl _ _ _ digit_not_close_paren Hd) as Hargs.
    pose proof (all_chars_impl _ _ _ digit_dot Hd) as Hdots.
    pose proof (trim_digits _ _ Hd) as Htrim.
    exists ["defaultTo(" ++ String x xs ++ ")"].
    split; [ | split; [ | intros [Habs | []]; discriminate Habs ] ].
    + pose proof (parseModifiers_args "defaultTo" rest x xs
                    ltac:(discriminate) eq_refl Hx Hargs Htrim) as H.
      rewrite E. align_modifiers H.
    + intros a. cbn [fold_left].
      rewrite (applyModifier_defaultTo a _ _ Hdots), Htrim, <- E.
      rewrite (parseDefaultValue_number n Hr). reflexivity.
  - exists ["defaultTo(" ++ (if b then "true" else "false") ++ ")"].
    split; [ | split; [ | intros [Habs | []]; destruct b; discriminate Habs ] ].
    + destruct b.
      * pose proof (parseModifiers_args "defaultTo" rest "t" "rue"
                      ltac:(discriminate) eq_refl eq_refl eq_refl eq_refl)
          as H.
        align_modifiers H.
      * pose proof (parseModifiers_args "defaultTo" rest "f" "alse"
                      ltac:(discriminate) eq_refl eq_refl eq_refl eq_refl)
          as H.
        align_modifiers H.
    + intros a. destruct b; reflexivity.
  - exists []. split; [ reflexivity | split; [ reflexivity | intros [] ] ].
Qed.

(** *** A generated line, read back *)

Lemma fold_opt (b : bool) (tok : string) (rest : list string)
  (a : ColumnDefinition) :
  fold_left applyModifierToDefinition
    ((if b then [tok] else []) ++ rest)%list a
  = fold_left applyModifierToDefinition rest
      (if b then applyModifierToDefinition a tok else a).
Proof. destruct b; reflexivity. Qed.

Lemma fold_nullable (b b' : bool) (rest : list string)
  (a : ColumnDefinition) :
  fold_left applyModifierToDefinition
    ((if b then ["nullable"] else if b' then ["notNullable"] else [])
       ++ rest)%list a
  = fold_left applyModifierToDefinition rest
      (if b then with_nullable (Some true) a
       else if b' then with_required (Some true) a else a).
Proof. destruct b; [ | destruct b' ]; reflexivity. Qed.

Lemma all_chars_if class (b : bool) (s : string) :
  all_chars class s = true ->
  all_chars class (if b then s else "") = true.
Proof. destruct b; [ auto | reflexivity ]. Qed.

Lemma default_piece_dot (v : option JsPrim) :
  readable_default v = true ->
  all_chars dot
    (match v with
     | Some (PStr s) =>
         if String.eqb s "now" then ".defaultTo(knex.fn.now())"
         else ".defaultTo(" ++ ("'" ++ s ++ "'") ++ ")"
     | Some (PNum n) => ".defaultTo(" ++ Z_to_string n ++ ")"
     | Some (PBool b) =>
         ".defaultTo(" ++ (if b then "true" else "false") ++ ")"
     | None => ""
     end) = true.
Proof.
  destruct v as [[s | n | b] | ]; cbn [readable_default]; intros Hr.
  - apply andb_true_iff in Hr. destruct Hr as [Hr _].
    apply andb_true_iff in Hr. destruct Hr as [Hs _].
    destruct (default_char_parts s Hs) as (Hdot & _ & _).
    destruct (String.eqb s "now"); [ reflexivity | ].
    rewrite !all_chars_app, Hdot. reflexivity.
  - apply Z.leb_le in Hr.
    destruct (digits_text n Hr) as (x & xs & E & Hx & Hd).
    rewrite E, !all_chars_app, (all_chars_impl _ _ _ digit_dot Hd).
    reflexivity.
  - destruct b; reflexivity.
  - reflexivity.
Qed.

(** Reading a generated line back, for any default whose piece is read
    as the modifiers [toks] that set the default to [v']. *)
Lemma reads_back_core (c indent : string) (isAlter : bool)
  (d : ColumnDefinition) (v' : option JsPrim) :
  c <> "" -> all_chars not_quote c = true ->
  all_chars space indent = true ->
  readable_sizes d = true -> readable_flags d = true ->
  (forall defaultText : string,
     defaultText
     = match defaultTo d with
       | Some (PStr s) =>
           if String.eqb s "now" then ".defaultTo(knex.fn.now())"
           else ".defaultTo(" ++ ("'" ++ s ++ "'") ++ ")"
       | Some (PNum n) => ".defaultTo(" ++ Z_to_string n ++ ")"
       | Some (PBool b) =>
           ".defaultTo(" ++ (if b then "true" else "false") ++ ")"
       | None => ""
       end ->
     all_chars dot defaultText = true
     /\ forall rest, exists toks,
          parseModifiers (defaultText ++ rest)
          = (toks ++ parseModifiers rest)%list
          /\ forall a,
               fold_left applyModifierToDefinition toks a
               = match v' with
                 | Some x => with_defaultTo (Some x) a
                 | None => a
                 end) ->
  exists parsed,
    parseColumnLine (generateColumnBuilder c d indent isAlter) = Some parsed
    /\ ParsedColumn.name parsed = c
    /\ convertColumnToDefinition parsed = Some (with_defaultTo v' d).
Proof.
  intros Hc1 Hc2 Hindent Hsizes Hr Hdefault.
  specialize (Hdefault _ eq_refl). destruct Hdefault as [Hdot Hpiece].
  unfold readable_flags in Hr.
  apply andb_true_iff in Hr. destruct Hr as [Hr Hnull].
  apply andb_true_iff in Hr. destruct Hr as [Hr Hindex].
  apply andb_true_iff in Hr. destruct Hr as [Hr Hunique].
  apply andb_true_iff in Hr. destruct Hr as [Hr Hprimary].
  apply andb_true_iff in Hr. destruct Hr as [Hcomment HonUpdate].
  rewrite generateColumnBuilder_parts.
  match goal with
  | |- context [indent ++ generateColumnBuilder c (bare d) "" false ++ ?ch] =>
      set (chain := ch)
  end.
  assert (Hchain : all_chars dot chain = true).
  { unfold chain. rewrite !all_chars_app. rewrite Hdot.
    repeat match goal with
           | |- context [all_chars dot (if ?b then _ else _)] =>
               destruct b; cbn [all_chars andb]
           end; reflexivity. }
  destruct (head_parsed c indent chain d Hc1 Hc2 Hindent Hchain Hsizes)
    as (tok & ps & Hparse & Hmap & Hparams & Hauto).
  exists (ParsedColumn.make c tok (parseModifiers chain) ps).
  split; [ exact Hparse | ]. split; [ reflexivity | ].
  unfold convertColumnToDefinition.
  cbn [ParsedColumn.type ParsedColumn.parameters ParsedColumn.modifiers].
  rewrite Hmap, Hparams, Hauto.
  destruct (Hpiece ((if truthy (index d) then ".index()" else "")
                    ++ (if isAlter then ".alter()" else "")))
    as (toks & Htoks & Hfold).
  unfold chain.
  rewrite parseModifiers_primary, parseModifiers_unique,
    parseModifiers_nullable, Htoks, parseModifiers_index,
    parseModifiers_alter.
  rewrite fold_opt, fold_opt, fold_nullable, fold_left_app, Hfold, fold_opt.
  clear Hparse Hmap Hparams Hauto Htoks Hfold Hchain chain toks tok ps
    Hsizes Hdot Hpiece.
  destruct d as [t p u n r dflt ou i cm ml pr sc vs].
  cbn [type primary unique nullable required defaultTo onUpdate index
       comment values bare maxLength precision scale] in *.
  destruct ou; [ discriminate HonUpdate | ].
  destruct cm; [ discriminate Hcomment | ].
  destruct p as [[] | ], u as [[] | ], n as [[] | ], r as [[] | ],
    i as [[] | ];
    try discriminate Hunique; try discriminate Hindex;
    try discriminate Hnull;
    destruct (isAutoIncrement t); try discriminate Hprimary;
    destruct isAlter, v'; reflexivity.
Qed.

End ReadBackFacts.

Module ReadBackExtras.
Import Regex JsString CallExtractor ColumnParser ExtractorFacts.
Import MigrationGenerator ReadBackFacts.

(** X23: the parser reads back what the generator writes.  Take a column
    name that is not empty and holds no quote, an indentation of blanks,
    and a definition that is [readable]: [primary], [unique] and [index]
    are absent or true, [primary] is true on an auto-increment column,
    [nullable] and [required] are absent or true and not both present,
    there is neither [comment] nor [onUpdate]; [maxLength] appears only
    on a string column and is positive, [precision] and [scale] appear
    only on a decimal column, both or neither, and are positive, [values]
    appears on an enum column and only there and is a list, not empty, of
    texts that are not empty and hold no quote, comma or closing
    parenthesis; the default is absent, a boolean, an integer that is not
    negative, or a text without quote, closing parenthesis or line
    terminator that is not [now] and does not contain
    [CURRENT_TIMESTAMP]; every number is an integer of magnitude below
    2^53.  Then the line [generateColumnBuilder] writes, with or without
    the final [.alter()], is a column line for the parser, and the parsed
    column has the same name and normalizes to the same definition. *)
Theorem generated_column_reads_back (c indent : string) (isAlter : bool)
  (d : ColumnDefinition) :
  c <> "" -> all_chars not_quote c = true ->
  all_chars space indent = true ->
  readable d = true ->
  exists parsed,
    parseColumnLine (generateColumnBuilder c d indent isAlter) = Some parsed
    /\ ParsedColumn.name parsed = c
    /\ convertColumnToDefinition parsed = Some d.
Proof.
  intros Hc1 Hc2 Hindent Hr. unfold readable in Hr.
  apply andb_true_iff in Hr. destruct Hr as [Hr _].
  apply andb_true_iff in Hr. destruct Hr as [Hr Hdefault].
  apply andb_true_iff in Hr. destruct Hr as [Hsizes Hflags].
  destruct (reads_back_core c indent isAlter d (defaultTo d)
              Hc1 Hc2 Hindent Hsizes Hflags) as (parsed & H1 & H2 & H3).
  - intros text ->. split; [ apply default_piece_dot, Hdefault | ].
    intros rest. destruct (default_piece (defaultTo d) rest Hdefault)
      as (toks & E1 & E2 & _).
    exists toks. split; [ exact E1 | exact E2 ].
  - exists parsed. split; [ exact H1 | ]. split; [ exact H2 | ].
    rewrite H3. destruct d; reflexivity.
Qed.

Lemma generated_column_reads_back_witness :
  exists parsed,
    parseColumnLine
      (generateColumnBuilder "name"
         (with_index (Some true)
            (with_defaultTo (Some (PStr "guest"))
               (with_required (Some true)
                  (with_unique (Some true)
                     (with_maxLength (Some 64) (column Tstring))))))
         "    " true)
    = Some parsed
    /\ ParsedColumn.name parsed = "name"
    /\ convertColumnToDefinition parsed
       = Some (with_index (Some true)
                 (with_defaultTo (Some (PStr "guest"))
                    (with_required (Some true)
                       (with_unique (Some true)
                          (with_maxLength (Some 64) (column Tstring)))))).
Proof.
  apply (generated_column_reads_back "name" "    " true);
    [ discriminate | reflexivity | reflexivity | reflexivity ].
Defined.



End ReadBackExtras.

(** * The table builder against the generated text *)

Module BuilderExtras.
Import Regex JsString CallExtractor ColumnParser ExtractorFacts.
Import MigrationGenerator ReadBackFacts.

(** The modifiers the parser finds on a generated line, whatever the
    flags. *)
Lemma generated_modifiers (c indent : string) (isAlter : bool)
  (d : ColumnDefinition) :
  c <> "" -> all_chars not_quote c = true ->
  all_chars space indent = true ->
  readable_sizes d = true -> readable_default (defaultTo d) = true ->
  exists parsed toks,
    parseColumnLine (generateColumnBuilder c d indent isAlter) = Some parsed
    /\ ~ In "notNullable" toks
    /\ ParsedColumn.modifiers parsed
       = ((if truthy (primary d) && negb (isAutoIncrement (type d))
           then ["primary"] else [])
          ++ (if truthy (unique d) then ["unique"] else [])
          ++ (if truthy (nullable d) then ["nullable"]
              else if truthy (required d)
                      || match nullable d with
                         | Some false => true
                         | _ => false
                         end
                   then ["notNullable"] else [])
          ++ toks
          ++ (if truthy (index d) then ["index"] else [])
          ++ (if isAlter then ["alter"] else []))%list.
Proof.
  intros Hc1 Hc2 Hindent Hsizes Hdefault.
  rewrite generateColumnBuilder_parts.
  match goal with
  | |- context [indent ++ generateColumnBuilder c (bare d) "" false ++ ?ch] =>
      set (chain := ch)
  end.
  assert (Hchain : all_chars dot chain = true).
  { unfold chain. rewrite !all_chars_app.
    rewrite (default_piece_dot _ Hdefault).
    repeat match goal with
           | |- context [all_chars dot (if ?b then _ else _)] =>
               destruct b; cbn [all_chars andb]
           end; reflexivity. }
  destruct (head_parsed c indent chain d Hc1 Hc2 Hindent Hchain Hsizes)
    as (tok & ps & Hparse & _).
  destruct (default_piece (defaultTo d)
              ((if truthy (index d) then ".index()" else "")
               ++ (if isAlter then ".alter()" else "")) Hdefault)
    as (toks & Htoks & _ & Hnot).
  exists (ParsedColumn.make c tok (parseModifiers chain) ps), toks.
  split; [ exact Hparse | ]. split; [ exact Hnot | ].
  cbn [ParsedColumn.modifiers]. unfold chain.
  rewrite parseModifiers_primary, parseModifiers_unique,
    parseModifiers_nullable, Htoks, parseModifiers_index,
    parseModifiers_alter.
  reflexivity.
Qed.

(** X25: the table builder and the generated text decide [NOT NULL]
    differently.  [addColumn] calls [notNullable] exactly when the column
    is not nullable, [required] is not [false] and the column is not
    primary; the line [generateColumnBuilder] writes carries the modifier
    [notNullable], as the parser reads it, exactly when the column is not
    nullable and either [required] is [true] or [nullable] is [false].  So
    a column with neither flag is [NOT NULL] in a table built from the
    schema and nullable in the generated migration. *)
Theorem not_null_in_builder_and_in_text (c indent : string) (isAlter : bool)
  (d : ColumnDefinition) :
  c <> "" -> all_chars not_quote c = true ->
  all_chars space indent = true ->
  readable_sizes d = true -> readable_default (defaultTo d) = true ->
  (In (TableBuilder.mkCall "notNullable" []) (TableBuilder.addColumn c d)
   <-> truthy (nullable d) = false /\ required d <> Some false
       /\ truthy (primary d) = false)
  /\ exists parsed,
       parseColumnLine (generateColumnBuilder c d indent isAlter)
       = Some parsed
       /\ (In "notNullable" (ParsedColumn.modifiers parsed)
           <-> truthy (nullable d) = false
               /\ (truthy (required d) = true \/ nullable d = Some false)).
Proof.
  intros Hc1 Hc2 Hindent Hsizes Hdefault. split.
  - unfold TableBuilder.addColumn.
    set (column := match type d with Tincrements => _ | _ => _ end).
    assert (Hcolumn : column <> TableBuilder.mkCall "notNullable" []).
    { unfold column.
      destruct (type d); try discriminate;
        repeat match goal with
               | |- context [match ?o with Some _ => _ | None => _ end] =>
                   destruct o
               end; discriminate. }
    clearbody column.
    destruct (truthy (nullable d)), (required d) as [[] | ],
      (truthy (primary d)), (truthy (unique d)), (truthy (index d)),
      (defaultTo d), (TableBuilder.truthy_text (comment d)),
      (onUpdate d) as [[s | n | b] | ];
      try destruct (String.eqb s "now");
      cbn [app In andb negb];
      (split;
       [ intros H;
         repeat match type of H with
                | _ \/ _ => destruct H as [H | H]
                end;
         solve [ contradiction | discriminate H | congruence
               | repeat split; congruence ]
       | intros (H1 & H2 & H3);
         solve [ discriminate | congruence | tauto ] ]).
  - destruct (generated_modifiers c indent isAlter d Hc1 Hc2 Hindent Hsizes
                Hdefault) as (parsed & toks & Hparse & Hnot & Hmods).
    exists parsed. split; [ exact Hparse | ]. rewrite Hmods.
    destruct (truthy (primary d) && negb (isAutoIncrement (type d)))%bool,
      (truthy (unique d)), (truthy (nullable d)), (truthy (required d)),
      (nullable d) as [[] | ], (truthy (index d)), isAlter;
      cbn [orb app In];
      rewrite ?in_app_iff; cbn [In];
      (split;
       [ intros H;
         repeat match type of H with
                | _ \/ _ => destruct H as [H | H]
                end;
         solve [ contradiction | discriminate H | auto ]
       | intros (H1 & [H2 | H2]);
         solve [ discriminate | auto ] ]).
Qed.

Lemma not_null_in_builder_and_in_text_witness :
  In (TableBuilder.mkCall "notNullable" [])
     (TableBuilder.addColumn "name" (column Tstring))
  /\ exists parsed,
       parseColumnLine (generateColumnBuilder "name" (column Tstring) "    "
                          false)
       = Some parsed
       /\ ~ In "notNullable" (ParsedColumn.modifiers parsed).
Proof.
  destruct (not_null_in_builder_and_in_text "name" "    " false
              (column Tstring))
    as [Hbuilder (parsed & Hparse & Htext)];
    try solve [ discriminate | reflexivity ].
  split.
  - apply Hbuilder. repeat split. discriminate.
  - exists parsed. split; [ exact Hparse | ].
    intros Hin. apply Htext in Hin. destruct Hin as [_ [H | H]]; discriminate H.
Defined.

End BuilderExtras.

(** * Reading generated tables back *)

Module TableReadBack.
Import Regex JsString CallExtractor ColumnParser ExtractorFacts.
Import MigrationGenerator ReadBackFacts.

(** *** Lines *)

Lemma dot_not_line_feed (s : string) :
  all_chars dot s = true ->
  all_chars (fun c => negb (Ascii.eqb c "010")) s = true.
Proof.
  apply all_chars_impl. intros c.
  destruct c as [[] [] [] [] [] [] [] []]; intros H;
    solve [ reflexivity | discriminate H ].
Qed.

Lemma split_join_lines (l : string) (ls : list string) :
  Forall (fun l => all_chars dot l = true) (l :: ls) ->
  split "010" (join nl (l :: ls)) = l :: ls.
Proof.
  revert l. induction ls as [ | l' ls IH ]; intros l H;
    inversion H as [ | ? ? Hl Hls ]; subst.
  - apply split_none, dot_not_line_feed, Hl.
  - change (join nl (l :: l' :: ls))
      with (l ++ String "010" (join nl (l' :: ls))).
    rewrite split_app_sep, (split_none _ l (dot_not_line_feed _ Hl)).
    rewrite (IH l' Hls). reflexivity.
Qed.

(** *** Trimming a generated line *)

Lemma trim_start_blanks (indent s : string) :
  all_chars space indent = true ->
  trim_start (indent ++ s) = trim_start s.
Proof.
  induction indent as [ | c indent IH ]; [ reflexivity | ].
  cbn [all_chars append trim_start]. intros H. apply andb_true_iff in H.
  destruct H as [Hc Hi]. rewrite Hc. exact (IH Hi).
Qed.

Lemma ends_with_app (c : ascii) (a b : string) :
  b <> "" -> ends_with c (a ++ b) = ends_with c b.
Proof.
  intros Hb. induction a as [ | x a IH ]; [ reflexivity | ].
  cbn [append ends_with]. rewrite IH.
  destruct (a ++ b) eqn:E; [ | reflexivity ].
  destruct a; [ simpl in E; congruence | discriminate E ].
Qed.

Lemma ends_with_nonempty (c : ascii) (s : string) :
  ends_with c s = true -> s <> "".
Proof. destruct s; [ discriminate | discriminate ]. Qed.

Lemma ends_with_app_opt (c : ascii) (a b : string) :
  ends_with c a = true -> (b = "" \/ ends_with c b = true) ->
  ends_with c (a ++ b) = true.
Proof.
  intros Ha [-> | Hb].
  - rewrite append_nil_r. exact Ha.
  - rewrite ends_with_app by (apply (ends_with_nonempty c), Hb). exact Hb.
Qed.

Lemma opt_app (c : ascii) (a b : string) :
  (a = "" \/ ends_with c a = true) -> (b = "" \/ ends_with c b = true) ->
  a ++ b = "" \/ ends_with c (a ++ b) = true.
Proof.
  intros [-> | Ha] Hb; [ exact Hb | ].
  right. apply ends_with_app_opt; assumption.
Qed.

Lemma trim_end_ends_with (c : ascii) (s : string) :
  space c = false -> ends_with c s = true -> trim_end s = s.
Proof.
  intros Hc. induction s as [ | x s IH ]; [ reflexivity | ].
  cbn [ends_with trim_end]. destruct s as [ | y s ].
  - intros H. apply Ascii.eqb_eq in H. subst x. cbn [trim_end].
    rewrite Hc. reflexivity.
  - intros H. rewrite (IH H). reflexivity.
Qed.

Ltac nonempty :=
  first [ discriminate
        | let E := fresh in
          intros E; apply (f_equal String.length) in E;
          rewrite ?length_append in E; simpl in E; lia ].

Lemma head_shape (c : string) (d : ColumnDefinition) :
  readable_sizes d = true ->
  (exists rest, generateColumnBuilder c (bare d) "" false = String "t" rest)
  /\ ends_with ")" (generateColumnBuilder c (bare d) "" false) = true.
Proof.
  intros Hsizes. destruct d as [t p u n r dflt ou i cm ml pr sc vs].
  unfold readable_sizes in Hsizes. unfold bare.
  cbn [type maxLength precision scale values] in *.
  unfold generateColumnBuilder.
  cbn [type maxLength precision scale values primary unique nullable required
       defaultTo index truthy andb orb negb].
  cbv zeta.
  destruct t; destruct ml, pr, sc, vs as [[ | v vs] | ];
    cbn [absent andb] in Hsizes; try discriminate Hsizes;
    cbn [truthy_number];
    repeat match goal with
           | |- context [Z.eqb ?z 0] => destruct (Z.eqb z 0)
           end;
    (split; [ eexists; reflexivity | ]);
    rewrite !ends_with_app by nonempty; reflexivity.
Qed.

Lemma trim_generated (c indent : string) (isAlter : bool)
  (d : ColumnDefinition) :
  all_chars space indent = true ->
  readable_sizes d = true -> readable_default (defaultTo d) = true ->
  trim (generateColumnBuilder c d indent isAlter)
  = generateColumnBuilder c d "" isAlter
  /\ generateColumnBuilder c d "" isAlter <> "".
Proof.
  intros Hindent Hsizes Hdefault.
  rewrite (generateColumnBuilder_parts c indent isAlter d),
    (generateColumnBuilder_parts c "" isAlter d).
  destruct (head_shape c d Hsizes) as [[rest Hrest] Hends].
  match goal with
  | |- context [indent ++ generateColumnBuilder c (bare d) "" false ++ ?ch] =>
      set (chain := ch)
  end.
  assert (Hchain : chain = "" \/ ends_with ")" chain = true).
  { unfold chain. repeat apply opt_app.
    - destruct (truthy (primary d) && negb (isAutoIncrement (type d)))%bool;
        [ right | left ]; reflexivity.
    - destruct (truthy (unique d)); [ right | left ]; reflexivity.
    - destruct (truthy (nullable d)); [ right; reflexivity | ].
      destruct (truthy (required d) || _)%bool; [ right | left ];
        reflexivity.
    - destruct (defaultTo d) as [[s | z | b] | ]; [ | | | left; reflexivity ];
        right; try destruct (String.eqb s "now"); try reflexivity;
        rewrite <- !append_assoc; apply ends_with_app; discriminate.
    - destruct (truthy (index d)); [ right | left ]; reflexivity.
    - destruct isAlter; [ right | left ]; reflexivity. }
  pose proof (ends_with_app_opt ")" _ _ Hends Hchain) as Hline.
  set (line := generateColumnBuilder c (bare d) "" false ++ chain) in *.
  assert (Hline' : exists rest', line = String "t" rest').
  { unfold line. rewrite Hrest. eexists. reflexivity. }
  destruct Hline' as [rest' Hline'].
  change ("" ++ line) with line. split.
  - unfold trim. rewrite trim_start_blanks by exact Hindent.
    replace (trim_start line) with line by (rewrite Hline'; reflexivity).
    apply (trim_end_ends_with ")"); [ reflexivity | exact Hline ].
  - rewrite Hline'. discriminate.
Qed.

(** *** From the lines to the schema *)

Lemma fold_schemaStep_fresh (parsed : list ParsedColumn.t)
  (schema : SchemaDefinition) : forall acc,
  Forall2 (fun entry p =>
             ParsedColumn.name p = fst entry
             /\ convertColumnToDefinition p = Some (snd entry)
             /\ fst entry <> "__proto__")
          schema parsed ->
  NoDup (dict_keys acc ++ dict_keys schema) ->
  fold_left schemaStep parsed acc = (acc ++ schema)%list.
Proof.
  revert schema. induction parsed as [ | p parsed IH ]; intros schema acc H Hnd;
    inversion H as [ | [c d] ? sch ? (Hname & Hconv & Hproto) Hrest ]; subst.
  - rewrite app_nil_r. reflexivity.
  - cbn [fold_left fst snd] in *. unfold schemaStep at 2.
    rewrite Hconv, Hname, (obj_set_stored _ _ _ Hproto).
    assert (Habsent : dict_get acc c = None).
    { apply dict_get_None_keys. intros Hin.
      apply NoDup_app_remove_r in Hnd as Hacc.
      cbn [dict_keys map fst] in Hnd.
      apply (NoDup_remove_2 _ _ _ Hnd). apply in_or_app. left. exact Hin. }
    rewrite (GeneratorExtras.dict_set_absent acc c d Habsent).
    rewrite (IH sch (acc ++ [(c, d)])%list Hrest).
    + rewrite <- app_assoc. reflexivity.
    + unfold dict_keys in *. rewrite map_app, <- app_assoc. exact Hnd.
Qed.

Lemma line_reads_back (c : string) (isAlter : bool) (d : ColumnDefinition) :
  c <> "" -> all_chars not_quote c = true -> readable d = true ->
  exists parsed,
    parseColumnLine (generateColumnBuilder c d "" isAlter) = Some parsed
    /\ ParsedColumn.name parsed = c
    /\ convertColumnToDefinition parsed = Some d.
Proof.
  intros Hc1 Hc2 Hr. unfold readable in Hr.
  apply andb_true_iff in Hr. destruct Hr as [Hr _].
  apply andb_true_iff in Hr. destruct Hr as [Hr Hdefault].
  apply andb_true_iff in Hr. destruct Hr as [Hsizes Hflags].
  destruct (reads_back_core c "" isAlter d (defaultTo d)
              Hc1 Hc2 eq_refl Hsizes Hflags) as (parsed & H1 & H2 & H3).
  - intros text ->. split; [ apply default_piece_dot, Hdefault | ].
    intros rest. destruct (default_piece (defaultTo d) rest Hdefault)
      as (toks & E1 & E2 & _).
    exists toks. split; [ exact E1 | exact E2 ].
  - exists parsed. split; [ exact H1 | ]. split; [ exact H2 | ].
    rewrite H3. destruct d; reflexivity.
Qed.

Lemma lines_read_back (schema : SchemaDefinition) :
  (forall c d, In (c, d) schema ->
     c <> "" /\ c <> "__proto__" /\ all_chars not_quote c = true
     /\ readable d = true
     /\ skipped (generateColumnBuilder c d "" false) = false) ->
  exists parsed,
    flat_map (fun line =>
                if skipped line then []
                else match parseColumnLine line with
                     | Some column => [column]
                     | None => []
                     end)
             (map (fun entry =>
                     generateColumnBuilder (fst entry) (snd entry) "" false)
                  schema)
    = parsed
    /\ Forall2 (fun entry p =>
                  ParsedColumn.name p = fst entry
                  /\ convertColumnToDefinition p = Some (snd entry)
                  /\ fst entry <> "__proto__")
               schema parsed.
Proof.
  induction schema as [ | [c d] schema IH ]; intros H.
  - exists []. split; [ reflexivity | constructor ].
  - destruct (H c d (or_introl eq_refl)) as (Hc1 & Hproto & Hc2 & Hr & Hskip).
    destruct (line_reads_back c false d Hc1 Hc2 Hr)
      as (p & Hp & Hname & Hconv).
    destruct IH as (parsed & Hparsed & Hall).
    { intros c' d' Hin. apply H. right. exact Hin. }
    exists (p :: parsed). split.
    + cbn [map flat_map fst snd]. rewrite Hskip, Hp, Hparsed. reflexivity.
    + constructor; [ repeat split; assumption | exact Hall ].
Qed.

Lemma indented_line (c indent : string) (isAlter : bool)
  (d : ColumnDefinition) :
  generateColumnBuilder c d indent isAlter
  = indent ++ generateColumnBuilder c d "" isAlter.
Proof.
  rewrite (generateColumnBuilder_parts c indent isAlter d),
    (generateColumnBuilder_parts c "" isAlter d).
  reflexivity.
Qed.

Lemma bodyLines_generated (schema : SchemaDefinition) (indent : string) :
  all_chars space indent = true -> all_chars dot indent = true ->
  (forall c d, In (c, d) schema ->
     readable d = true
     /\ all_chars dot (generateColumnBuilder c d "" false) = true) ->
  bodyLines (generateTableBuilder schema indent)
  = map (fun entry => generateColumnBuilder (fst entry) (snd entry) "" false)
        schema.
Proof.
  intros Hindent Hdot H. unfold bodyLines, generateTableBuilder.
  destruct schema as [ | e schema ]; [ reflexivity | ].
  set (entries := e :: schema) in *.
  change (map (fun entry => generateColumnBuilder (fst entry) (snd entry)
                              indent false) entries)
    with (generateColumnBuilder (fst e) (snd e) indent false
          :: map (fun entry => generateColumnBuilder (fst entry) (snd entry)
                                 indent false) schema).
  rewrite split_join_lines.
  - change (generateColumnBuilder (fst e) (snd e) indent false
            :: map (fun entry => generateColumnBuilder (fst entry) (snd entry)
                                   indent false) schema)
      with (map (fun entry => generateColumnBuilder (fst entry) (snd entry)
                                indent false) entries).
    clearbody entries. clear e schema.
    induction entries as [ | [c d] entries IH ]; [ reflexivity | ].
    destruct (H c d (or_introl eq_refl)) as (Hr & _).
    unfold readable in Hr.
    apply andb_true_iff in Hr. destruct Hr as [Hr _].
    apply andb_true_iff in Hr. destruct Hr as [Hr Hdefault].
    apply andb_true_iff in Hr. destruct Hr as [Hsizes _].
    destruct (trim_generated c indent false d Hindent Hsizes Hdefault)
      as [Htrim Hne].
    cbn [map filter fst snd]. rewrite Htrim.
    apply String.eqb_neq in Hne. rewrite Hne. cbn [negb].
    rewrite IH; [ reflexivity | ].
    intros c' d' Hin. apply H. right. exact Hin.
  - change (generateColumnBuilder (fst e) (snd e) indent false
            :: map (fun entry => generateColumnBuilder (fst entry) (snd entry)
                                   indent false) schema)
      with (map (fun entry => generateColumnBuilder (fst entry) (snd entry)
                                indent false) entries).
    apply Forall_forall. intros line Hin. apply in_map_iff in Hin.
    destruct Hin as ([c d] & <- & Hin). cbn [fst snd].
    rewrite indented_line, all_chars_app, Hdot.
    apply (H c d Hin).
Qed.

(** X26: the body of a generated [createTable] is read back as the schema.
    For a schema with distinct column names, each not empty, without quote
    and other than [__proto__], whose definitions are in the class
    [readable], and whose generated lines hold no line terminator and are
    not taken for an index, foreign key, primary key or drop-column call,
    parsing the text of [generateTableBuilder] and normalizing the columns
    gives the schema back, in the same order. *)
Theorem generated_table_reads_back (schema : SchemaDefinition)
  (indent : string) :
  dict_wf schema ->
  all_chars space indent = true -> all_chars dot indent = true ->
  (forall c d, In (c, d) schema ->
     c <> "" /\ c <> "__proto__" /\ all_chars not_quote c = true
     /\ readable d = true
     /\ all_chars dot (generateColumnBuilder c d "" false) = true
     /\ skipped (generateColumnBuilder c d "" false) = false) ->
  convertColumnsToSchema
    (parseTableDefinition (generateTableBuilder schema indent))
  = schema.
Proof.
  intros Hwf Hindent Hdot H.
  unfold parseTableDefinition.
  rewrite (bodyLines_generated schema indent Hindent Hdot)
    by (intros c d Hin; destruct (H c d Hin) as (_ & _ & _ & Hr & Hd & _);
        split; assumption).
  destruct (lines_read_back schema) as (parsed & -> & Hall).
  { intros c d Hin. destruct (H c d Hin) as (H1 & H2 & H3 & H4 & _ & H6).
    repeat split; assumption. }
  unfold convertColumnsToSchema.
  apply (fold_schemaStep_fresh parsed schema []); [ exact Hall | exact Hwf ].
Qed.

Lemma generated_table_reads_back_witness :
  convertColumnsToSchema
    (parseTableDefinition
       (generateTableBuilder
          [ ("id", with_primary (Some true) (column Tincrements));
            ("email", with_unique (Some true)
                        (with_maxLength (Some 320) (column Tstring)));
            ("role", with_defaultTo (Some (PStr "user"))
                       (with_values (Some ["user"; "admin"])
                          (column Tenum))) ]
          "    "))
  = [ ("id", with_primary (Some true) (column Tincrements));
      ("email", with_unique (Some true)
                  (with_maxLength (Some 320) (column Tstring)));
      ("role", with_defaultTo (Some (PStr "user"))
                 (with_values (Some ["user"; "admin"]) (column Tenum))) ].
Proof.
  apply generated_table_reads_back.
  - repeat constructor; simpl; intuition discriminate.
  - reflexivity.
  - reflexivity.
  - intros c d [E | [E | [E | []]]]; injection E as <- <-;
      (split; [ discriminate | split; [ discriminate | ] ];
       repeat split; reflexivity).
Defined.

(** X27: a generated column line inside an [alterTable] is read as an
    addition, with or without its final [.alter()]: for a readable
    definition whose line holds no line terminator and not the text
    [table.dropColumn], [parseAlterOperations] gives the one operation
    [addColumn] with the same column name and the same definition (never
    [modifyColumn]). *)
Theorem generated_line_is_an_addition (c indent : string) (isAlter : bool)
  (d : ColumnDefinition) :
  c <> "" -> all_chars not_quote c = true ->
  all_chars space indent = true -> all_chars dot indent = true ->
  readable d = true ->
  all_chars dot (generateColumnBuilder c d "" isAlter) = true ->
  includes "table.dropColumn" (generateColumnBuilder c d "" isAlter) = false ->
  parseAlterOperations (generateColumnBuilder c d indent isAlter)
  = [ MigrationParser.mkAlterOperation MigrationParser.addColumn c (Some d) ].
Proof.
  intros Hc1 Hc2 Hindent Hdot Hr Hline Hdrop.
  destruct (line_reads_back c isAlter d Hc1 Hc2 Hr)
    as (parsed & Hparse & Hname & Hconv).
  unfold readable in Hr.
  apply andb_true_iff in Hr. destruct Hr as [Hr _].
  apply andb_true_iff in Hr. destruct Hr as [Hr Hdefault].
  apply andb_true_iff in Hr. destruct Hr as [Hsizes _].
  destruct (trim_generated c indent isAlter d Hindent Hsizes Hdefault)
    as [Htrim Hne].
  unfold parseAlterOperations, bodyLines.
  rewrite split_none.
  - cbn [map filter flat_map]. rewrite Htrim.
    apply String.eqb_neq in Hne. rewrite Hne. cbn [negb flat_map].
    unfold parseAlterLine. unfold dropColumnRegex.
    rewrite ParserExtras.match_first_needs_literal by exact Hdrop.
    rewrite Hparse, Hconv, Hname. reflexivity.
  - apply dot_not_line_feed.
    rewrite indented_line, all_chars_app, Hdot. exact Hline.
Qed.

Lemma generated_line_is_an_addition_witness :
  parseAlterOperations
    (generateColumnBuilder "email"
       (with_required (Some true) (with_maxLength (Some 320) (column Tstring)))
       "    " true)
  = [ MigrationParser.mkAlterOperation MigrationParser.addColumn "email"
        (Some (with_required (Some true)
                 (with_maxLength (Some 320) (column Tstring)))) ].
Proof.
  apply generated_line_is_an_addition;
    solve [ discriminate | reflexivity ].
Defined.
End TableReadBack.

(** * Properties of the model names *)

Module NamingExtras.
Import Regex JsString SchemaGenerator CallExtractor ReadBackFacts.

Lemma toUpperCase_alnum c : alnum c = true -> alnum (toUpperCase c) = true.
Proof.
  destruct c as [[] [] [] [] [] [] [] []]; intros H;
    solve [ reflexivity | discriminate H ].
Qed.

Lemma toLowerCase_alnum c : alnum c = true -> alnum (toLowerCase c) = true.
Proof.
  destruct c as [[] [] [] [] [] [] [] []]; intros H;
    solve [ reflexivity | discriminate H ].
Qed.

Lemma map_chars_all class f s :
  (forall c, class c = true -> class (f c) = true) ->
  all_chars class s = true -> all_chars class (map_chars f s) = true.
Proof.
  intros Hf. induction s as [ | c s IH ]; simpl; [ reflexivity | ].
  intros H. apply andb_true_iff in H. destruct H as [Hc Hs].
  rewrite (Hf _ Hc), (IH Hs). reflexivity.
Qed.

Lemma capitalize_alnum w :
  all_chars alnum w = true -> all_chars alnum (capitalize w) = true.
Proof.
  destruct w as [ | c w ]; simpl; [ reflexivity | ].
  intros H. apply andb_true_iff in H. destruct H as [Hc Hw].
  rewrite (toUpperCase_alnum _ Hc). simpl.
  apply map_chars_all; [ apply toLowerCase_alnum | exact Hw ].
Qed.

(** The pieces between separators hold the characters that are no
    separator. *)
Lemma split_pieces class sep s :
  (forall c, In c (list_ascii_of_string s) ->
             class c = true \/ c = sep) ->
  Forall (fun w => all_chars class w = true) (split sep s).
Proof.
  induction s as [ | c s IH ]; simpl; intros H.
  - repeat constructor.
  - assert (IH' := IH (fun c' Hin => H c' (or_intror Hin))).
    destruct (Ascii.eqb_spec c sep) as [-> | Hne].
    + constructor; [ reflexivity | exact IH' ].
    + destruct (H c (or_introl eq_refl)) as [Hc | Hc]; [ | contradiction ].
      destruct (split sep s) as [ | w ws ].
      * repeat constructor. simpl. rewrite Hc. reflexivity.
      * inversion IH' as [ | ? ? Hw Hws ]; subst.
        constructor; [ simpl; rewrite Hc, Hw; reflexivity | exact Hws ].
Qed.

Lemma replaced_chars s c :
  In c (list_ascii_of_string
          (map_chars (fun c => if alnum c then c else " "%char) s)) ->
  alnum c = true \/ c = " "%char.
Proof.
  induction s as [ | a s IH ]; simpl; [ contradiction | ].
  intros [<- | Hin]; [ | exact (IH Hin) ].
  destruct (alnum a) eqn:E; [ left; exact E | right; reflexivity ].
Qed.

Lemma join_empty_all class ws :
  Forall (fun w => all_chars class w = true) ws ->
  all_chars class (MigrationGenerator.join "" ws) = true.
Proof.
  unfold MigrationGenerator.join.
  induction ws as [ | w ws IH ]; simpl; intros H; [ reflexivity | ].
  inversion H as [ | ? ? Hw Hws ]; subst.
  destruct ws as [ | w' ws ]; [ exact Hw | ].
  rewrite all_chars_app, Hw. simpl. apply IH, Hws.
Qed.

Lemma toPascalCase_alnum s : all_chars alnum (toPascalCase s) = true.
Proof.
  unfold toPascalCase. apply join_empty_all.
  apply Forall_forall. intros w Hin. apply in_map_iff in Hin.
  destruct Hin as (w0 & <- & Hin). apply filter_In in Hin.
  apply capitalize_alnum.
  pose proof (split_pieces alnum " "%char _ (replaced_chars s)) as H.
  rewrite Forall_forall in H. apply H, Hin.
Qed.

(** X28: the names of a generated model hold only ASCII letters and
    digits, whatever the table name: both the model name and the start of
    the schema name. *)
Theorem generated_names_alphanumeric (str : string) :
  all_chars alnum (toPascalCase str) = true
  /\ all_chars alnum (toCamelCase str) = true.
Proof.
  split; [ apply toPascalCase_alnum | ].
  unfold toCamelCase. pose proof (toPascalCase_alnum str) as H.
  destruct (toPascalCase str) as [ | c rest ]; [ reflexivity | ].
  simpl in *. apply andb_true_iff in H. destruct H as [Hc Hr].
  rewrite (toLowerCase_alnum _ Hc), Hr. reflexivity.
Qed.

(** *** Separators *)

Lemma map_chars_app f a b :
  map_chars f (a ++ b) = map_chars f a ++ map_chars f b.
Proof.
  induction a as [ | c a IH ]; simpl; [ reflexivity | ].
  rewrite IH. reflexivity.
Qed.

Lemma join_empty_app l1 l2 :
  MigrationGenerator.join "" (l1 ++ l2)
  = MigrationGenerator.join "" l1 ++ MigrationGenerator.join "" l2.
Proof.
  unfold MigrationGenerator.join.
  induction l1 as [ | w l1 IH ]; simpl; [ reflexivity | ].
  destruct l1 as [ | w' l1 ]; simpl in *.
  - destruct l2 as [ | v l2 ]; simpl.
    + clear. induction w; simpl; congruence.
    + reflexivity.
  - rewrite IH. clear. induction w; simpl; congruence.
Qed.

(** X29: every character that is no ASCII letter or digit only separates
    words.  The model name of a table name with such a character in it is
    the model names of the two sides put together, so table names that
    differ only in their separators get the same model name. *)
Theorem separators_only_split_words (a b : string) (c : ascii) :
  alnum c = false ->
  toPascalCase (a ++ String c b) = toPascalCase a ++ toPascalCase b.
Proof.
  intros Hc. unfold toPascalCase.
  rewrite map_chars_app. simpl. rewrite Hc.
  rewrite split_app_sep, filter_app, map_app. apply join_empty_app.
Qed.

Lemma separators_only_split_words_witness :
  toPascalCase "user_profiles" = toPascalCase "user" ++ toPascalCase "profiles"
  /\ toPascalCase "user-profiles" = toPascalCase "user_profiles".
Proof.
  split.
  - apply (separators_only_split_words "user" "profiles" "_"%char).
    reflexivity.
  - vm_compute. reflexivity.
Defined.

End NamingExtras.
